(** * wallet.py: the finance ledger (FinanceRecord, FinanceManager, FinanceCLI)

    A shallow embedding of [src/wallet.py] and the properties of its
    persistence and query layer and of its command line interface.

    - A Python [str] is a list of Unicode code points ([N]); the literals of
      the source are written as UTF-8 text and decoded once ([u]).
    - A Python [float] is a binary64 number ([PrimFloat.float]); [float(s)]
      and the formatting of a float inside an f-string are the interpreter's
      builtins, embedded in [float_of_str] and [float_repr].
    - A [dict] is a [gmap]; the file system is a [gmap] from paths to the text
      of regular files.  Opening an existing regular file and writing a file
      always succeed (I/O failures are outside the model).
    - A method of the manager is a function on the [world]: the manager
      itself, the files and what was printed; it returns the exception
      raised, if any, together with the new world.
    - A method of the interface is an action on the [terminal]: the world
      of the manager, the lines still to be typed and what was shown. *)

From Stdlib Require Import ZArith NArith List Ascii String.
From Stdlib Require Import PrimFloat FloatOps SpecFloat FloatAxioms.
From stdpp Require Import base option list gmap.

Local Open Scope N_scope.
Local Open Scope list_scope.

(** ** Python text *)

Abbreviation char := N (only parsing).
Abbreviation str := (list N) (only parsing).

Module Utf8.

(** Decoder for the UTF-8 source text of the literals (1 to 4 bytes). *)
Fixpoint decode (bs : list N) : str :=
  match bs with
  | [] => []
  | b :: rest =>
      if b <? 128 then b :: decode rest
      else if b <? 224 then
        match rest with
        | b1 :: rest' => ((b - 192) * 64 + (b1 - 128)) :: decode rest'
        | _ => []
        end
      else if b <? 240 then
        match rest with
        | b1 :: b2 :: rest' =>
            ((b - 224) * 4096 + (b1 - 128) * 64 + (b2 - 128)) :: decode rest'
        | _ => []
        end
      else
        match rest with
        | b1 :: b2 :: b3 :: rest' =>
            ((b - 240) * 262144 + (b1 - 128) * 4096 + (b2 - 128) * 64 + (b3 - 128))
              :: decode rest'
        | _ => []
        end
  end.

Definition bytes (s : string) : list N :=
  List.map N_of_ascii (list_ascii_of_string s).

End Utf8.

(** [u "text"] is the Python literal ['text']. *)
Definition u (s : string) : str := Utf8.decode (Utf8.bytes s).

Definition LF : char := 10.
Definition CR : char := 13.

(** [str.isspace] on one code point (CPython's [_PyUnicode_IsWhitespace]). *)
Definition isspace (c : char) : bool :=
  ((9 <=? c) && (c <=? 13)) || ((28 <=? c) && (c <=? 32))
  || (c =? 133) || (c =? 160) || (c =? 5760)
  || ((8192 <=? c) && (c <=? 8202))
  || (c =? 8232) || (c =? 8233) || (c =? 8239) || (c =? 8287) || (c =? 12288).

Fixpoint lstrip (s : str) : str :=
  match s with
  | [] => []
  | c :: s' => if isspace c then lstrip s' else s
  end.

Definition rstrip (s : str) : str := reverse (lstrip (reverse s)).

(** [s.strip()] *)
Definition strip (s : str) : str := rstrip (lstrip s).

(** [s] with the prefix [p] removed, when [s] starts with [p]. *)
Fixpoint strip_prefix (p s : str) : option str :=
  match p, s with
  | [], _ => Some s
  | a :: p', b :: s' => if a =? b then strip_prefix p' s' else None
  | _ :: _, [] => None
  end.

(** The text before and after the leftmost occurrence of [sep] in [s]. *)
Fixpoint cut (sep s : str) : option (str * str) :=
  match strip_prefix sep s with
  | Some rest => Some ([], rest)
  | None =>
      match s with
      | [] => None
      | c :: s' =>
          match cut sep s' with
          | Some (before, after) => Some (c :: before, after)
          | None => None
          end
      end
  end.

(** [s.split(sep, maxsplit)] for a non-empty [sep]. *)
Fixpoint split_max (maxsplit : nat) (sep s : str) : list str :=
  match maxsplit with
  | O => [s]
  | S n =>
      match cut sep s with
      | Some (before, after) => before :: split_max n sep after
      | None => [s]
      end
  end.

(** [s.split(sep)]: no bound on the number of splits; a text of [length s]
    code points holds at most [length s] occurrences of a non-empty [sep]. *)
Definition split (sep s : str) : list str := split_max (length s) sep s.

(** ** Python floats

    [float_of_str] is [float(s)] for a [str] argument and [float_repr] is the
    text an f-string substitutes for a float ([repr]: the shortest decimal
    that converts back to the same binary64 number).  A [None] of
    [float_of_str] is Python's [ValueError]. *)

Module PyFloat.

Definition is_digit (c : char) : bool := (48 <=? c) && (c <=? 57).

(** C's [isspace] in the "C" locale, used once the text is ASCII. *)
Definition c_isspace (c : char) : bool := ((9 <=? c) && (c <=? 13)) || (c =? 32).

Definition lower (c : char) : char :=
  if (65 <=? c) && (c <=? 90) then c + 32 else c.

(** The digit zero of every script with decimal digits outside ASCII
    (Unicode 14.0, the data of CPython 3.11); the digits 1 to 9 of a script
    follow its zero. *)
Definition decimal_zeros : list N :=
  [
    1632; 1776; 1984; 2406; 2534; 2662; 2790; 2918;
    3046; 3174; 3302; 3430; 3558; 3664; 3792; 3872;
    4160; 4240; 6112; 6160; 6470; 6608; 6784; 6800;
    6992; 7088; 7232; 7248; 42528; 43216; 43264; 43472;
    43504; 43600; 44016; 65296; 66720; 68912; 69734; 69872;
    69942; 70096; 70384; 70736; 70864; 71248; 71360; 71472;
    71904; 72016; 72784; 73040; 73120; 92768; 92864; 93008;
    120782; 120792; 120802; 120812; 120822; 123200; 123632; 125264;
    130032 ].

(** The value of a decimal digit outside ASCII. *)
Definition decimal_digit (c : char) : option N :=
  match List.find (fun z => (z <=? c) && (c <=? z + 9)) decimal_zeros with
  | Some z => Some (c - z)
  | None => None
  end.

(** What [float] and [int] read first: non-ASCII whitespace becomes a space,
    a decimal digit of another script the ASCII digit of its value, and any
    other non-ASCII code point ['?'], which no number contains. *)
Definition to_ascii (s : str) : str :=
  map (fun c => if c <? 128 then c
                else if isspace c then 32
                else match decimal_digit c with
                     | Some d => 48 + d
                     | None => 63
                     end) s.

(** An underscore is accepted between two digits only, and is dropped. *)
Fixpoint drop_underscores (prev : char) (s : str) : option str :=
  match s with
  | [] => if prev =? 95 then None else Some []
  | c :: s' =>
      if c =? 95 then
        if is_digit prev then drop_underscores c s' else None
      else if (prev =? 95) && negb (is_digit c) then None
      else option_map (cons c) (drop_underscores c s')
  end.

Fixpoint c_lstrip (s : str) : str :=
  match s with
  | [] => []
  | c :: s' => if c_isspace c then c_lstrip s' else s
  end.

Definition c_strip (s : str) : str := reverse (c_lstrip (reverse (c_lstrip s))).

Definition parse_sign (s : str) : bool * str :=
  match s with
  | 45 :: r => (true, r)
  | 43 :: r => (false, r)
  | _ => (false, s)
  end.

(** The leading decimal digits of [s] (their values) and what follows. *)
Fixpoint take_digits (s : str) : list Z * str :=
  match s with
  | [] => ([], [])
  | c :: s' =>
      if is_digit c then
        let '(ds, r) := take_digits s' in (Z.of_N (c - 48) :: ds, r)
      else ([], s)
  end.

Definition of_digits (ds : list Z) : Z :=
  fold_left (fun acc d => (10 * acc + d)%Z) ds 0%Z.

(** The binary64 number nearest to [m * 10^e] (ties to even), [m >= 0]. *)
Definition decimal_to_float (neg : bool) (m e : Z) : spec_float :=
  match m with
  | Zpos p =>
      if (0 <=? e)%Z then binary_round prec emax neg (p * Z.to_pos (10 ^ e)) 0
      else SFdiv prec emax (S754_finite neg p 0)
                           (S754_finite false (Z.to_pos (10 ^ (- e))) 0)
  | _ => S754_zero neg
  end.

(** [digits [. digits] [(e|E) [sign] digits]] with at least one digit before
    the exponent, and nothing after it. *)
Definition parse_number (neg : bool) (s : str) : option spec_float :=
  let '(ip, r1) := take_digits s in
  let '(fp, r2) :=
    match r1 with
    | 46 :: r => take_digits r
    | _ => ([], r1)
    end in
  match ip ++ fp with
  | [] => None
  | ds =>
      let m := of_digits ds in
      let scale := Z.of_nat (length fp) in
      match r2 with
      | [] => Some (decimal_to_float neg m (- scale))
      | c :: r =>
          if lower c =? 101 then
            let '(eneg, r3) := parse_sign r in
            match take_digits r3 with
            | (d :: es, []) =>
                let e := of_digits (d :: es) in
                Some (decimal_to_float neg m ((if eneg then - e else e) - scale))
            | _ => None
            end
          else None
      end
  end.

Definition parse_inf_or_nan (neg : bool) (s : str) : option spec_float :=
  let t := map lower s in
  if bool_decide (t = u "inf") || bool_decide (t = u "infinity")
  then Some (S754_infinity neg)
  else if bool_decide (t = u "nan") then Some S754_nan
  else None.

Definition float_of_str (s : str) : option float :=
  match drop_underscores 0 (to_ascii s) with
  | None => None
  | Some t =>
      let '(neg, body) := parse_sign (c_strip t) in
      match parse_number neg body with
      | Some x => Some (SF2Prim x)
      | None => option_map SF2Prim (parse_inf_or_nan neg body)
      end
  end.

(** *** Formatting *)

Fixpoint digits_fuel (fuel : nat) (n : Z) (acc : list Z) : list Z :=
  match fuel with
  | O => acc
  | S f => if (n <? 10)%Z then n :: acc
           else digits_fuel f (n / 10)%Z ((n mod 10)%Z :: acc)
  end.

(** Decimal digits of [n >= 0], most significant first. *)
Definition digits (n : Z) : list Z := digits_fuel (S (Z.to_nat (Z.log2 n))) n [].

Definition digit_char (d : Z) : char := 48 + Z.to_N d.

Fixpoint first_exp (fuel : nat) (num den j : Z) : Z :=
  match fuel with
  | O => j
  | S f => if (den <=? num * 10 ^ j)%Z then j else first_exp f num den (j + 1)%Z
  end.

(** [floor (log10 (num / den))] for a positive binary64 magnitude. *)
Definition ilog10 (num den : Z) : Z :=
  if (den <=? num)%Z then (Z.of_nat (length (digits (num / den))) - 1)%Z
  else (- first_exp 400 num den 1)%Z.

(** [num / (den * 10^k)] as a quotient, a remainder and the divisor. *)
Definition scaled (num den k : Z) : Z * Z * Z :=
  if (0 <=? k)%Z then
    let d := (den * 10 ^ k)%Z in ((num / d)%Z, (num mod d)%Z, d)
  else
    let n := (num * 10 ^ (- k))%Z in ((n / den)%Z, (n mod den)%Z, den).

Definition same_float (a b : spec_float) : bool :=
  match a, b with
  | S754_finite _ m1 e1, S754_finite _ m2 e2 => (m1 =? m2)%positive && (e1 =? e2)%Z
  | _, _ => false
  end.

(** The [n]-digit decimals just below and just above [num / den], the nearer
    one first; the one kept converts back to [x]. *)
Definition candidate (x : spec_float) (num den p10 : Z) (n : nat) : option (Z * Z) :=
  let k := (p10 - Z.of_nat n + 1)%Z in
  let '(q, r, d) := scaled num den k in
  let ok c := same_float (decimal_to_float false c k) x in
  let up_first := match (2 * r ?= d)%Z with
                  | Gt => true
                  | Eq => Z.odd q
                  | Lt => false
                  end in
  let '(c1, c2) := if up_first then ((q + 1)%Z, q) else (q, (q + 1)%Z) in
  if ok c1 then Some (c1, k) else if ok c2 then Some (c2, k) else None.

Fixpoint shortest (x : spec_float) (num den p10 : Z) (n : nat) (fuel : nat) : Z * Z :=
  match candidate x num den p10 n, fuel with
  | Some c, _ => c
  | None, S f => shortest x num den p10 (S n) f
  | None, O => let '(q, _, _) := scaled num den (p10 - 16)%Z in (q, (p10 - 16)%Z)
  end.

Fixpoint drop_zeros (fuel : nat) (c k : Z) : Z * Z :=
  match fuel with
  | O => (c, k)
  | S f => if (c mod 10 =? 0)%Z then drop_zeros f (c / 10)%Z (k + 1)%Z else (c, k)
  end.

Definition zeros (n : Z) : str := repeat 48 (Z.to_nat n).

(** Two exponent digits at least, as C's [%+.02d]. *)
Definition exp_text (e : Z) : str :=
  let ds := map digit_char (digits (Z.abs e)) in
  (if (e <? 0)%Z then 45 else 43) :: (if (Z.abs e <? 10)%Z then 48 :: ds else ds).

(** Format code ['r']: fixed notation while [-4 < decpt <= 16]. *)
Definition format_short (ds : list Z) (decpt : Z) : str :=
  let cs := map digit_char ds in
  let n := Z.of_nat (length ds) in
  if ((-4 <? decpt) && (decpt <=? 16))%Z then
    if (decpt <=? 0)%Z then [48; 46] ++ zeros (- decpt) ++ cs
    else if (n <=? decpt)%Z then cs ++ zeros (decpt - n) ++ [46; 48]
    else take (Z.to_nat decpt) cs ++ [46] ++ drop (Z.to_nat decpt) cs
  else
    match cs with
    | [] => []
    | [c] => c :: 101 :: exp_text (decpt - 1)
    | c :: rest => c :: 46 :: rest ++ 101 :: exp_text (decpt - 1)
    end.

Definition float_repr (x : float) : str :=
  match Prim2SF x with
  | S754_nan => u "nan"
  | S754_infinity s => if s then u "-inf" else u "inf"
  | S754_zero s => if s then u "-0.0" else u "0.0"
  | S754_finite s m e =>
      let num := if (0 <=? e)%Z then (Zpos m * 2 ^ e)%Z else Zpos m in
      let den := if (0 <=? e)%Z then 1%Z else (2 ^ (- e))%Z in
      let p10 := ilog10 num den in
      let '(c0, k0) := shortest (S754_finite false m e) num den p10 1 16 in
      let '(c, k) := drop_zeros 20 c0 k0 in
      let ds := digits c in
      (if s then [45] else []) ++ format_short ds (Z.of_nat (length ds) + k)
  end.

End PyFloat.

Export PyFloat.

(** ** The literals of wallet.py *)

Definition KEY_DATE : str := Eval vm_compute in u "Дата".
Definition KEY_CATEGORY : str := Eval vm_compute in u "Категория".
Definition KEY_AMOUNT : str := Eval vm_compute in u "Сумма".
Definition KEY_DESCRIPTION : str := Eval vm_compute in u "Описание".
Definition INCOME : str := Eval vm_compute in u "Доход".
Definition EXPENSE : str := Eval vm_compute in u "Расход".
(** ['---'], ['---\n'], ['\n'] and [': '] *)
Definition DASHES : str := Eval vm_compute in u "---".
Definition ENTRY_SEP : str := Eval vm_compute in u "---" ++ [LF].
Definition NEWLINE : str := Eval vm_compute in [LF].
Definition KV_SEP : str := Eval vm_compute in u ": ".

(** ** FinanceRecord *)

Record FinanceRecord := {
  date : str;
  category : str;
  amount : float;
  description : str
}.

(** ** Exceptions and printed diagnostics *)

Inductive exn :=
| KeyError (key : str)
| ValueError (text : str)
| IndexError.

Definition result (A : Type) : Type := exn + A.

#[global] Instance result_bind : MBind result :=
  fun A B f x =>
    match x with
    | inl e => inl e
    | inr a => f a
    end.

(** What [parse_records] prints: an unparsable line, the [KeyError] of a
    block, the [ValueError] of a block together with the block's data. *)
Inductive diagnostic :=
| Unparsable (line : str)
| MissingKey (key : str)
| BadValue (text : str) (data : gmap (list N) (list N)).

(** [data[key]] *)
Definition getitem (data : gmap (list N) (list N)) (key : str) : result str :=
  match data !! key with
  | Some v => inr v
  | None => inl (KeyError key)
  end.

(** [float(text)] *)
Definition float_ (text : str) : result float :=
  match float_of_str text with
  | Some x => inr x
  | None => inl (ValueError text)
  end.

(** ** FinanceManager.parse_records *)

(** The body of the loop over the lines of a block. *)
Definition parse_line (st : gmap (list N) (list N) * list diagnostic) (line : str)
  : gmap (list N) (list N) * list diagnostic :=
  let line := strip line in
  if bool_decide (line = DASHES) || bool_decide (line = []) then st
  else
    match split_max 1 KV_SEP line with
    | [key; value] => (<[key := value]> (fst st), snd st)
    | _ => (fst st, snd st ++ [Unparsable line])
    end.

(** The constructor call inside [try]: the arguments are evaluated left to
    right, so the first failing one decides the exception. *)
Definition make_record (data : gmap (list N) (list N)) : result FinanceRecord :=
  d ← getitem data KEY_DATE;
  c ← getitem data KEY_CATEGORY;
  a ← (v ← getitem data KEY_AMOUNT; float_ v);
  t ← getitem data KEY_DESCRIPTION;
  inr {| date := d; category := c; amount := a; description := t |}.

(** The body of the loop over the blocks; [try] handles [KeyError] and
    [ValueError] and lets any other exception through. *)
Definition parse_entry (st : list FinanceRecord * list diagnostic) (entry : str)
  : result (list FinanceRecord * list diagnostic) :=
  let entry := strip entry in
  if bool_decide (entry = []) then inr st
  else
    let '(data, out) := fold_left parse_line (split NEWLINE entry) (∅, snd st) in
    match make_record data with
    | inr record => inr (fst st ++ [record], out)
    | inl (KeyError key) => inr (fst st, out ++ [MissingKey key])
    | inl (ValueError text) => inr (fst st, out ++ [BadValue text data])
    | inl e => inl e
    end.

Fixpoint parse_entries (entries : list str) (st : list FinanceRecord * list diagnostic)
  : result (list FinanceRecord * list diagnostic) :=
  match entries with
  | [] => inr st
  | entry :: rest => st' ← parse_entry st entry; parse_entries rest st'
  end.

(** The records returned and the diagnostics printed. *)
Definition parse_records (content : str) : result (list FinanceRecord * list diagnostic) :=
  parse_entries (split ENTRY_SEP (strip content)) ([], []).

(** ** FinanceManager.save_records *)

(** The five [file.write] calls for one record. *)
Definition write_record (file : str) (record : FinanceRecord) : str :=
  let file := file ++ KEY_DATE ++ KV_SEP ++ date record ++ NEWLINE in
  let file := file ++ KEY_CATEGORY ++ KV_SEP ++ category record ++ NEWLINE in
  let file := file ++ KEY_AMOUNT ++ KV_SEP ++ float_repr (amount record) ++ NEWLINE in
  let file := file ++ KEY_DESCRIPTION ++ KV_SEP ++ description record ++ NEWLINE in
  file ++ ENTRY_SEP.

(** The text [save_records] writes for a list of records. *)
Definition serialize (records : list FinanceRecord) : str :=
  fold_left write_record records [].

(** ** The manager and its file *)

Record FinanceManager := {
  filepath : str;
  records : list FinanceRecord
}.

(** The manager, the regular files by path, and the diagnostics printed. *)
Record world := {
  self : FinanceManager;
  fs : gmap (list N) (list N);
  stdout : list diagnostic
}.

(** Text mode reads with universal newlines: ['\r\n'] and ['\r'] arrive as
    ['\n'].  Writing is modelled for a platform whose line separator is
    ['\n']. *)
Fixpoint universal_newlines (s : str) : str :=
  match s with
  | [] => []
  | c :: s' =>
      if c =? CR then
        LF :: match s' with
              | c' :: s'' => if c' =? LF then universal_newlines s'' else universal_newlines s'
              | [] => []
              end
      else c :: universal_newlines s'
  end.

Definition save_records (m : FinanceManager) (files : gmap (list N) (list N))
  : gmap (list N) (list N) :=
  <[filepath m := serialize (records m)]> files.

Definition load_records (path : str) (files : gmap (list N) (list N))
  : result (list FinanceRecord * list diagnostic) :=
  match files !! path with
  | None => inr ([], [])
  | Some text => parse_records (strip (universal_newlines text))
  end.

(** [FinanceManager(filepath)] *)
Definition init (path : str) (files : gmap (list N) (list N)) (out : list diagnostic)
  : result world :=
  loaded ← load_records path files;
  inr {| self := {| filepath := path; records := fst loaded |};
         fs := files;
         stdout := out ++ snd loaded |}.

Definition saved (m : FinanceManager) (w : world) : world :=
  {| self := m; fs := save_records m (fs w); stdout := stdout w |}.

Definition add_record (record : FinanceRecord) (w : world) : result unit * world :=
  let m := {| filepath := filepath (self w); records := records (self w) ++ [record] |} in
  (inr tt, saved m w).

Definition edit_record (index : Z) (new_record : FinanceRecord) (w : world)
  : result unit * world :=
  if ((0 <=? index)%Z && (index <? Z.of_nat (length (records (self w))))%Z) then
    let m := {| filepath := filepath (self w);
                records := <[Z.to_nat index := new_record]> (records (self w)) |} in
    (inr tt, saved m w)
  else (inr tt, w).

Definition delete_record (index : Z) (w : world) : result unit * world :=
  if ((0 <=? index)%Z && (index <? Z.of_nat (length (records (self w))))%Z) then
    let m := {| filepath := filepath (self w);
                records := delete (Z.to_nat index) (records (self w)) |} in
    (inr tt, saved m w)
  else (inl IndexError, w).

(** ** Queries *)

(** The condition of the loop in [search_records]; [None] is Python's
    [None], [==] on floats is IEEE equality. *)
Definition matches (category' date' : option str) (amount' : option float)
    (record : FinanceRecord) : bool :=
  match category' with None => true | Some c => bool_decide (category record = c) end
  && match date' with None => true | Some d => bool_decide (date record = d) end
  && match amount' with None => true | Some a => PrimFloat.eqb (amount record) a end.

Definition search_records (category' date' : option str) (amount' : option float)
    (m : FinanceManager) : list FinanceRecord :=
  fold_left
    (fun result record =>
       if matches category' date' amount' record then result ++ [record] else result)
    (records m) [].

(** [sum] over floats: the additions from left to right, starting from 0
    (the sum of no float at all is Python's integer 0, here the float 0). *)
Definition py_sum (xs : list float) : float := fold_left PrimFloat.add xs 0%float.

(** The generator [record.amount for record in records if record.category == label]. *)
Definition amounts_of (label : str) (rs : list FinanceRecord) : list float :=
  List.map amount (List.filter (fun record => bool_decide (category record = label)) rs).

Definition calculate_finances (m : FinanceManager) : float * float * float :=
  let total_income := py_sum (amounts_of INCOME (records m)) in
  let total_expense := py_sum (amounts_of EXPENSE (records m)) in
  let balance := PrimFloat.sub total_income total_expense in
  (balance, total_income, total_expense).


(** ** Python integers

    [int_of_str] is [int(s)] for a [str] argument: whitespace around, a
    sign, then decimal digits, with single underscores between digits only.
    A [None] is Python's [ValueError], which recent interpreters also raise
    when the text has more than 4300 digits.  As for floats, the digits may
    be the decimal digits of any script ([to_ascii]). *)

Module PyInt.

(** The digits of [s], which go to its end; [prev] is the character before
    [s], 0 at the start. *)
Fixpoint int_digits (prev : char) (s : str) : option (list Z) :=
  match s with
  | [] => if prev =? 95 then None else Some []
  | c :: s' =>
      if c =? 95 then
        if (prev =? 95) || (prev =? 0) then None else int_digits c s'
      else if is_digit c then option_map (cons (Z.of_N (c - 48))) (int_digits c s')
      else None
  end.

Definition max_str_digits : nat := 4300.

Definition int_of_str (s : str) : option Z :=
  let '(neg, body) := parse_sign (c_strip (to_ascii s)) in
  match int_digits 0 body with
  | Some (d :: ds) =>
      if (max_str_digits <? length (d :: ds))%nat then None
      else Some (if neg then - of_digits (d :: ds) else of_digits (d :: ds))%Z
  | _ => None
  end.

End PyInt.
Export PyInt.

Definition int_ (text : str) : result Z :=
  match int_of_str text with
  | Some n => inr n
  | None => inl (ValueError text)
  end.

(** ** The command line interface

    The terminal of a session: the manager with its files, the lines still
    to be typed, and what has been shown so far, prompts and printed lines
    apart.  (The diagnostics of the load, printed before the session starts,
    stay in the [stdout] of the manager's world.) *)

Inductive output :=
  | Asked (prompt : str)
  | Printed (line : str).

Record terminal := {
  manager : world;
  stdin : list (list N);
  shown : list output
}.

(** What ends a method early: an exception of the manager or of a
    conversion, or the end of the input. *)
Inductive raised :=
  | Exn (e : exn)
  | EOFError.

Definition io (A : Type) : Type := terminal -> (raised + A) * terminal.

#[global] Instance io_ret : MRet io := fun A a t => (inr a, t).

#[global] Instance io_bind : MBind io := fun A B f m t =>
  match m t with
  | (inl e, t') => (inl e, t')
  | (inr a, t') => f a t'
  end.

Definition show (o : output) (t : terminal) : terminal :=
  {| manager := manager t; stdin := stdin t; shown := shown t ++ [o] |}.

(** [input(prompt)]: the prompt is shown, then a line is read. *)
Definition input (prompt : str) : io (list N) := fun t =>
  match stdin t with
  | [] => (inl EOFError, show (Asked prompt) t)
  | line :: rest =>
      (inr line,
       {| manager := manager t; stdin := rest; shown := shown t ++ [Asked prompt] |})
  end.

Definition print (line : str) : io unit := fun t => (inr tt, show (Printed line) t).

(** The value of a conversion, or its exception. *)
Definition lift {A : Type} (r : result A) : io A := fun t =>
  match r with
  | inl e => (inl (Exn e), t)
  | inr a => (inr a, t)
  end.

(** A method of the manager, called on [self.manager]. *)
Definition call (method : world -> result unit * world) : io unit := fun t =>
  let '(r, w) := method (manager t) in
  (match r with inl e => inl (Exn e) | inr a => inr a end,
   {| manager := w; stdin := stdin t; shown := shown t |}).

(** [self.manager], to be read. *)
Definition the_manager : io FinanceManager := fun t => (inr (self (manager t)), t).

(** [try: body except ...]: [handler] gives the clause of an exception, if
    there is one. *)
Definition try {A : Type} (body : io A) (handler : exn -> option (io A)) : io A :=
  fun t =>
    match body t with
    | (inl (Exn e), t') =>
        match handler e with
        | Some clause => clause t'
        | None => (inl (Exn e), t')
        end
    | other => other
    end.

(** The texts of the interface. *)
Definition MENU : str :=
  u "Введите ваш выбор - число от 1 до 6, где: " ++ [LF]
  ++ u "1 - Добавить запись " ++ [LF]
  ++ u "2 - Изменить запись " ++ [LF]
  ++ u "3 - Удалить запись " ++ [LF]
  ++ u "4 - Найти запись " ++ [LF]
  ++ u "5 - Показать все записи " ++ [LF]
  ++ u "6 - Показать баланс " ++ [LF]
  ++ u "7 - Выйти из программы " ++ [LF].
Definition MSG_EXIT : str := u "Выход из программы".
Definition MSG_BAD_CHOICE : str :=
  u "Неверный выбор." ++ u "Пожалуйста, выберите один из доступных вариантов.".
Definition ASK_DATE : str := u "Введите дату в формате гггг-мм-дд: ".
Definition ASK_CATEGORY : str := u "Введите категорию (Доход/Расход): ".
Definition ASK_AMOUNT : str := u "Введите сумму: ".
Definition ASK_DESCRIPTION : str := u "Введите описание: ".
Definition MSG_ADDED : str := u "Запись успешно добавлена.".
Definition ASK_EDIT_NUMBER : str := u "Введите номер записи для редактирования: ".
Definition ASK_NEW_DATE : str := u "Введите новую дату в формате гггг-мм-дд: ".
Definition ASK_NEW_CATEGORY : str := u "Введите новую категорию (Доход/Расход): ".
Definition ASK_NEW_AMOUNT : str := u "Введите новую сумму: ".
Definition ASK_NEW_DESCRIPTION : str := u "Введите новое описание: ".
Definition MSG_UPDATED : str := u "Запись успешно обновлена.".
Definition ASK_DELETE_NUMBER : str := u "Введите номер записи для удаления: ".
Definition MSG_DELETED : str := u "Запись удалена успешно.".
Definition MSG_NO_SUCH_NUMBER : str := u "Ошибка: Нет записи с таким номером.".
Definition MSG_BAD_NUMBER : str :=
  u "Ошибка: Неправильный ввод. " ++ u "Пожалуйста, введите числовой индекс.".
Definition ASK_FIND_CATEGORY : str :=
  u "Введите категорию для поиска (оставьте пустым, если не нужно): ".
Definition ASK_FIND_DATE : str :=
  u "Введите дату для поиска в формате гггг-мм-дд "
  ++ u "(оставьте пустым, если не нужно): ".
Definition ASK_FIND_AMOUNT : str :=
  u "Введите сумму для поиска " ++ u "(оставьте пустым, если не нужно): ".
Definition MSG_NOT_FOUND : str := u "Записи не найдены.".
Definition MSG_NO_RECORDS : str := u "Записей пока нет.".
Definition TOTAL_INCOME : str := u "Общий доход: ".
Definition TOTAL_EXPENSE : str := u "Общие расходы: ".
Definition BALANCE : str := u "Текущий баланс: ".

(** [x if x else None] for a text. *)
Definition if_given (text : str) : option str :=
  match text with
  | [] => None
  | _ => Some text
  end.

(** The five lines printed for a record. *)
Definition print_record (record : FinanceRecord) : io unit :=
  print (KEY_DATE ++ KV_SEP ++ date record);;
  print (KEY_CATEGORY ++ KV_SEP ++ category record);;
  print (KEY_AMOUNT ++ KV_SEP ++ float_repr (amount record));;
  print (KEY_DESCRIPTION ++ KV_SEP ++ description record);;
  print DASHES.

Fixpoint print_records (rs : list FinanceRecord) : io unit :=
  match rs with
  | [] => mret tt
  | record :: rest => print_record record;; print_records rest
  end.

(** [if rs: for record in rs: ... else: print(otherwise)] *)
Definition print_all (rs : list FinanceRecord) (otherwise : str) : io unit :=
  match rs with
  | [] => print otherwise
  | _ => print_records rs
  end.

(** The text of a total in an f-string: [sum] of no amount at all is the
    integer 0, shown without a decimal point. *)
Definition total_text (xs : list float) : str :=
  match xs with
  | [] => u "0"
  | _ => float_repr (py_sum xs)
  end.

(** The text of the balance: an integer only as the difference of two. *)
Definition balance_text (incomes expenses : list float) : str :=
  match incomes, expenses with
  | [], [] => u "0"
  | _, _ => float_repr (PrimFloat.sub (py_sum incomes) (py_sum expenses))
  end.

(** How an iteration of [while True] ends. *)
Inductive flow :=
  | Continue
  | Break.

(** [while True: body], for at most [fuel] iterations; [None] when they do
    not suffice. *)
Fixpoint while_true (fuel : nat) (body : io flow) (t : terminal)
  : option ((raised + unit) * terminal) :=
  match fuel with
  | O => None
  | S fuel' =>
      match body t with
      | (inl e, t') => Some (inl e, t')
      | (inr Break, t') => Some (inr tt, t')
      | (inr Continue, t') => while_true fuel' body t'
      end
  end.

Module FinanceCLI.

Definition view_all_records : io unit :=
  m ← the_manager;
  print_all (records m) MSG_NO_RECORDS.

Definition add_record : io unit :=
  date ← input ASK_DATE;
  category ← input ASK_CATEGORY;
  amount ← (text ← input ASK_AMOUNT; lift (float_ text));
  description ← input ASK_DESCRIPTION;
  let new_record :=
    {| date := date; category := category; amount := amount;
       description := description |} in
  call (add_record new_record);;
  print MSG_ADDED.

Definition edit_record : io unit :=
  view_all_records;;
  index ← (text ← input ASK_EDIT_NUMBER; n ← lift (int_ text); mret (n - 1)%Z);
  date ← input ASK_NEW_DATE;
  category ← input ASK_NEW_CATEGORY;
  amount ← (text ← input ASK_NEW_AMOUNT; lift (float_ text));
  description ← input ASK_NEW_DESCRIPTION;
  let new_record :=
    {| date := date; category := category; amount := amount;
       description := description |} in
  call (edit_record index new_record);;
  print MSG_UPDATED.

Definition delete_record : io unit :=
  view_all_records;;
  try (index ← (text ← input ASK_DELETE_NUMBER; n ← lift (int_ text); mret (n - 1)%Z);
       call (delete_record index);;
       print MSG_DELETED)
      (fun e =>
         match e with
         | IndexError => Some (print MSG_NO_SUCH_NUMBER)
         | ValueError _ => Some (print MSG_BAD_NUMBER)
         | KeyError _ => None
         end).

Definition search_records : io unit :=
  category ← input ASK_FIND_CATEGORY;
  date ← input ASK_FIND_DATE;
  amount_input ← input ASK_FIND_AMOUNT;
  amount ← match amount_input return io (option float) with
           | [] => mret None
           | _ => x ← lift (float_ amount_input); mret (Some x)
           end;
  m ← the_manager;
  let results := search_records (if_given category) (if_given date) amount m in
  print_all results MSG_NOT_FOUND.

(** [calculate_finances] returns Python numbers, floats or the integer 0 of
    an empty [sum]; the texts that the f-strings make of them are taken from
    the amounts that it sums. *)
Definition display_finances : io unit :=
  m ← the_manager;
  let incomes := amounts_of INCOME (records m) in
  let expenses := amounts_of EXPENSE (records m) in
  print (TOTAL_INCOME ++ total_text incomes);;
  print (TOTAL_EXPENSE ++ total_text expenses);;
  print (BALANCE ++ balance_text incomes expenses).

(** The body of the loop of [run]. *)
Definition iteration : io flow :=
  line ← input MENU;
  let choice := strip line in
  if bool_decide (choice = u "1") then add_record;; mret Continue
  else if bool_decide (choice = u "2") then edit_record;; mret Continue
  else if bool_decide (choice = u "3") then delete_record;; mret Continue
  else if bool_decide (choice = u "4") then search_records;; mret Continue
  else if bool_decide (choice = u "5") then view_all_records;; mret Continue
  else if bool_decide (choice = u "6") then display_finances;; mret Continue
  else if bool_decide (choice = u "7") then print MSG_EXIT;; mret Break
  else print MSG_BAD_CHOICE;; mret Continue.

(** [run()] on a terminal whose input is finite: every iteration reads a
    line at least, so one iteration more than there are lines suffices. *)
Definition run (t : terminal) : option ((raised + unit) * terminal) :=
  while_true (S (length (stdin t))) iteration t.

End FinanceCLI.

Local Close Scope N_scope.
(** * Vocabulary of the properties *)

(** What the claim calls matching all provided filters: an absent filter
    matches everything, a present one asks for equality. *)
Definition Fits (category' date' : option str) (amount' : option float)
    (record : FinanceRecord) : Prop :=
  (forall c, category' = Some c -> category record = c)
  /\ (forall d, date' = Some d -> date record = d)
  /\ (forall a, amount' = Some a -> PrimFloat.eqb (amount record) a = true).

(** The position is one of [0, length). *)
Definition in_range (index : Z) (w : world) : Prop :=
  (0 <= index < Z.of_nat (length (records (self w))))%Z.

(** A text made of whitespace only. *)
Definition blank (w : str) : Prop := Forall (fun c => isspace c = true) w.

(** A field value the file format can carry: not empty, no whitespace at
    its end, no line break, and no ['---'] at its end (which, followed by
    the line break, would read as the block delimiter). *)
Definition clean (s : str) : Prop :=
  s <> [] /\ rstrip s = s /\ (LF ∉ s) /\ ~ (DASHES `suffix_of` s).

(** A record the file format can carry: three clean text fields and an
    amount that [float] reads back from its own formatting. *)
Definition clean_record (r : FinanceRecord) : Prop :=
  clean (date r) /\ clean (category r) /\ clean (description r)
  /\ float_of_str (float_repr (amount r)) = Some (amount r).

(** The example of the specification, with its English category names. *)
Definition example_english : list FinanceRecord :=
  [ {| date := []; category := u "Income"; amount := 100; description := [] |};
    {| date := []; category := u "Expense"; amount := 40; description := [] |};
    {| date := []; category := u "Other"; amount := 999; description := [] |} ].

(** The same example with the category names the code reserves. *)
Definition example_reserved : list FinanceRecord :=
  [ {| date := []; category := INCOME; amount := 100; description := [] |};
    {| date := []; category := EXPENSE; amount := 40; description := [] |};
    {| date := []; category := u "Other"; amount := 999; description := [] |} ].

(** Three records that the file format can carry. *)
Definition example_reserved_dated : list FinanceRecord :=
  [ {| date := u "2024-01-01"; category := INCOME; amount := 100;
       description := u "salary" |};
    {| date := u "2024-01-02"; category := EXPENSE; amount := 40;
       description := u "food and drink" |};
    {| date := u "2024-01-03"; category := u "Other"; amount := 999.5;
       description := u "gift: books" |} ].

(** A clean record that also survives the newline translation of text
    files: no carriage return in its text fields. *)
Definition portable_record (r : FinanceRecord) : Prop :=
  clean_record r /\ (CR ∉ date r) /\ (CR ∉ category r) /\ (CR ∉ description r).

(** A manager without records on a file system without files. *)
Definition fresh_world (path : str) : world :=
  {| self := {| filepath := path; records := [] |}; fs := ∅; stdout := [] |}.

(** A file with one well-formed block and one block without amount. *)
Definition example_file : str :=
  u "Дата: 2024-01-01" ++ NEWLINE ++ u "Категория: Доход" ++ NEWLINE
  ++ u "Сумма: 100.0" ++ NEWLINE ++ u "Описание: salary" ++ NEWLINE ++ ENTRY_SEP
  ++ u "Дата: 2024-01-02" ++ NEWLINE ++ u "Категория: Расход" ++ NEWLINE
  ++ u "Описание: no amount" ++ NEWLINE ++ ENTRY_SEP.

(** The keys a block must have. *)
Definition required_keys : list str :=
  [KEY_DATE; KEY_CATEGORY; KEY_AMOUNT; KEY_DESCRIPTION].

(** A block with the given description line. *)
Definition example_block (description_line : str) : str :=
  u "Дата: 2024-01-01" ++ NEWLINE ++ u "Категория: Расход" ++ NEWLINE
  ++ u "Сумма: 12.5" ++ NEWLINE ++ description_line ++ NEWLINE ++ ENTRY_SEP.

(** Two well-formed blocks with a block of whitespace between them. *)
Definition example_blank_block : str :=
  example_block (u "Описание: lunch") ++ u " " ++ NEWLINE ++ ENTRY_SEP
  ++ example_block (u "Описание: dinner").

(** A record that is valid for the data model and has no description. *)
Definition no_description : FinanceRecord :=
  {| date := u "2024-01-01"; category := EXPENSE; amount := 40; description := [] |}.

(** A manager holding the given records, its file saved. *)
Definition example_world (rs : list FinanceRecord) : world :=
  {| self := {| filepath := u "wallet.txt"; records := rs |};
     fs := {[ u "wallet.txt" := serialize rs ]};
     stdout := [] |}.

(** ** Vocabulary of the proofs *)

(** A text made of blocks: empty, or ending with the block delimiter. *)
Definition terminated (t : str) : Prop := t = [] \/ ENTRY_SEP `suffix_of` t.

(** What one block adds to the records and to the diagnostics. *)
Definition entry_result (entry : str) : list FinanceRecord * list diagnostic :=
  match parse_entry ([], []) entry with
  | inr st => st
  | inl _ => ([], [])
  end.

(** A visible ASCII character: no whitespace, no line break. *)
Definition visible (c : char) : bool := ((33 <=? c) && (c <=? 126))%N.

(** Visible characters only, the last one not a dash. *)
Definition tidy (s : str) : Prop :=
  Forall (fun c => visible c = true) s /\ exists t c, s = t ++ [c] /\ c <> 45%N.

(** One line of a block. *)
Definition field_line (key value : str) : str := key ++ KV_SEP ++ value.

(** The four lines of a record, each with its line break. *)
Definition content (r : FinanceRecord) : str :=
  field_line KEY_DATE (date r) ++ LF ::
  field_line KEY_CATEGORY (category r) ++ LF ::
  field_line KEY_AMOUNT (float_repr (amount r)) ++ LF ::
  field_line KEY_DESCRIPTION (description r) ++ [LF].

(** A key of the format: it starts a line, and the first [': '] of the line
    comes right after it. *)
Definition label (k : str) : Prop :=
  (forall v, cut KV_SEP (k ++ KV_SEP ++ v) = Some (k, v))
  /\ (exists c k', k = c :: k' /\ isspace c = false /\ c <> 45%N)
  /\ LF ∉ k.

(** A record whose text fields hold no line break and do not end in
    ['---'] has no block delimiter inside its four lines. *)
Definition unbroken (s : str) : Prop := (LF ∉ s) /\ ~ (DASHES `suffix_of` s).

(** The four lines without the last line break. *)
Definition body (r : FinanceRecord) : str :=
  field_line KEY_DATE (date r) ++ LF ::
  field_line KEY_CATEGORY (category r) ++ LF ::
  field_line KEY_AMOUNT (float_repr (amount r)) ++ LF ::
  field_line KEY_DESCRIPTION (description r).

(** The line comes from the lines [ls], whole or with a final ['---'] cut. *)
Definition from_lines (ls : list (list N)) (line : list N) : Prop :=
  line ∈ ls \/ (line ++ DASHES) ∈ ls.

(** Parsing the line leaves the value of [key] in the data as it is. *)
Definition keeps (key line : list N) : Prop :=
  forall st, fst (parse_line st line) !! key = fst st !! key.

(** The records and the diagnostics of the blocks of a text. *)
Definition block_records (t : list N) : list FinanceRecord :=
  flat_map (fun e => fst (entry_result e)) (split ENTRY_SEP t).

Definition block_diags (t : list N) : list diagnostic :=
  flat_map (fun e => snd (entry_result e)) (split ENTRY_SEP t).

(** A diagnostic that says a block was given up. *)
Definition gives_up (d : diagnostic) : Prop :=
  (exists key, d = MissingKey key) \/ (exists text data, d = BadValue text data).

(** A record with an empty text field and no line break in the others. *)
Definition hollow (r : FinanceRecord) : Prop :=
  (date r = [] \/ category r = [] \/ description r = [])
  /\ (LF ∉ date r) /\ (LF ∉ category r) /\ (LF ∉ description r).

(** A record without date whose description carries a line break and a
    date line of its own. *)
Definition smuggled_date : FinanceRecord :=
  {| date := []; category := EXPENSE; amount := 40;
     description := u "tea" ++ NEWLINE ++ u "Дата: 2024-01-01" |}.


(** ** Vocabulary of the sessions *)

(** A call of one of the three methods that change the records. *)
Inductive request :=
  | Add (record : FinanceRecord)
  | Edit (index : Z) (record : FinanceRecord)
  | Delete (index : Z).

Definition perform (q : request) (w : world) : result unit * world :=
  match q with
  | Add record => add_record record w
  | Edit index record => edit_record index record w
  | Delete index => delete_record index w
  end.

(** The calls one after the other, by a caller that goes on after an
    exception, as the loop of the interface does after [IndexError]. *)
Definition session (qs : list request) (w : world) : world :=
  fold_left (fun w q => snd (perform q w)) qs w.

(** The file of the manager holds what save writes for its records. *)
Definition synced (w : world) : Prop :=
  fs w !! filepath (self w) = Some (serialize (records (self w))).

(** A text field as the parser can give it: not empty, no whitespace at its
    end, on one line. *)
Definition readable (s : list N) : Prop := s <> [] /\ rstrip s = s /\ (LF ∉ s).

(** The lines of a block written by hand, from its keys and values. *)
Definition lines_of (kvs : list (list N * list N)) : list N :=
  flat_map (fun kv => field_line (fst kv) (snd kv) ++ [LF]) kvs.

(** A world with a manager of two records and a file of somebody else. *)
Definition busy_world : world :=
  {| self := {| filepath := u "wallet.txt"; records := List.firstn 2 example_reserved_dated |};
     fs := {[ u "notes.txt" := u "keep" ]};
     stdout := [] |}.

(** A text of ASCII characters. *)
Definition ascii_text (s : list N) : Prop := Forall (fun c => (c < 128)%N) s.

(** What a terminal may become in a session: the file path, the diagnostics
    and the files of others stay, the file of the manager is untouched or
    holds its records, input is only consumed and output only added. *)
Definition follows (t t' : terminal) : Prop :=
  filepath (self (manager t')) = filepath (self (manager t))
  /\ stdout (manager t') = stdout (manager t)
  /\ (forall path, path <> filepath (self (manager t)) ->
        fs (manager t') !! path = fs (manager t) !! path)
  /\ (manager t' = manager t \/ synced (manager t'))
  /\ stdin t' `suffix_of` stdin t
  /\ shown t `prefix_of` shown t'.

(** The exceptions that leave the loop: of a conversion, or the end of the
    input. *)
Definition escapes (e : raised) : Prop :=
  e = EOFError \/ exists text, e = Exn (ValueError text).

(** An action that keeps to [follows] and raises within [ok] only. *)
Definition tame {A : Type} (ok : raised -> Prop) (m : io A) : Prop :=
  forall t, follows t (snd (m t))
            /\ match fst (m t) with inl e => ok e | inr _ => True end.

(** A terminal on a world, with lines to be typed and a clear screen. *)
Definition terminal_on (w : world) (typed : list (list N)) : terminal :=
  {| manager := w; stdin := typed; shown := [] |}.

(** The dict of a block written by hand: a later line overwrites. *)
Definition dict_of (kvs : list (list N * list N)) : gmap (list N) (list N) :=
  fold_left (fun data kv => <[fst kv := snd kv]> data) kvs ∅.

(** What a block adds, from the dict of its lines. *)
Definition record_of (data : gmap (list N) (list N))
  : list FinanceRecord * list diagnostic :=
  match make_record data with
  | inr record => ([record], [])
  | inl (KeyError key) => ([], [MissingKey key])
  | inl (ValueError text) => ([], [BadValue text data])
  | inl IndexError => ([], [])
  end.

(** A line of a block written by hand: a key of the format and a clean
    value. *)
Definition plain (kv : list N * list N) : Prop := label (fst kv) /\ clean (snd kv).

(** A block written by hand: the lines in another order, the amount without
    decimal point, a line with a key of its own. *)
Definition example_by_hand : list (list N * list N) :=
  [ (KEY_AMOUNT, u "100"); (u "Note", u "paid: twice"); (KEY_DESCRIPTION, u "salary");
    (KEY_DATE, u "2024-01-01"); (KEY_CATEGORY, INCOME) ].

(** The five lines shown for a record. *)
Definition record_lines (r : FinanceRecord) : list (list N) :=
  [ field_line KEY_DATE (date r); field_line KEY_CATEGORY (category r);
    field_line KEY_AMOUNT (float_repr (amount r));
    field_line KEY_DESCRIPTION (description r); DASHES ].

(** What is shown for a list of records, or instead of an empty one. *)
Definition listing (rs : list FinanceRecord) (otherwise : list N) : list output :=
  match rs with
  | [] => [Printed otherwise]
  | _ => map Printed (flat_map record_lines rs)
  end.

(** The exceptions inside the [try] of delete. *)
Definition escapes_or_index (e : raised) : Prop := escapes e \/ e = Exn IndexError.

(** The choices of the menu. *)
Definition choices : list (list N) :=
  [u "1"; u "2"; u "3"; u "4"; u "5"; u "6"; u "7"].

(** An action that leaves the manager, its records and the files alone. *)
Definition reads_only {A : Type} (m : io A) : Prop :=
  forall t, manager (snd (m t)) = manager t.

(** A terminal on the saved example, with lines to be typed. *)
Definition example_terminal (typed : list (list N)) : terminal :=
  terminal_on (example_world example_reserved_dated) typed.

(** The record made of four typed lines. *)
Definition typed_record (date category : list N) (amount : float) (description : list N)
  : FinanceRecord :=
  {| date := date; category := category; amount := amount; description := description |}.

(** * Text: strip, cut and split *)

(** A closed decidable statement, settled by evaluating its decision. *)
Ltac by_evaluation :=
  match goal with
  | |- ?P => apply (bool_decide_eq_true_1 P); vm_compute; reflexivity
  end.

Section Strip.

Implicit Types (s w : str) (c : char).

Lemma lstrip_blank_app w s : blank w -> lstrip (w ++ s) = lstrip s.
Proof.
  induction 1 as [|c w Hc _ IH]; simpl; [done|]. by rewrite Hc.
Qed.

Lemma lstrip_blank w : blank w -> lstrip w = [].
Proof. intros H. rewrite <- (app_nil_r w). by rewrite lstrip_blank_app. Qed.

Lemma lstrip_cons c s : isspace c = false -> lstrip (c :: s) = c :: s.
Proof. intros H. simpl. by rewrite H. Qed.

Lemma lstrip_head c s s' : lstrip s = c :: s' -> isspace c = false.
Proof.
  induction s as [|a s IH]; simpl; [done|].
  destruct (isspace a) eqn:Ha; [done|]. by intros [= <- _].
Qed.

(** [lstrip] removes a blank prefix and nothing else. *)
Lemma lstrip_split s : exists w, blank w /\ s = w ++ lstrip s.
Proof.
  induction s as [|a s (w & Hw & IH)]; simpl.
  - exists []. split; [constructor|done].
  - destruct (isspace a) eqn:Ha.
    + exists (a :: w). split; [by constructor|]. simpl. by rewrite <- IH.
    + exists []. split; [constructor|done].
Qed.

Lemma lstrip_app_nonblank s t : lstrip s <> [] -> lstrip (s ++ t) = lstrip s ++ t.
Proof.
  induction s as [|a s IH]; simpl; [done|].
  destruct (isspace a); [done|]. done.
Qed.

Lemma blank_rev w : blank w -> blank (reverse w).
Proof. unfold blank. by rewrite Forall_reverse. Qed.

Lemma blank_app w1 w2 : blank w1 -> blank w2 -> blank (w1 ++ w2).
Proof. apply Forall_app_2. Qed.

Lemma rstrip_blank_app s w : blank w -> rstrip (s ++ w) = rstrip s.
Proof.
  intros H. unfold rstrip. rewrite reverse_app.
  by rewrite lstrip_blank_app by by apply blank_rev.
Qed.

Lemma rstrip_snoc s c : isspace c = false -> rstrip (s ++ [c]) = s ++ [c].
Proof.
  intros H. unfold rstrip. rewrite reverse_app, reverse_singleton. simpl. rewrite H.
  by rewrite reverse_cons, reverse_involutive.
Qed.

Lemma rstrip_split s : exists w, blank w /\ s = rstrip s ++ w.
Proof.
  destruct (lstrip_split (reverse s)) as (w & Hw & E).
  exists (reverse w). split; [by apply blank_rev|].
  unfold rstrip. rewrite <- reverse_app, <- E. by rewrite reverse_involutive.
Qed.

Lemma rstrip_last s t c : rstrip s = t ++ [c] -> isspace c = false.
Proof.
  unfold rstrip. intros E. apply (f_equal reverse) in E.
  rewrite reverse_involutive, reverse_app, reverse_singleton in E. simpl in E.
  by apply lstrip_head in E.
Qed.

Lemma rstrip_app_nonblank s t : rstrip t <> [] -> rstrip (s ++ t) = s ++ rstrip t.
Proof.
  unfold rstrip. intros H. rewrite reverse_app.
  rewrite lstrip_app_nonblank.
  - by rewrite reverse_app, reverse_involutive.
  - intros E. apply H. by rewrite E.
Qed.

Lemma rstrip_nil_blank s : rstrip s = [] -> blank s.
Proof.
  intros E. destruct (rstrip_split s) as (w & Hw & Es).
  rewrite E in Es. simpl in Es. by subst.
Qed.

(** A text that starts and ends with something else than whitespace is its
    own [strip]. *)
Lemma strip_edges c s c' :
  isspace c = false -> isspace c' = false -> strip (c :: s ++ [c']) = c :: s ++ [c'].
Proof.
  intros H H'. unfold strip. rewrite lstrip_cons by done.
  by rewrite app_comm_cons, rstrip_snoc.
Qed.

Lemma strip_nil : strip [] = [].
Proof. done. Qed.

(** Whitespace around a text does not change its [strip]. *)
Lemma strip_blank_around w1 s w2 :
  blank w1 -> blank w2 -> strip (w1 ++ s ++ w2) = strip s.
Proof.
  intros H1 H2. unfold strip. rewrite lstrip_blank_app by done.
  destruct (lstrip s) as [|c t] eqn:E.
  - destruct (lstrip_split s) as (w & Hw & Es). rewrite E, app_nil_r in Es. subst s.
    rewrite lstrip_blank by by apply blank_app. done.
  - rewrite lstrip_app_nonblank by by rewrite E.
    rewrite E. by apply rstrip_blank_app.
Qed.

Lemma strip_split s : exists w1 w2, blank w1 /\ blank w2 /\ s = w1 ++ strip s ++ w2.
Proof.
  destruct (lstrip_split s) as (w1 & H1 & E1).
  destruct (rstrip_split (lstrip s)) as (w2 & H2 & E2).
  exists w1, w2. split; [done|]. split; [done|].
  unfold strip. by rewrite <- E2.
Qed.

Lemma strip_idemp s : strip (strip s) = strip s.
Proof.
  destruct (strip_split s) as (w1 & w2 & H1 & H2 & E).
  rewrite E at 2. by rewrite strip_blank_around.
Qed.

(** The text kept by [strip] is empty or has no whitespace at its ends. *)
Lemma strip_first s c t : strip s = c :: t -> isspace c = false.
Proof.
  unfold strip. intros E.
  destruct (rstrip_split (lstrip s)) as (w & Hw & Es).
  rewrite E in Es. simpl in Es. by apply lstrip_head in Es.
Qed.

Lemma strip_last s t c : strip s = t ++ [c] -> isspace c = false.
Proof. unfold strip. apply rstrip_last. Qed.

Lemma clean_edges s :
  s <> [] -> rstrip s = s ->
  exists t c, s = t ++ [c] /\ isspace c = false.
Proof.
  intros Hne E. destruct (exists_last Hne) as (t & c & ->).
  exists t, c. split; [done|]. by apply rstrip_last in E.
Qed.

(** A key, the separator and a value without whitespace at its end make a
    line that [strip] keeps. *)
Lemma strip_labelled c k v :
  isspace c = false -> v <> [] -> rstrip v = v ->
  strip (c :: k ++ v) = c :: k ++ v.
Proof.
  intros Hc Hne E. destruct (clean_edges v Hne E) as (t & c' & -> & Hc').
  rewrite app_assoc. by apply strip_edges.
Qed.

End Strip.

Section Cut.

Implicit Types (s t sep b a : str) (c : char).

Lemma strip_prefix_Some p s r : strip_prefix p s = Some r -> s = p ++ r.
Proof.
  revert s. induction p as [|x p IH]; intros [|y s]; simpl; try done.
  - by intros [= <-].
  - by intros [= <-].
  - destruct (N.eqb_spec x y) as [->|]; [|done].
    intros H. by rewrite (IH _ H).
Qed.

Lemma strip_prefix_app p r : strip_prefix p (p ++ r) = Some r.
Proof.
  induction p as [|x p IH]; simpl; [done|]. by rewrite N.eqb_refl.
Qed.

Lemma strip_prefix_None_app p s t :
  strip_prefix p s = None -> length p <= length s -> strip_prefix p (s ++ t) = None.
Proof.
  revert s. induction p as [|x p IH]; intros [|y s]; simpl; try done; try lia.
  destruct (x =? y)%N; [|done]. intros H Hl. apply IH; [done|lia].
Qed.

Lemma cut_Some sep s b a : cut sep s = Some (b, a) -> s = b ++ sep ++ a.
Proof.
  revert b. induction s as [|c s IH]; intros b; simpl.
  - destruct (strip_prefix sep []) eqn:E; [|done].
    intros [= <- <-]. by apply strip_prefix_Some in E.
  - destruct (strip_prefix sep (c :: s)) eqn:E.
    + intros [= <- <-]. by apply strip_prefix_Some in E.
    + destruct (cut sep s) as [[b' a']|]; [|done].
      intros [= <- <-]. by rewrite (IH b' eq_refl).
Qed.

Lemma cut_unfold sep s :
  cut sep s =
  match strip_prefix sep s with
  | Some rest => Some ([], rest)
  | None =>
      match s with
      | [] => None
      | c :: s' =>
          match cut sep s' with
          | Some (before, after) => Some (c :: before, after)
          | None => None
          end
      end
  end.
Proof. by destruct s. Qed.

Lemma cut_here sep r : cut sep (sep ++ r) = Some ([], r).
Proof. rewrite cut_unfold. by rewrite strip_prefix_app. Qed.

Lemma cut_length sep s b a :
  sep <> [] -> cut sep s = Some (b, a) -> length a < length s.
Proof.
  intros Hne H. apply cut_Some in H. subst s.
  rewrite !length_app. destruct sep; [done|]. simpl. lia.
Qed.

(** Text added after the first occurrence does not move it. *)
Lemma cut_app sep s t b a :
  cut sep s = Some (b, a) -> cut sep (s ++ t) = Some (b, a ++ t).
Proof.
  revert b. induction s as [|c s IH]; intros b.
  - rewrite cut_unfold. destruct (strip_prefix sep []) eqn:E; [|done].
    intros [= <- <-]. apply strip_prefix_Some in E.
    destruct sep; [|done]. simpl in E. subst. by destruct t.
  - rewrite cut_unfold. destruct (strip_prefix sep (c :: s)) eqn:E.
    + intros [= <- <-]. apply strip_prefix_Some in E. rewrite E.
      rewrite <- app_assoc. apply cut_here.
    + destruct (cut sep s) as [[b' a']|] eqn:Ec; [|done].
      intros [= <- <-]. specialize (IH b' eq_refl).
      rewrite <- app_comm_cons, cut_unfold, IH.
      destruct (strip_prefix sep (c :: s ++ t)) eqn:E'; [|done].
      exfalso. apply cut_Some in Ec.
      rewrite app_comm_cons in E'.
      rewrite strip_prefix_None_app in E'; [done|done|].
      rewrite Ec. simpl. rewrite !length_app. lia.
Qed.

(** A text that contains [sep] is cut. *)
Lemma cut_occurs sep x y : is_Some (cut sep (x ++ sep ++ y)).
Proof.
  induction x as [|c x IH]; simpl app.
  - rewrite cut_here. by eexists.
  - rewrite cut_unfold. destruct (strip_prefix sep (c :: x ++ sep ++ y)); [by eexists|].
    destruct IH as [[b a] ->]. by eexists.
Qed.

Lemma split_max_fuel n m sep s :
  sep <> [] -> length s <= n -> length s <= m -> split_max n sep s = split_max m sep s.
Proof.
  intros Hne. revert m s. induction n as [|n IH]; intros m s Hn Hm.
  - destruct s; [|simpl in Hn; lia]. destruct m; [done|]. cbn [split_max].
    destruct (cut sep []) as [[b a]|] eqn:E; [|done].
    apply cut_Some in E. destruct b, sep; done.
  - destruct m as [|m].
    + destruct s; [|simpl in Hm; lia]. cbn [split_max].
      destruct (cut sep []) as [[b a]|] eqn:E; [|done].
      apply cut_Some in E. destruct b, sep; done.
    + cbn [split_max].
      destruct (cut sep s) as [[b a]|] eqn:E; [|done].
      pose proof (cut_length _ _ _ _ Hne E) as Hl.
      f_equal. apply IH; lia.
Qed.

(** More splits allowed than the text has code points change nothing. *)
Lemma split_max_enough n sep s :
  sep <> [] -> length s <= n -> split_max n sep s = split sep s.
Proof. intros Hne Hn. unfold split. by apply split_max_fuel. Qed.

Lemma split_cut sep s b a :
  sep <> [] -> cut sep s = Some (b, a) -> split sep s = b :: split sep a.
Proof.
  intros Hne E. unfold split at 1.
  pose proof (cut_length _ _ _ _ Hne E) as Hl.
  destruct (length s) as [|n] eqn:En; [lia|].
  cbn [split_max]. rewrite E. f_equal. apply split_max_enough; [done|lia].
Qed.

Lemma split_uncut sep s : cut sep s = None -> split sep s = [s].
Proof.
  intros E. unfold split. destruct (length s); [done|]. cbn [split_max]. by rewrite E.
Qed.

Lemma split_nonempty sep s : split sep s <> [].
Proof.
  unfold split. destruct (length s); [done|]. cbn [split_max].
  by destruct (cut sep s) as [[??]|].
Qed.

End Cut.

Section Separators.

Implicit Types (s t l rest b a : str) (c : char).

Lemma NEWLINE_nonempty : NEWLINE <> [].
Proof. done. Qed.

Lemma ENTRY_SEP_nonempty : ENTRY_SEP <> [].
Proof. done. Qed.

Lemma KV_SEP_nonempty : KV_SEP <> [].
Proof. done. Qed.

(** *** Lines *)

Lemma cut_newline_cons c s :
  cut NEWLINE (c :: s) =
  if (c =? LF)%N then Some ([], s)
  else match cut NEWLINE s with
       | Some (b, a) => Some (c :: b, a)
       | None => None
       end.
Proof.
  rewrite cut_unfold. unfold NEWLINE, LF. cbn [strip_prefix].
  rewrite (N.eqb_sym 10 c). by destruct (c =? 10)%N.
Qed.

Lemma cut_newline_nil : cut NEWLINE [] = None.
Proof. done. Qed.

Lemma not_elem_of_cons_LF c l : LF ∉ c :: l -> (c =? LF)%N = false /\ LF ∉ l.
Proof.
  intros H. split.
  - apply N.eqb_neq. intros ->. apply H. constructor.
  - intros H'. apply H. by constructor.
Qed.

Lemma cut_newline_line l rest : LF ∉ l -> cut NEWLINE (l ++ LF :: rest) = Some (l, rest).
Proof.
  induction l as [|c l IH]; intros H; simpl app.
  - by rewrite cut_newline_cons, N.eqb_refl.
  - apply not_elem_of_cons_LF in H as [Hc Hl].
    by rewrite cut_newline_cons, Hc, IH.
Qed.

Lemma cut_newline_none l : LF ∉ l -> cut NEWLINE l = None.
Proof.
  induction l as [|c l IH]; intros H; [done|].
  apply not_elem_of_cons_LF in H as [Hc Hl].
  by rewrite cut_newline_cons, Hc, IH.
Qed.

Lemma split_newline_line l rest :
  LF ∉ l -> split NEWLINE (l ++ LF :: rest) = l :: split NEWLINE rest.
Proof. intros H. apply split_cut; [done|]. by apply cut_newline_line. Qed.

Lemma split_newline_last l : LF ∉ l -> split NEWLINE l = [l].
Proof. intros H. apply split_uncut. by apply cut_newline_none. Qed.

(** *** Blocks *)

(** A line that does not end in ['---'] holds no block delimiter, whatever
    follows its line break. *)
Lemma cut_entry_sep_line l rest :
  LF ∉ l -> ~ DASHES `suffix_of` l ->
  cut ENTRY_SEP (l ++ LF :: rest) =
  match cut ENTRY_SEP rest with
  | Some (b, a) => Some (l ++ LF :: b, a)
  | None => None
  end.
Proof.
  induction l as [|c l IH]; intros HLF Hd; simpl app.
  - rewrite cut_unfold. simpl strip_prefix. cbv iota. done.
  - rewrite cut_unfold.
    destruct (strip_prefix ENTRY_SEP (c :: l ++ LF :: rest)) as [r|] eqn:E.
    + exfalso. apply strip_prefix_Some in E.
      destruct l as [|x [|y [|z l]]]; simplify_eq/=.
      * apply Hd. by exists [].
      * apply HLF. repeat constructor.
    + apply not_elem_of_cons_LF in HLF as [_ HLF].
      rewrite IH; [|done|].
      * by destruct (cut ENTRY_SEP rest) as [[b a]|].
      * intros H. apply Hd. by apply suffix_cons_r.
Qed.

(** The delimiter cannot overlap itself: what follows its first occurrence
    in a terminated text is terminated. *)
Lemma terminated_after b a x :
  b ++ ENTRY_SEP ++ a = x ++ ENTRY_SEP -> terminated a.
Proof.
  intros E.
  assert (ENTRY_SEP `suffix_of` (b ++ ENTRY_SEP ++ a)) as H1 by (by exists x).
  assert (a `suffix_of` (b ++ ENTRY_SEP ++ a)) as H2.
  { exists (b ++ ENTRY_SEP). by rewrite <- app_assoc. }
  destruct (suffix_weak_total _ _ _ H1 H2) as [H|[k Hk]]; [by right|].
  apply (f_equal reverse) in E. rewrite !reverse_app in E.
  unfold ENTRY_SEP in Hk, E.
  destruct k as [|k1 [|k2 [|k3 [|k4 [|k5 k]]]]]; simplify_eq/=.
  - by right.
  - by left.
Qed.

(** The blocks of a terminated text are the same whatever follows it. *)
Lemma split_terminated t1 :
  terminated t1 ->
  exists es, split ENTRY_SEP t1 = es ++ [[]]
             /\ forall t2, split ENTRY_SEP (t1 ++ t2) = es ++ split ENTRY_SEP t2.
Proof.
  intros H. remember (length t1) as n eqn:En. revert t1 En H.
  induction n as [n IH] using lt_wf_ind. intros t1 -> [->|[x ->]].
  - by exists [].
  - destruct (cut_occurs ENTRY_SEP x []) as [[b a] Hc].
    rewrite app_nil_r in Hc.
    pose proof (cut_Some _ _ _ _ Hc) as E.
    pose proof (cut_length _ _ _ _ ENTRY_SEP_nonempty Hc) as Hl.
    destruct (IH (length a) Hl a eq_refl) as (es & Hes & Happ).
    { symmetry in E. by apply terminated_after in E. }
    exists (b :: es). split.
    + rewrite (split_cut _ _ _ _ ENTRY_SEP_nonempty Hc). by rewrite Hes.
    + intros t2. rewrite (split_cut _ _ b (a ++ t2) ENTRY_SEP_nonempty).
      * by rewrite Happ.
      * by apply cut_app.
Qed.

End Separators.

Section Parse.

Implicit Types (s line entry : str) (data : gmap (list N) (list N))
  (out : list diagnostic) (rs : list FinanceRecord).

(** *** Lines of a block *)

(** The diagnostics go to the end of what is already printed. *)
Lemma parse_line_out data out line :
  parse_line (data, out) line
  = (fst (parse_line (data, []) line), out ++ snd (parse_line (data, []) line)).
Proof.
  unfold parse_line.
  destruct (bool_decide (strip line = DASHES) || bool_decide (strip line = [])).
  - simpl. by rewrite app_nil_r.
  - destruct (split_max 1 KV_SEP (strip line)) as [|k [|v [|]]]; simpl;
      by rewrite ?app_nil_r.
Qed.

Lemma parse_lines_out lines data out :
  fold_left parse_line lines (data, out)
  = (fst (fold_left parse_line lines (data, [])),
     out ++ snd (fold_left parse_line lines (data, []))).
Proof.
  revert data out. induction lines as [|l lines IH]; intros data out; simpl.
  - by rewrite app_nil_r.
  - rewrite parse_line_out.
    destruct (parse_line (data, []) l) as [d1 o1] eqn:E1. simpl.
    rewrite IH. rewrite (IH d1 o1). simpl. by rewrite app_assoc.
Qed.

(** A line made of a key, the separator and a value that ends with something
    else than whitespace sets the key to the value. *)
Lemma parse_line_field key value data out :
  (forall v, cut KV_SEP (key ++ KV_SEP ++ v) = Some (key, v)) ->
  (exists c k, key = c :: k /\ isspace c = false /\ c <> 45%N) ->
  (exists t c, value = t ++ [c] /\ isspace c = false) ->
  parse_line (data, out) (key ++ KV_SEP ++ value) = (<[key := value]> data, out).
Proof.
  intros Hcut (c & k & -> & Hc & Hd) (t & c' & Hv & Hc'). unfold parse_line.
  assert (strip ((c :: k) ++ KV_SEP ++ value) = (c :: k) ++ KV_SEP ++ value) as ->.
  { rewrite Hv, <- app_comm_cons, !app_assoc. by apply strip_edges. }
  rewrite bool_decide_eq_false_2; [|unfold DASHES; simpl; congruence].
  rewrite bool_decide_eq_false_2 by done.
  cbn [orb split_max]. by rewrite Hcut.
Qed.

Lemma parse_line_dashes st : parse_line st DASHES = st.
Proof. done. Qed.

Lemma parse_line_empty st : parse_line st [] = st.
Proof. done. Qed.

(** *** The record of a block *)

(** The constructor call raises [KeyError] or [ValueError], nothing else. *)
Lemma make_record_exn data e :
  make_record data = inl e ->
  (exists key, e = KeyError key /\ data !! key = None
               /\ key ∈ [KEY_DATE; KEY_CATEGORY; KEY_AMOUNT; KEY_DESCRIPTION])
  \/ (exists text, e = ValueError text /\ data !! KEY_AMOUNT = Some text
                   /\ float_of_str text = None).
Proof.
  unfold make_record, getitem, float_.
  destruct (data !! KEY_DATE) as [d|] eqn:Ed; simpl.
  2:{ intros [= <-]. left. eexists. split; [done|]. split; [done|]. set_solver. }
  destruct (data !! KEY_CATEGORY) as [c|] eqn:Ec; simpl.
  2:{ intros [= <-]. left. eexists. split; [done|]. split; [done|]. set_solver. }
  destruct (data !! KEY_AMOUNT) as [a|] eqn:Ea; simpl.
  2:{ intros [= <-]. left. eexists. split; [done|]. split; [done|]. set_solver. }
  destruct (float_of_str a) as [x|] eqn:Ex; simpl.
  2:{ intros [= <-]. right. by eexists. }
  destruct (data !! KEY_DESCRIPTION) as [t|] eqn:Et; simpl; [done|].
  intros [= <-]. left. eexists. split; [done|]. split; [done|]. set_solver.
Qed.

Lemma make_record_Some data r :
  make_record data = inr r <->
  data !! KEY_DATE = Some (date r)
  /\ data !! KEY_CATEGORY = Some (category r)
  /\ (exists text, data !! KEY_AMOUNT = Some text /\ float_of_str text = Some (amount r))
  /\ data !! KEY_DESCRIPTION = Some (description r).
Proof.
  unfold make_record, getitem, float_. split.
  - destruct (data !! KEY_DATE) as [d|]; simpl; [|done].
    destruct (data !! KEY_CATEGORY) as [c|]; simpl; [|done].
    destruct (data !! KEY_AMOUNT) as [a|]; simpl; [|done].
    destruct (float_of_str a) as [x|] eqn:Ex; simpl; [|done].
    destruct (data !! KEY_DESCRIPTION) as [t|]; simpl; [|done].
    intros [= <-]. simpl. eauto 10.
  - intros (-> & -> & (text & -> & Ex) & ->). simpl. rewrite Ex. simpl.
    by destruct r.
Qed.

Lemma parse_entry_eq st entry :
  parse_entry st entry
  = inr (fst st ++ fst (entry_result entry), snd st ++ snd (entry_result entry)).
Proof.
  unfold entry_result, parse_entry.
  destruct (bool_decide (strip entry = [])).
  { simpl. by rewrite !app_nil_r; destruct st. }
  cbn [snd fst]. rewrite (parse_lines_out _ ∅ (snd st)).
  destruct (fold_left parse_line (split NEWLINE (strip entry)) (∅, []))
    as [data out] eqn:E.
  cbn [fst snd].
  destruct (make_record data) as [e|r] eqn:Er.
  - destruct (make_record_exn _ _ Er) as [(k & -> & _)|(t & -> & _)];
      cbn [fst snd app]; by rewrite app_nil_r, app_assoc.
  - done.
Qed.

Lemma parse_entries_eq entries st :
  parse_entries entries st
  = inr (fst st ++ flat_map (fun e => fst (entry_result e)) entries,
         snd st ++ flat_map (fun e => snd (entry_result e)) entries).
Proof.
  revert st. induction entries as [|e es IH]; intros st; simpl.
  - by rewrite !app_nil_r; destruct st.
  - rewrite parse_entry_eq. simpl. rewrite IH. simpl. by rewrite !app_assoc.
Qed.

Lemma parse_entries_app es1 es2 st :
  parse_entries (es1 ++ es2) st = st' ← parse_entries es1 st; parse_entries es2 st'.
Proof.
  revert st. induction es1 as [|e es IH]; intros st; simpl; [done|].
  destruct (parse_entry st e) as [x|st']; simpl; [done|]. apply IH.
Qed.

Lemma entry_result_empty : entry_result [] = ([], []).
Proof. done. Qed.

End Parse.

(** * The text of a float *)

Section Repr.

Implicit Types (s t : str) (c : char) (n d : Z).

Lemma visible_not_space c : visible c = true -> isspace c = false.
Proof.
  unfold visible, isspace. intros H.
  apply andb_true_iff in H as [H1 H2].
  apply N.leb_le in H1, H2.
  repeat (apply orb_false_iff; split);
    try (apply andb_false_iff);
    rewrite ?N.leb_gt, ?N.eqb_neq; lia.
Qed.

Lemma is_digit_visible c : is_digit c = true -> visible c = true /\ c <> 45%N.
Proof.
  unfold is_digit, visible. intros H.
  apply andb_true_iff in H as [H1 H2]. apply N.leb_le in H1, H2.
  split; [|lia]. apply andb_true_iff. split; apply N.leb_le; lia.
Qed.

Lemma tidy_app_r s t : Forall (fun c => visible c = true) s -> tidy t -> tidy (s ++ t).
Proof.
  intros Hs [Ht (t' & c & -> & Hc)]. split.
  - by apply Forall_app_2.
  - exists (s ++ t'), c. by rewrite app_assoc.
Qed.

Lemma tidy_cons c t : visible c = true -> tidy t -> tidy (c :: t).
Proof. intros Hc Ht. apply (tidy_app_r [c]); [by constructor|done]. Qed.

(** A non-empty text of visible characters other than the dash is tidy. *)
Lemma solid_tidy s :
  s <> [] -> Forall (fun c => visible c = true /\ c <> 45%N) s -> tidy s.
Proof.
  intros Hne H. split.
  - eapply Forall_impl; [done|]. by intros c [??].
  - destruct (exists_last Hne) as (t & c & ->). exists t, c. split; [done|].
    apply Forall_app in H as [_ H]. by inversion H as [|?? [??]].
Qed.

Lemma digit_char_solid d : (d <= 9)%Z -> is_digit (digit_char d) = true.
Proof.
  intros H. unfold is_digit, digit_char.
  apply andb_true_iff. rewrite !N.leb_le. lia.
Qed.

Lemma digits_fuel_bound fuel n acc :
  Forall (fun d => d <= 9)%Z acc -> Forall (fun d => d <= 9)%Z (digits_fuel fuel n acc).
Proof.
  revert n acc. induction fuel as [|fuel IH]; intros n acc Hacc; simpl; [done|].
  destruct (Z.ltb_spec n 10).
  - constructor; [lia|done].
  - apply IH. constructor; [|done].
    pose proof (Z.mod_pos_bound n 10). lia.
Qed.

Lemma digits_fuel_nonempty fuel n acc :
  acc <> [] \/ fuel <> 0 -> digits_fuel fuel n acc <> [].
Proof.
  revert n acc. induction fuel as [|fuel IH]; intros n acc H; simpl.
  - by destruct H.
  - destruct (n <? 10)%Z; [done|]. apply IH. by left.
Qed.

Lemma digits_solid n :
  map digit_char (digits n) <> []
  /\ Forall (fun c => visible c = true /\ c <> 45%N) (map digit_char (digits n)).
Proof.
  unfold digits. split.
  - intros E. apply map_eq_nil in E. revert E. apply digits_fuel_nonempty. by right.
  - apply Forall_map. eapply Forall_impl; [apply digits_fuel_bound; constructor|].
    intros d Hd. simpl. by apply is_digit_visible, digit_char_solid.
Qed.

Lemma digits_tidy n : tidy (map digit_char (digits n)).
Proof. destruct (digits_solid n). by apply solid_tidy. Qed.

Lemma digits_visible n : Forall (fun c => visible c = true) (map digit_char (digits n)).
Proof. apply (digits_tidy n). Qed.

Lemma zeros_solid n : Forall (fun c => visible c = true /\ c <> 45%N) (zeros n).
Proof.
  unfold zeros. apply Forall_forall. intros c Hc.
  apply list_elem_of_In in Hc. by apply repeat_spec in Hc as ->.
Qed.

Lemma zeros_visible n : Forall (fun c => visible c = true) (zeros n).
Proof. eapply Forall_impl; [apply zeros_solid|]. by intros c [??]. Qed.

Lemma exp_text_tidy n : tidy (exp_text n).
Proof.
  unfold exp_text. apply tidy_cons; [by destruct (n <? 0)%Z|].
  destruct (Z.abs n <? 10)%Z; [apply tidy_cons; [done|]|]; apply digits_tidy.
Qed.

Lemma format_short_tidy n decpt : tidy (format_short (digits n) decpt).
Proof.
  unfold format_short.
  destruct (digits_solid n) as [Hne Hsolid].
  pose proof (digits_tidy n) as Ht. pose proof (digits_visible n) as Hv.
  destruct ((-4 <? decpt)%Z && (decpt <=? 16)%Z).
  - destruct (decpt <=? 0)%Z; [|destruct (_ <=? decpt)%Z].
    + apply tidy_app_r; [by repeat constructor|].
      apply tidy_app_r; [apply zeros_visible|done].
    + apply tidy_app_r; [done|].
      apply tidy_app_r; [apply zeros_visible|]. apply solid_tidy; [done|].
      by repeat constructor.
    + apply tidy_app_r; [by apply Forall_take|].
      apply solid_tidy; [done|]. apply Forall_app_2; [by repeat constructor|].
      by apply Forall_drop.
  - destruct (map digit_char (digits n)) as [|c [|c' cs]] eqn:E; [done| |].
    + inversion Hv; subst. apply tidy_cons; [done|]. apply tidy_cons; [done|].
      apply exp_text_tidy.
    + inversion Hv as [|?? Hc Hv']; subst. apply tidy_cons; [done|].
      apply tidy_cons; [done|]. apply tidy_app_r; [done|].
      apply tidy_cons; [done|]. apply exp_text_tidy.
Qed.

Lemma tidy_check s :
  forallb visible s && match last s with Some c => negb (c =? 45)%N | None => false end = true ->
  tidy s.
Proof.
  intros H. apply andb_true_iff in H as [Hv Hl]. split.
  - apply Forall_forall. intros c Hc. rewrite forallb_forall in Hv.
    by apply Hv, list_elem_of_In.
  - destruct s as [|c0 s] using rev_ind; [done|].
    rewrite last_snoc in Hl. exists s, c0. split; [done|].
    by apply negb_true_iff, N.eqb_neq in Hl.
Qed.

(** The text of a float is never empty, has visible characters only and
    does not end with a dash. *)
Lemma float_repr_tidy x : tidy (float_repr x).
Proof.
  unfold float_repr. destruct (Prim2SF x) as [s|s| |s m e].
  - by destruct s; apply tidy_check.
  - by destruct s; apply tidy_check.
  - by apply tidy_check.
  - destruct (shortest _ _ _ _ _ _) as [c0 k0].
    destruct (drop_zeros _ _ _) as [c k].
    apply tidy_app_r; [by destruct s; repeat constructor|].
    apply format_short_tidy.
Qed.

Lemma strip_single c : isspace c = false -> strip [c] = [c].
Proof. intros H. unfold strip. rewrite lstrip_cons by done. by apply (rstrip_snoc []). Qed.

Lemma tidy_nonempty s : tidy s -> s <> [].
Proof. intros [_ (t & c & -> & _)]. by destruct t. Qed.

Lemma tidy_rstrip s : tidy s -> rstrip s = s.
Proof.
  intros [Hv (t & c & -> & _)].
  apply Forall_app in Hv as [_ Hc]. apply Forall_inv in Hc.
  by apply rstrip_snoc, visible_not_space.
Qed.

Lemma tidy_no_space s c : tidy s -> isspace c = true -> c ∉ s.
Proof.
  intros [Hv _] Hc Hin. rewrite Forall_forall in Hv.
  apply Hv, visible_not_space in Hin. congruence.
Qed.

Lemma not_suffix_dashes t c : c <> 45%N -> ~ DASHES `suffix_of` (t ++ [c]).
Proof.
  intros Hc [k E]. change DASHES with ([45; 45]%N ++ [45%N]) in E.
  rewrite app_assoc in E. by apply app_inj_tail in E as [_ ->].
Qed.

Lemma tidy_clean s : tidy s -> clean s.
Proof.
  intros H. split; [by apply tidy_nonempty|]. split; [by apply tidy_rstrip|].
  split; [by apply tidy_no_space|].
  destruct H as [_ (t & c & -> & Hc)]. by apply not_suffix_dashes.
Qed.

Lemma float_repr_clean x : clean (float_repr x).
Proof. apply tidy_clean, float_repr_tidy. Qed.

End Repr.

(** * The text of the file *)

Section Blocks.

Implicit Types (s t v rest : str) (r : FinanceRecord) (rs : list FinanceRecord).

Lemma write_record_eq file r : write_record file r = file ++ content r ++ ENTRY_SEP.
Proof.
  unfold write_record, content, field_line, NEWLINE, LF.
  repeat (rewrite <- ?app_assoc; cbn [app]). done.
Qed.

Lemma serialize_from rs file : fold_left write_record rs file = file ++ serialize rs.
Proof.
  unfold serialize. revert file.
  induction rs as [|r rs IH]; intros file; cbn [fold_left].
  - by rewrite app_nil_r.
  - rewrite IH, (IH (write_record [] r)), !write_record_eq. cbn [app].
    by rewrite <- !app_assoc.
Qed.

Lemma serialize_cons r rs : serialize (r :: rs) = content r ++ ENTRY_SEP ++ serialize rs.
Proof.
  unfold serialize at 1. cbn [fold_left].
  rewrite serialize_from, write_record_eq. cbn [app]. by rewrite <- app_assoc.
Qed.

Lemma serialize_app rs1 rs2 : serialize (rs1 ++ rs2) = serialize rs1 ++ serialize rs2.
Proof.
  induction rs1 as [|r rs1 IH]; [done|].
  rewrite <- app_comm_cons, !serialize_cons, IH. by rewrite <- !app_assoc.
Qed.

Lemma serialize_terminated rs : terminated (serialize rs).
Proof.
  destruct rs as [|r rs] using rev_ind; [by left|]. right.
  rewrite serialize_app, serialize_cons. exists (serialize rs ++ content r).
  unfold serialize at 2. cbn [fold_left]. by rewrite app_nil_r, <- app_assoc.
Qed.

Lemma label_date : label KEY_DATE.
Proof.
  split; [done|]. split; [by eexists _, _|].
  by_evaluation.
Qed.

Lemma label_category : label KEY_CATEGORY.
Proof.
  split; [done|]. split; [by eexists _, _|].
  by_evaluation.
Qed.

Lemma label_amount : label KEY_AMOUNT.
Proof.
  split; [done|]. split; [by eexists _, _|].
  by_evaluation.
Qed.

Lemma label_description : label KEY_DESCRIPTION.
Proof.
  split; [done|]. split; [by eexists _, _|].
  by_evaluation.
Qed.

Lemma field_line_no_LF k v : label k -> LF ∉ v -> LF ∉ field_line k v.
Proof.
  intros (_ & _ & Hk) Hv. unfold field_line.
  rewrite !not_elem_of_app. split; [done|]. split; [|done].
  by_evaluation.
Qed.

(** The separator ends with a space, so a line ends in ['---'] only when its
    value does. *)
Lemma field_line_no_dashes k v :
  ~ DASHES `suffix_of` v -> ~ DASHES `suffix_of` field_line k v.
Proof.
  intros Hv H. unfold field_line in H.
  assert (v `suffix_of` k ++ KV_SEP ++ v) as H2.
  { exists (k ++ KV_SEP). by rewrite <- app_assoc. }
  destruct (suffix_weak_total _ _ _ H H2) as [|[p Hp]]; [done|].
  destruct H as [x E]. apply (f_equal reverse) in E.
  rewrite !reverse_app in E. unfold DASHES, KV_SEP in Hp, E.
  destruct p as [|p1 [|p2 [|p3 [|p4 p]]]]; simplify_eq/=.
  apply Hv. by exists [].
Qed.

Lemma cut_field_line k v rest :
  label k -> unbroken v ->
  cut ENTRY_SEP (field_line k v ++ LF :: rest) =
  match cut ENTRY_SEP rest with
  | Some (b, a) => Some (field_line k v ++ LF :: b, a)
  | None => None
  end.
Proof.
  intros Hk [H1 H2]. apply cut_entry_sep_line.
  - by apply field_line_no_LF.
  - by apply field_line_no_dashes.
Qed.

Lemma clean_unbroken s : clean s -> unbroken s.
Proof. by intros (_ & _ & ? & ?). Qed.

Lemma cut_content r rest :
  unbroken (date r) -> unbroken (category r) -> unbroken (description r) ->
  cut ENTRY_SEP (content r ++ rest) =
  match cut ENTRY_SEP rest with
  | Some (b, a) => Some (content r ++ b, a)
  | None => None
  end.
Proof.
  intros Hd Hc Ht.
  pose proof (clean_unbroken _ (float_repr_clean (amount r))) as Ha.
  unfold content. repeat (rewrite <- app_assoc; cbn [app]).
  rewrite (cut_field_line _ _ _ label_date Hd).
  rewrite (cut_field_line _ _ _ label_category Hc).
  rewrite (cut_field_line _ _ _ label_amount Ha).
  rewrite (cut_field_line _ _ _ label_description Ht).
  destruct (cut ENTRY_SEP rest) as [[b a]|]; [|done].
  do 2 f_equal. by repeat (rewrite <- app_assoc; cbn [app]).
Qed.

Lemma content_body r : content r = body r ++ [LF].
Proof. unfold content, body. by repeat (rewrite <- app_assoc; cbn [app]). Qed.

Lemma body_ends r :
  exists pre, body r = 1044%N :: pre ++ description r
              /\ content r ++ DASHES = 1044%N :: (pre ++ description r ++ [10; 45; 45]%N) ++ [45%N].
Proof.
  exists ([1072; 1090; 1072]%N ++ KV_SEP ++ date r ++ LF ::
          field_line KEY_CATEGORY (category r) ++ LF ::
          field_line KEY_AMOUNT (float_repr (amount r)) ++ LF ::
          KEY_DESCRIPTION ++ KV_SEP).
  unfold content, body, field_line, KEY_DATE, DASHES, LF.
  split; by repeat (rewrite <- app_assoc; cbn [app]).
Qed.

Lemma strip_body r :
  description r <> [] -> rstrip (description r) = description r ->
  strip (body r) = body r.
Proof.
  intros Hne Hs. destruct (body_ends r) as (pre & -> & _).
  by apply strip_labelled.
Qed.

Lemma strip_content r :
  description r <> [] -> rstrip (description r) = description r ->
  strip (content r) = body r.
Proof.
  intros Hne Hs. rewrite content_body.
  rewrite <- (app_nil_l (body r ++ [LF])).
  rewrite strip_blank_around; [by apply strip_body|constructor|by repeat constructor].
Qed.

Lemma strip_content_dashes r : strip (content r ++ DASHES) = content r ++ DASHES.
Proof.
  destruct (body_ends r) as (pre & _ & ->). by apply strip_edges.
Qed.

Lemma split_body r tail :
  LF ∉ date r -> LF ∉ category r -> LF ∉ description r ->
  split NEWLINE (body r ++ tail)
  = [field_line KEY_DATE (date r); field_line KEY_CATEGORY (category r);
     field_line KEY_AMOUNT (float_repr (amount r))]
    ++ match split NEWLINE (field_line KEY_DESCRIPTION (description r) ++ tail) with
       | l :: ls => l :: ls
       | [] => []
       end.
Proof.
  intros Hd Hc Ht.
  destruct (clean_unbroken _ (float_repr_clean (amount r))) as [Ha _].
  unfold body. repeat (rewrite <- app_assoc; cbn [app]).
  rewrite split_newline_line by (apply field_line_no_LF; [apply label_date|done]).
  rewrite split_newline_line by (apply field_line_no_LF; [apply label_category|done]).
  rewrite split_newline_line by (apply field_line_no_LF; [apply label_amount|done]).
  by destruct (split NEWLINE _).
Qed.

Lemma parse_line_label key value data out :
  label key -> value <> [] -> rstrip value = value ->
  parse_line (data, out) (field_line key value) = (<[key := value]> data, out).
Proof. intros (H1 & H2 & _) Hne Hs. apply parse_line_field; auto using clean_edges. Qed.

(** Whitespace between the separator and the value belongs to the value. *)
Lemma parse_line_label_kept key w value data out :
  label key -> value <> [] -> rstrip value = value ->
  parse_line (data, out) (field_line key (w ++ value))
  = (<[key := w ++ value]> data, out).
Proof.
  intros (H1 & H2 & _) Hne Hs. apply parse_line_field; [done|done|].
  destruct (clean_edges value Hne Hs) as (t & c & -> & Hc).
  exists (w ++ t), c. by rewrite app_assoc.
Qed.

Lemma label_required key : key ∈ required_keys -> label key.
Proof.
  unfold required_keys. intros H.
  repeat (apply elem_of_cons in H as [->|H];
          [auto using label_date, label_category, label_amount, label_description|]).
  by apply elem_of_nil in H.
Qed.

(** The data of the four lines of a clean record make the record again. *)
Lemma make_record_fields r :
  float_of_str (float_repr (amount r)) = Some (amount r) ->
  make_record (<[KEY_DESCRIPTION := description r]>
                 (<[KEY_AMOUNT := float_repr (amount r)]>
                    (<[KEY_CATEGORY := category r]>
                       (<[KEY_DATE := date r]> ∅))))
  = inr r.
Proof.
  intros Ha. apply make_record_Some.
  split; [|split; [|split]].
  - rewrite !lookup_insert_ne by by_evaluation. apply lookup_insert_eq.
  - rewrite !lookup_insert_ne by by_evaluation. apply lookup_insert_eq.
  - exists (float_repr (amount r)). split; [|done].
    rewrite !lookup_insert_ne by by_evaluation. apply lookup_insert_eq.
  - apply lookup_insert_eq.
Qed.

(** A block written for a clean record gives that record back and prints
    nothing, with or without the dashes left at the end of the file. *)
Lemma entry_result_clean r tail :
  clean_record r -> tail = [] \/ tail = DASHES ->
  entry_result (content r ++ tail) = ([r], []).
Proof.
  intros (Hd & Hc & Ht & Ha) Htail.
  destruct Hd as (Hd1 & Hd2 & Hd3 & _), Hc as (Hc1 & Hc2 & Hc3 & _),
    Ht as (Ht1 & Ht2 & Ht3 & _).
  destruct (float_repr_clean (amount r)) as (Ha1 & Ha2 & Ha3 & _).
  assert (LF ∉ field_line KEY_DESCRIPTION (description r)) as HL
    by (apply field_line_no_LF; [apply label_description|done]).
  unfold entry_result, parse_entry.
  assert (exists lines,
    strip (content r ++ tail) = body r ++ lines
    /\ split NEWLINE (field_line KEY_DESCRIPTION (description r) ++ lines)
       = field_line KEY_DESCRIPTION (description r) :: match lines with [] => [] | _ => [DASHES] end)
    as (lines & -> & Hsplit).
  { destruct Htail as [->| ->].
    - exists []. rewrite !app_nil_r. split; [by apply strip_content|].
      by apply split_newline_last.
    - exists (LF :: DASHES). split.
      + rewrite strip_content_dashes, content_body. by rewrite <- app_assoc.
      + rewrite split_newline_line by done. f_equal. }
  rewrite bool_decide_eq_false_2.
  2:{ destruct (body_ends r) as (pre & -> & _). done. }
  rewrite split_body, Hsplit by done.
  cbn [app fold_left snd].
  rewrite (parse_line_label _ _ _ _ label_date) by done.
  rewrite (parse_line_label _ _ _ _ label_category) by done.
  rewrite (parse_line_label _ _ _ _ label_amount) by done.
  rewrite (parse_line_label _ _ _ _ label_description) by done.
  assert (forall st, fold_left parse_line
            match lines with [] => [] | _ => [DASHES] end st = st) as ->.
  { intros st. by destruct lines. }
  by rewrite make_record_fields.
Qed.

End Blocks.

(** ** Queries: search_records and calculate_finances *)

Lemma matches_Fits c d a r : matches c d a r = true <-> Fits c d a r.
Proof.
  unfold matches, Fits.
  rewrite !andb_true_iff.
  destruct c as [c|], d as [d|], a as [a|];
    rewrite ?bool_decide_eq_true; split;
    try (intros [[Hc Hd] Ha]; repeat split; intros ? [= <-]; done);
    intros (Hc & Hd & Ha); repeat split; auto.
Qed.

Lemma search_loop (p : FinanceRecord -> bool) (rs acc : list FinanceRecord) :
  fold_left (fun result record => if p record then result ++ [record] else result) rs acc
  = acc ++ List.filter p rs.
Proof.
  revert acc. induction rs as [|r rs IH]; intros acc; simpl.
  - by rewrite app_nil_r.
  - rewrite IH. destruct (p r); simpl; [|done].
    by rewrite <- app_assoc.
Qed.

Lemma filter_all {A} (p : A -> bool) (l : list A) :
  (forall x, p x = true) -> List.filter p l = l.
Proof.
  intros Hp. induction l as [|x l IH]; simpl; [done|].
  by rewrite Hp, IH.
Qed.

(** C4: search returns, in the original order, exactly the records that fit
    every filter given; without filters it returns all records; the result
    is an ordinary list (possibly empty), never an error. *)
Theorem search_records_filter (c d : option str) (a : option float) (m : FinanceManager) :
  search_records c d a m = List.filter (matches c d a) (records m)
  /\ (forall r, matches c d a r = true <-> Fits c d a r)
  /\ search_records None None None m = records m
  /\ sublist (search_records c d a m) (records m).
Proof.
  unfold search_records. rewrite !search_loop. simpl.
  split; [done|]. split; [apply matches_Fits|]. split.
  - by apply filter_all.
  - induction (records m) as [|r rs IH]; simpl; [done|].
    destruct (matches c d a r); by constructor.
Qed.

Lemma amounts_of_app label l1 l2 :
  amounts_of label (l1 ++ l2) = amounts_of label l1 ++ amounts_of label l2.
Proof. unfold amounts_of. by rewrite List.filter_app, List.map_app. Qed.

Lemma amounts_of_other label r rs :
  category r <> label -> amounts_of label (r :: rs) = amounts_of label rs.
Proof. intros H. unfold amounts_of. simpl. by rewrite bool_decide_eq_false_2. Qed.

(** C1, as stated, fails: the categories ["Income"] and ["Expense"] are not
    the reserved ones, so on the example of the specification the three
    results are 0, although the amounts filed under ["Income"] sum to 100 and
    those under ["Expense"] to 40. *)
Lemma calculate_finances_english_names :
  calculate_finances {| filepath := []; records := example_english |}
    = (0, 0, 0)%float
  /\ py_sum (amounts_of (u "Income") example_english) = 100%float
  /\ py_sum (amounts_of (u "Expense") example_english) = 40%float
  /\ PrimFloat.eqb 0 100 = false /\ PrimFloat.eqb 0 40 = false.
Proof. vm_compute. done. Qed.

Lemma py_sum_snoc xs x : py_sum (xs ++ [x]) = PrimFloat.add (py_sum xs) x.
Proof. unfold py_sum. by rewrite fold_left_app. Qed.

Lemma amounts_of_one label r :
  amounts_of label [r] = if bool_decide (category r = label) then [amount r] else [].
Proof. unfold amounts_of. cbn [List.filter]. by destruct (bool_decide _). Qed.

(** C1 (amended): total_income is the sum of the amounts of exactly the
    records whose category is ['Доход'], total_expense the sum over exactly
    those whose category is ['Расход'], balance their difference.  The sums
    are taken in the order of the records: they are 0 for no record, a
    further record of income adds its amount to total_income and leaves
    total_expense, a further record of expense does the converse, and a
    record of any other category, wherever it stands, changes none of the
    three; on the example written with these two names the result is
    (60, 100, 40). *)
Theorem calculate_finances_reserved_names (m : FinanceManager) :
  fst (fst (calculate_finances m))
  = PrimFloat.sub (snd (fst (calculate_finances m))) (snd (calculate_finances m))
  /\ calculate_finances {| filepath := filepath m; records := [] |} = (0, 0, 0)%float
  /\ (forall r,
        let old := calculate_finances m in
        let new := calculate_finances
                     {| filepath := filepath m; records := records m ++ [r] |} in
        (category r = INCOME ->
         snd (fst new) = PrimFloat.add (snd (fst old)) (amount r) /\ snd new = snd old)
        /\ (category r = EXPENSE ->
            snd (fst new) = snd (fst old) /\ snd new = PrimFloat.add (snd old) (amount r))
        /\ (category r <> INCOME -> category r <> EXPENSE -> new = old))
  /\ INCOME = u "Доход" /\ EXPENSE = u "Расход"
  /\ (forall path before r after,
        category r <> INCOME -> category r <> EXPENSE ->
        calculate_finances {| filepath := path; records := before ++ r :: after |}
        = calculate_finances {| filepath := path; records := before ++ after |})
  /\ calculate_finances {| filepath := []; records := example_reserved |}
     = (60, 100, 40)%float
  /\ calculate_finances {| filepath := []; records := example_reserved ++ example_reserved |}
     = (120, 200, 80)%float.
Proof.
  split; [done|]. split; [by vm_compute|]. split.
  { intros r. cbv zeta. unfold calculate_finances. cbn [fst snd records].
    rewrite !amounts_of_app, !amounts_of_one. split; [|split].
    - intros Hr. rewrite Hr, (bool_decide_eq_true_2 (INCOME = INCOME)) by done.
      rewrite (bool_decide_eq_false_2 (INCOME = EXPENSE)) by by_evaluation.
      by rewrite py_sum_snoc, app_nil_r.
    - intros Hr. rewrite Hr, (bool_decide_eq_true_2 (EXPENSE = EXPENSE)) by done.
      rewrite (bool_decide_eq_false_2 (EXPENSE = INCOME)) by by_evaluation.
      by rewrite py_sum_snoc, app_nil_r.
    - intros Hi He. by rewrite !bool_decide_eq_false_2, !app_nil_r. }
  split; [done|]. split; [done|]. split; [|split; by vm_compute].
  intros path before r after Hi He.
  unfold calculate_finances; simpl.
  by rewrite !amounts_of_app, !amounts_of_other.
Qed.

Lemma calculate_finances_reserved_names_witness :
  calculate_finances
    {| filepath := []; records := [] ++ List.nth 2 example_reserved no_description
                                       :: example_reserved |}
  = calculate_finances {| filepath := []; records := [] ++ example_reserved |}.
Proof.
  destruct (calculate_finances_reserved_names {| filepath := []; records := [] |})
    as (_ & _ & _ & _ & _ & H & _).
  apply (H [] [] (List.nth 2 example_reserved no_description) example_reserved);
    by_evaluation.
Defined.

(** ** Edit, delete and load *)

Lemma in_range_test index w :
  in_range index w ->
  ((0 <=? index)%Z && (index <? Z.of_nat (length (records (self w))))%Z) = true.
Proof. unfold in_range. intros [H1 H2]. apply andb_true_iff. split; lia. Qed.

Lemma out_of_range_test index w :
  ~ in_range index w ->
  ((0 <=? index)%Z && (index <? Z.of_nat (length (records (self w))))%Z) = false.
Proof. unfold in_range. intros H. apply andb_false_iff. lia. Qed.

(** C5: outside [0, length) delete raises IndexError and changes neither the
    records nor the file; inside it removes the record at that position and
    saves the remaining records to the file. *)
Theorem delete_record_bounds (index : Z) (w : world) :
  (~ in_range index w -> delete_record index w = (inl IndexError, w))
  /\ (in_range index w ->
      exists before r after,
        records (self w) = before ++ r :: after
        /\ length before = Z.to_nat index
        /\ delete_record index w
           = (inr tt,
              {| self := {| filepath := filepath (self w); records := before ++ after |};
                 fs := <[filepath (self w) := serialize (before ++ after)]> (fs w);
                 stdout := stdout w |})).
Proof.
  unfold delete_record. split; intros H.
  - by rewrite out_of_range_test.
  - rewrite in_range_test by done.
    destruct (lookup_lt_is_Some_2 (records (self w)) (Z.to_nat index)) as [r Hr].
    { unfold in_range in H. lia. }
    exists (take (Z.to_nat index) (records (self w))), r,
           (drop (S (Z.to_nat index)) (records (self w))).
    split; [by rewrite take_drop_middle|].
    split; [apply length_take_le; unfold in_range in H; lia|].
    unfold saved, save_records; simpl. by rewrite delete_take_drop.
Qed.

Lemma delete_record_bounds_witness :
  delete_record (-1) (example_world example_reserved)
  = (inl IndexError, example_world example_reserved)
  /\ delete_record 3 (example_world example_reserved)
     = (inl IndexError, example_world example_reserved)
  /\ exists before r after,
       records (self (example_world example_reserved)) = before ++ r :: after
       /\ length before = Z.to_nat 1
       /\ delete_record 1 (example_world example_reserved)
          = (inr tt,
             {| self := {| filepath := filepath (self (example_world example_reserved));
                           records := before ++ after |};
                fs := <[filepath (self (example_world example_reserved))
                        := serialize (before ++ after)]>
                        (fs (example_world example_reserved));
                stdout := stdout (example_world example_reserved) |}).
Proof.
  split; [|split].
  - apply (proj1 (delete_record_bounds (-1) (example_world example_reserved))).
    unfold in_range. simpl. lia.
  - apply (proj1 (delete_record_bounds 3 (example_world example_reserved))).
    unfold in_range. simpl. lia.
  - apply (proj2 (delete_record_bounds 1 (example_world example_reserved))).
    unfold in_range. simpl. lia.
Defined.

(** C6: outside [0, length) edit does nothing and raises nothing; inside it
    replaces the record at that position and saves the records to the file. *)
Theorem edit_record_bounds (index : Z) (new_record : FinanceRecord) (w : world) :
  (~ in_range index w -> edit_record index new_record w = (inr tt, w))
  /\ (in_range index w ->
      exists before r after,
        records (self w) = before ++ r :: after
        /\ length before = Z.to_nat index
        /\ edit_record index new_record w
           = (inr tt,
              {| self := {| filepath := filepath (self w);
                            records := before ++ new_record :: after |};
                 fs := <[filepath (self w) := serialize (before ++ new_record :: after)]> (fs w);
                 stdout := stdout w |})).
Proof.
  unfold edit_record. split; intros H.
  - by rewrite out_of_range_test.
  - rewrite in_range_test by done.
    destruct (lookup_lt_is_Some_2 (records (self w)) (Z.to_nat index)) as [r Hr].
    { unfold in_range in H. lia. }
    exists (take (Z.to_nat index) (records (self w))), r,
           (drop (S (Z.to_nat index)) (records (self w))).
    split; [by rewrite take_drop_middle|].
    split; [apply length_take_le; unfold in_range in H; lia|].
    unfold saved, save_records; simpl.
    rewrite insert_take_drop; [done|]. unfold in_range in H. lia.
Qed.

Lemma edit_record_bounds_witness :
  edit_record (-1) no_description (example_world example_reserved)
  = (inr tt, example_world example_reserved)
  /\ edit_record 3 no_description (example_world example_reserved)
     = (inr tt, example_world example_reserved)
  /\ exists before r after,
       records (self (example_world example_reserved)) = before ++ r :: after
       /\ length before = Z.to_nat 1
       /\ edit_record 1 no_description (example_world example_reserved)
          = (inr tt,
             {| self := {| filepath := filepath (self (example_world example_reserved));
                           records := before ++ no_description :: after |};
                fs := <[filepath (self (example_world example_reserved))
                        := serialize (before ++ no_description :: after)]>
                        (fs (example_world example_reserved));
                stdout := stdout (example_world example_reserved) |}).
Proof.
  split; [|split].
  - apply (proj1 (edit_record_bounds (-1) no_description
                    (example_world example_reserved))).
    unfold in_range. simpl. lia.
  - apply (proj1 (edit_record_bounds 3 no_description
                    (example_world example_reserved))).
    unfold in_range. simpl. lia.
  - apply (proj2 (edit_record_bounds 1 no_description
                    (example_world example_reserved))).
    unfold in_range. simpl. lia.
Defined.

(** C8: when no file exists at the path, load returns the empty list, prints
    nothing and raises nothing; so does the construction of a manager. *)
Theorem load_records_missing_file (path : str) (files : gmap (list N) (list N))
    (out : list diagnostic) :
  files !! path = None ->
  load_records path files = inr ([], [])
  /\ init path files out
     = inr {| self := {| filepath := path; records := [] |};
              fs := files; stdout := out |}.
Proof.
  intros H. unfold init, load_records. rewrite H. simpl.
  by rewrite app_nil_r.
Qed.

Lemma load_records_missing_file_witness :
  load_records (u "wallet.txt") ∅ = inr ([], [])
  /\ init (u "wallet.txt") ∅ []
     = inr {| self := {| filepath := u "wallet.txt"; records := [] |};
              fs := ∅; stdout := [] |}.
Proof. apply load_records_missing_file. by_evaluation. Defined.

(** * Saving and parsing again *)

Section RoundTrip.

Implicit Types (s t : str) (r : FinanceRecord) (rs : list FinanceRecord).

Lemma content_head r : exists m, content r = 1044%N :: m.
Proof. unfold content, field_line, KEY_DATE. cbn [app]. by eexists. Qed.

(** [strip] takes the last line break of the file away and nothing else. *)
Lemma strip_last_block t r :
  t = [] \/ (exists c t', t = c :: t' /\ isspace c = false) ->
  strip (t ++ content r ++ ENTRY_SEP) = t ++ content r ++ DASHES.
Proof.
  intros Ht.
  assert (t ++ content r ++ ENTRY_SEP = [] ++ (t ++ content r ++ DASHES) ++ [LF]) as ->.
  { cbn [app]. by rewrite <- !app_assoc. }
  rewrite strip_blank_around; [|constructor|by repeat constructor].
  destruct (body_ends r) as (pre & _ & E). rewrite E.
  destruct Ht as [->|(c & t' & -> & Hc)].
  - by apply strip_edges.
  - cbn [app]. rewrite (app_comm_cons _ _ 1044%N), app_assoc.
    by apply strip_edges.
Qed.

Lemma serialize_head rs :
  serialize rs = [] \/ exists c t', serialize rs = c :: t' /\ isspace c = false.
Proof.
  destruct rs as [|r rs]; [by left|]. right.
  rewrite serialize_cons. destruct (content_head r) as [m ->].
  by eexists _, _.
Qed.

Lemma strip_serialize_snoc rs r :
  strip (serialize (rs ++ [r])) = serialize rs ++ content r ++ DASHES.
Proof.
  rewrite serialize_app, serialize_cons. unfold serialize at 2. cbn [fold_left].
  rewrite app_nil_r. apply strip_last_block, serialize_head.
Qed.

Lemma cut_dashes : cut ENTRY_SEP DASHES = None.
Proof. done. Qed.

Lemma clean_record_unbroken r :
  clean_record r ->
  unbroken (date r) /\ unbroken (category r) /\ unbroken (description r).
Proof. intros (?&?&?&_). auto using clean_unbroken. Qed.

Lemma split_last_block r :
  unbroken (date r) -> unbroken (category r) -> unbroken (description r) ->
  split ENTRY_SEP (content r ++ DASHES) = [content r ++ DASHES].
Proof.
  intros Hd Hc Ht. apply split_uncut. by rewrite cut_content, cut_dashes.
Qed.

(** The blocks of a file of clean records are the four lines of each. *)
Lemma split_serialize_clean rs :
  Forall clean_record rs -> split ENTRY_SEP (serialize rs) = map content rs ++ [[]].
Proof.
  induction 1 as [|r rs Hr _ IH]; [done|].
  destruct (clean_record_unbroken r Hr) as (Hd & Hc & Ht).
  rewrite serialize_cons. cbn [map app].
  rewrite (split_cut _ _ (content r) (serialize rs) ENTRY_SEP_nonempty).
  - by rewrite IH.
  - rewrite cut_content, cut_here by done. by rewrite app_nil_r.
Qed.

Lemma entries_clean rs :
  Forall clean_record rs ->
  flat_map (fun e => fst (entry_result e)) (map content rs) = rs
  /\ flat_map (fun e => snd (entry_result e)) (map content rs) = [].
Proof.
  induction 1 as [|r rs Hr _ [IH1 IH2]]; [done|].
  pose proof (entry_result_clean r [] Hr (or_introl eq_refl)) as E.
  rewrite app_nil_r in E. cbn [map flat_map]. rewrite E, IH1, IH2. done.
Qed.

End RoundTrip.

(** C2: the round trip fails on a valid record: a record whose description
    is empty is written by save and parsed back as nothing.  The line
    ['Описание: '] is stripped to ['Описание:'] before it is split at
    [': '], so the parser reports it as unparsable and then reports the
    missing key; the amount of the record is read back from its text. *)
Lemma round_trip_loses_empty_description :
  parse_records (serialize [no_description])
  = inr ([], [Unparsable (u "Описание:"); MissingKey KEY_DESCRIPTION])
  /\ float_of_str (float_repr (amount no_description)) = Some (amount no_description).
Proof. split; by vm_compute. Qed.

(** X26: for records whose three text fields are clean (not empty, no
    whitespace at the end, no line break, no ['---'] at the end) and whose
    amount is read back by [float] from its own text, parsing what save
    writes gives the same records in the same order, and prints nothing. *)
Theorem parse_serialize_clean (rs : list FinanceRecord) :
  Forall clean_record rs -> parse_records (serialize rs) = inr (rs, []).
Proof.
  intros H. unfold parse_records. rewrite parse_entries_eq. cbn [fst snd app].
  destruct rs as [|r rs _] using rev_ind; [done|].
  apply Forall_app in H as [Hrs Hr]. apply Forall_inv in Hr.
  destruct (clean_record_unbroken r Hr) as (Hd & Hc & Ht).
  rewrite strip_serialize_snoc.
  destruct (split_terminated _ (serialize_terminated rs)) as (es & Hes & ->).
  rewrite split_serialize_clean in Hes by done.
  apply app_inj_tail in Hes as [<- _].
  rewrite split_last_block by done.
  rewrite !flat_map_app. cbn [flat_map].
  destruct (entries_clean rs Hrs) as [-> ->].
  by rewrite (entry_result_clean r DASHES Hr (or_intror eq_refl)), !app_nil_r.
Qed.

Lemma parse_serialize_clean_witness :
  parse_records (serialize example_reserved_dated) = inr (example_reserved_dated, []).
Proof.
  apply parse_serialize_clean.
  repeat constructor; try by_evaluation; by vm_compute.
Defined.

(** * Adding a record and loading the file again *)

Section Reload.

Implicit Types (s t : str) (c : char) (r : FinanceRecord).

Lemma universal_newlines_cons c s :
  c <> CR -> universal_newlines (c :: s) = c :: universal_newlines s.
Proof. intros H. cbn [universal_newlines]. by rewrite (proj2 (N.eqb_neq _ _) H). Qed.

(** The translation works on each part of a text when the second part does
    not start with a line feed. *)
Lemma universal_newlines_app s t :
  head t <> Some LF ->
  universal_newlines (s ++ t) = universal_newlines s ++ universal_newlines t.
Proof.
  intros Ht. induction s as [|c s IH]; [done|].
  cbn [app universal_newlines]. destruct (c =? CR)%N; [|by rewrite IH].
  destruct s as [|c' s]; cbn [app].
  - destruct t as [|c' t]; [done|].
    destruct (N.eqb_spec c' LF) as [->|]; done.
  - destruct (N.eqb_spec c' LF) as [->|Hc'].
    + rewrite <- app_comm_cons, !universal_newlines_cons in IH by done.
      by injection IH as ->.
    + rewrite <- app_comm_cons in IH. by rewrite IH.
Qed.

Lemma universal_newlines_id s : CR ∉ s -> universal_newlines s = s.
Proof.
  induction s as [|c s IH]; intros H; [done|].
  apply not_elem_of_cons in H as [Hc Hs].
  rewrite universal_newlines_cons by done. by rewrite IH.
Qed.

Lemma universal_newlines_terminated t :
  terminated t -> terminated (universal_newlines t).
Proof.
  intros [->|[x ->]]; [by left|]. right.
  rewrite universal_newlines_app by done.
  by exists (universal_newlines x).
Qed.

Lemma universal_newlines_head t :
  t = [] \/ (exists c t', t = c :: t' /\ isspace c = false) ->
  universal_newlines t = []
  \/ (exists c t', universal_newlines t = c :: t' /\ isspace c = false).
Proof.
  intros [->|(c & t' & -> & Hc)]; [by left|]. right.
  rewrite universal_newlines_cons by (intros ->; done). by eexists _, _.
Qed.

Lemma field_line_no_CR k v : CR ∉ k -> CR ∉ v -> CR ∉ field_line k v.
Proof.
  intros Hk Hv. unfold field_line. rewrite !not_elem_of_app.
  split; [done|]. split; [by_evaluation|done].
Qed.

Lemma block_no_CR r :
  CR ∉ date r -> CR ∉ category r -> CR ∉ description r ->
  CR ∉ content r ++ ENTRY_SEP.
Proof.
  intros Hd Hc Ht.
  assert (CR ∉ float_repr (amount r)) as Ha
    by (by apply tidy_no_space; [apply float_repr_tidy|]).
  assert (CR ∉ [LF]) as HLF by by_evaluation.
  unfold content.
  repeat (rewrite ?not_elem_of_app, ?not_elem_of_cons).
  repeat split; try done;
    try (apply field_line_no_CR; [by_evaluation|done]); by_evaluation.
Qed.

(** What a text file holding [serialize (rs ++ [r])] is read as. *)
Lemma read_serialize_snoc rs r :
  CR ∉ date r -> CR ∉ category r -> CR ∉ description r ->
  strip (universal_newlines (serialize (rs ++ [r])))
  = universal_newlines (serialize rs) ++ content r ++ DASHES.
Proof.
  intros Hd Hc Ht.
  rewrite serialize_app, serialize_cons. unfold serialize at 2. cbn [fold_left].
  rewrite app_nil_r, universal_newlines_app.
  2:{ destruct (content_head r) as [m ->]. done. }
  rewrite (universal_newlines_id (content r ++ ENTRY_SEP)) by by apply block_no_CR.
  apply strip_last_block, universal_newlines_head, serialize_head.
Qed.

End Reload.

(** C3: the reload after add fails on a valid record: after adding the
    record without description to an empty ledger, the record is in memory
    and in the file, but a manager constructed on the same file has no
    record at all, and its load reports the line ['Описание:'] and the
    missing key. *)
Lemma add_then_reload_loses_empty_description :
  let path := u "wallet.txt" in
  let w' := snd (add_record no_description (fresh_world path)) in
  records (self w') = [no_description]
  /\ fs w' !! path = Some (serialize [no_description])
  /\ init path (fs w') []
     = inr {| self := {| filepath := path; records := [] |};
              fs := fs w';
              stdout := [Unparsable (u "Описание:"); MissingKey KEY_DESCRIPTION] |}.
Proof. by vm_compute. Qed.

(** X27: add appends the record to the records in memory and saves them to
    the file, for every record and every world; when the record is clean
    and has no carriage return in its text fields, a manager constructed on
    the same path afterwards has this record as its last one, whatever the
    records before it and whatever they are parsed as. *)
Theorem add_record_reload (r : FinanceRecord) (w : world) (out : list diagnostic) :
  fst (add_record r w) = inr tt
  /\ records (self (snd (add_record r w))) = records (self w) ++ [r]
  /\ fs (snd (add_record r w)) !! filepath (self w)
     = Some (serialize (records (self w) ++ [r]))
  /\ (portable_record r ->
      exists older printed,
        init (filepath (self w)) (fs (snd (add_record r w))) out
        = inr {| self := {| filepath := filepath (self w); records := older ++ [r] |};
                 fs := fs (snd (add_record r w));
                 stdout := out ++ printed |}).
Proof.
  unfold add_record, saved, save_records. cbn [fst snd self fs records filepath].
  split; [done|]. split; [done|]. split; [apply lookup_insert_eq|].
  intros (Hr & Hd & Hc & Ht).
  unfold init, load_records. rewrite lookup_insert_eq.
  unfold parse_records. rewrite read_serialize_snoc by done.
  rewrite <- (read_serialize_snoc _ _ Hd Hc Ht), strip_idemp, read_serialize_snoc by done.
  destruct (split_terminated _
    (universal_newlines_terminated _ (serialize_terminated (records (self w)))))
    as (es & _ & ->).
  destruct (clean_record_unbroken r Hr) as (Hd' & Hc' & Ht').
  rewrite split_last_block by done.
  rewrite parse_entries_eq, !flat_map_app. cbn [flat_map fst snd app].
  rewrite (entry_result_clean r DASHES Hr (or_intror eq_refl)). cbn [fst snd].
  eexists _, _. cbn [mbind result_bind fst snd app]. reflexivity.
Qed.

Lemma add_record_reload_witness :
  fst (add_record (List.nth 0 example_reserved_dated no_description)
         (example_world example_reserved)) = inr tt
  /\ exists older printed,
       init (u "wallet.txt")
         (fs (snd (add_record (List.nth 0 example_reserved_dated no_description)
                     (example_world example_reserved)))) []
       = inr {| self := {| filepath := u "wallet.txt";
                           records := older ++ [List.nth 0 example_reserved_dated
                                                  no_description] |};
                fs := fs (snd (add_record (List.nth 0 example_reserved_dated no_description)
                                 (example_world example_reserved)));
                stdout := [] ++ printed |}.
Proof.
  assert (portable_record (List.nth 0 example_reserved_dated no_description)) as H.
  { repeat split; try by_evaluation; by vm_compute. }
  split.
  - apply (add_record_reload _ (example_world example_reserved) []).
  - by apply (add_record_reload _ (example_world example_reserved) []).
Defined.

(** * Tolerant parsing *)

Section Tolerant.

Implicit Types (s line entry : str) (data : gmap (list N) (list N))
  (out : list diagnostic) (st : list FinanceRecord * list diagnostic).

Lemma make_record_fails data :
  (exists key, key ∈ required_keys /\ data !! key = None)
  \/ (exists text, data !! KEY_AMOUNT = Some text /\ float_of_str text = None) ->
  exists e, make_record data = inl e.
Proof.
  intros H. destruct (make_record data) as [e|r] eqn:E; [by eexists|].
  apply make_record_Some in E as (Hd & Hc & (text & Ha & Hf) & Ht).
  exfalso. destruct H as [(key & Hin & Hk)|(text' & Ha' & Hf')].
  - unfold required_keys in Hin.
    repeat (apply elem_of_cons in Hin as [->|Hin]; [congruence|]).
    by apply elem_of_nil in Hin.
  - congruence.
Qed.

(** A block that cannot make a record adds one diagnostic and no record,
    and the loop goes on with the next block. *)
Lemma parse_entries_discard st entry rest :
  strip entry <> [] ->
  (exists e, make_record
               (fst (fold_left parse_line (split NEWLINE (strip entry)) (∅, snd st)))
             = inl e) ->
  exists d,
    gives_up d
    /\ parse_entries (entry :: rest) st
       = parse_entries rest
           (fst st,
            snd (fold_left parse_line (split NEWLINE (strip entry)) (∅, snd st)) ++ [d]).
Proof.
  intros Hne [e He]. cbn [parse_entries]. unfold parse_entry.
  rewrite bool_decide_eq_false_2 by done.
  destruct (fold_left parse_line _ _) as [data out]. cbn [fst snd] in *.
  rewrite He.
  destruct (make_record_exn _ _ He) as [(k & -> & _)|(t & -> & _)];
    eexists; (split; [|reflexivity]); unfold gives_up; eauto.
Qed.

Lemma parse_line_no_separator (ds : gmap (list N) (list N) * list diagnostic) line :
  cut KV_SEP (strip line) = None ->
  parse_line ds line
  = if bool_decide (strip line = DASHES) || bool_decide (strip line = [])
    then ds else (fst ds, snd ds ++ [Unparsable (strip line)]).
Proof. intros H. unfold parse_line. cbn [split_max]. by rewrite H. Qed.

End Tolerant.

(** C7, as stated, fails: a block of whitespace only lacks every required
    key and is discarded, but no diagnostic says so: the text with such a
    block between two well-formed ones gives the two records and prints
    nothing. *)
Lemma blank_block_skipped_silently :
  (u " " ++ NEWLINE) ∈ split ENTRY_SEP (strip example_blank_block)
  /\ fst (fold_left parse_line (split NEWLINE (strip (u " " ++ NEWLINE))) (∅, [])) = ∅
  /\ parse_records example_blank_block
     = inr ([ {| date := u "2024-01-01"; category := EXPENSE; amount := 12.5;
                 description := u "lunch" |};
              {| date := u "2024-01-01"; category := EXPENSE; amount := 12.5;
                 description := u "dinner" |} ], []).
Proof. split; [by_evaluation|]. split; by vm_compute. Qed.

(** C7 (amended): parse never raises; a block that is not of whitespace
    only and lacks a required key, or whose amount [float] rejects, adds
    one diagnostic and no record, and the next blocks are parsed as usual;
    a block of whitespace only is passed over without a diagnostic; a line
    without [': '] leaves the data of its block as they are, is reported
    unless it is empty or ['---'], and the lines after it are parsed as
    usual; the example file with one well-formed block and one block
    without amount gives one record. *)
Theorem parse_records_tolerant :
  (forall content, exists rs out, parse_records content = inr (rs, out))
  /\ (forall st entry rest,
        strip entry <> [] ->
        (exists key, key ∈ required_keys
           /\ fst (fold_left parse_line (split NEWLINE (strip entry)) (∅, snd st)) !! key
              = None)
        \/ (exists text,
              fst (fold_left parse_line (split NEWLINE (strip entry)) (∅, snd st))
                !! KEY_AMOUNT = Some text
              /\ float_of_str text = None) ->
        exists d,
          gives_up d
          /\ parse_entries (entry :: rest) st
             = parse_entries rest
                 (fst st,
                  snd (fold_left parse_line (split NEWLINE (strip entry)) (∅, snd st))
                  ++ [d]))
  /\ (forall st entry rest,
        strip entry = [] -> parse_entries (entry :: rest) st = parse_entries rest st)
  /\ (forall (st : gmap (list N) (list N) * list diagnostic) before line after,
        cut KV_SEP (strip line) = None ->
        fold_left parse_line (before ++ line :: after) st
        = fold_left parse_line after
            (if bool_decide (strip line = DASHES) || bool_decide (strip line = [])
             then fold_left parse_line before st
             else (fst (fold_left parse_line before st),
                   snd (fold_left parse_line before st) ++ [Unparsable (strip line)])))
  /\ parse_records example_file
     = inr ([ {| date := u "2024-01-01"; category := INCOME; amount := 100;
                 description := u "salary" |} ],
            [MissingKey KEY_AMOUNT]).
Proof.
  split; [|split; [|split; [|split]]].
  - intros content. unfold parse_records. rewrite parse_entries_eq. by eexists _, _.
  - intros st entry rest Hne H. apply parse_entries_discard; [done|].
    by apply make_record_fails.
  - intros st entry rest H. cbn [parse_entries]. unfold parse_entry.
    by rewrite bool_decide_eq_true_2.
  - intros st before line after H.
    by rewrite fold_left_app, <- parse_line_no_separator.
  - by vm_compute.
Qed.

Lemma parse_records_tolerant_witness :
  (exists d,
     gives_up d
     /\ parse_entries [u "Дата: 2024-01-02"; u "Сумма: 1"] ([], [])
        = parse_entries [u "Сумма: 1"] ([], [] ++ [d]))
  /\ fold_left parse_line ([u "Сумма: 1"] ++ u "no separator" :: [u "Дата: x"]) (∅, [])
     = fold_left parse_line [u "Дата: x"]
         (<[KEY_AMOUNT := u "1"]> ∅, [Unparsable (u "no separator")]).
Proof.
  split.
  - apply (proj1 (proj2 parse_records_tolerant) ([], []) (u "Дата: 2024-01-02")
             [u "Сумма: 1"]).
    + by_evaluation.
    + left. exists KEY_CATEGORY. split; [by_evaluation|by vm_compute].
  - apply (proj1 (proj2 (proj2 (proj2 parse_records_tolerant))) (∅, [])
             [u "Сумма: 1"] (u "no separator") [u "Дата: x"]).
    by vm_compute.
Defined.

(** * Whitespace around a line *)

Section FloatBlanks.

Implicit Types (w t v : str) (c : char).

Lemma c_isspace_ascii c :
  c_isspace c = true ->
  (c <? 128)%N = true /\ is_digit c = false /\ (c =? 95)%N = false.
Proof.
  unfold c_isspace, is_digit. intros H.
  apply orb_true_iff in H as [H|H].
  - apply andb_true_iff in H as [H1 H2]. apply N.leb_le in H1, H2.
    repeat split; [apply N.ltb_lt; lia| |apply N.eqb_neq; lia].
    apply andb_false_iff. left. apply N.leb_gt. lia.
  - apply N.eqb_eq in H as ->. done.
Qed.

Lemma to_ascii_blanks w t :
  Forall (fun c => c_isspace c = true) w -> to_ascii (w ++ t) = w ++ to_ascii t.
Proof.
  unfold to_ascii. intros H. rewrite map_app. f_equal.
  induction H as [|c w Hc _ IH]; [done|]. cbn [map].
  destruct (c_isspace_ascii c Hc) as (-> & _). by rewrite IH.
Qed.

(** The character before the text matters to the underscores only as a
    digit or an underscore. *)
Lemma drop_underscores_prev p1 p2 t :
  is_digit p1 = false -> (p1 =? 95)%N = false ->
  is_digit p2 = false -> (p2 =? 95)%N = false ->
  drop_underscores p1 t = drop_underscores p2 t.
Proof.
  intros H1 H1' H2 H2'.
  destruct t as [|c t]; cbn [drop_underscores]; by rewrite ?H1, ?H1', ?H2, ?H2'.
Qed.

Lemma drop_underscores_blanks w prev t :
  Forall (fun c => c_isspace c = true) w ->
  is_digit prev = false -> (prev =? 95)%N = false ->
  drop_underscores prev (w ++ t) = option_map (app w) (drop_underscores 0 t).
Proof.
  intros H. revert prev. induction H as [|c w Hc _ IH]; intros prev Hp Hp'.
  - cbn [app]. rewrite (drop_underscores_prev prev 0 t) by done.
    by destruct (drop_underscores 0 t).
  - destruct (c_isspace_ascii c Hc) as (_ & Hd & Hu).
    cbn [app drop_underscores]. rewrite Hu, Hp'. cbn [andb].
    rewrite IH by done. by destruct (drop_underscores 0 t).
Qed.

Lemma c_lstrip_blanks w t :
  Forall (fun c => c_isspace c = true) w -> c_lstrip (w ++ t) = c_lstrip t.
Proof. induction 1 as [|c w Hc _ IH]; [done|]. cbn [app c_lstrip]. by rewrite Hc. Qed.

(** [float] skips the blanks before a number. *)
Lemma float_of_str_blanks w v :
  Forall (fun c => c_isspace c = true) w -> float_of_str (w ++ v) = float_of_str v.
Proof.
  intros H. unfold float_of_str.
  rewrite to_ascii_blanks, drop_underscores_blanks by done.
  destruct (drop_underscores 0 (to_ascii v)) as [t|]; [|done].
  cbn [option_map]. unfold c_strip. by rewrite c_lstrip_blanks.
Qed.

End FloatBlanks.

(** C9, as stated, fails: whitespace between the separator and the value is
    kept; the two blocks differ only by two more spaces before the
    description, and give two different descriptions. *)
Lemma leading_whitespace_is_kept :
  parse_records (example_block (u "Описание:   lunch"))
  = inr ([ {| date := u "2024-01-01"; category := EXPENSE; amount := 12.5;
              description := u "  lunch" |} ], [])
  /\ parse_records (example_block (u "Описание: lunch"))
     = inr ([ {| date := u "2024-01-01"; category := EXPENSE; amount := 12.5;
                 description := u "lunch" |} ], [])
  /\ bool_decide (u "  lunch" = u "lunch") = false.
Proof. by vm_compute. Qed.

(** C9 (amended): whitespace before the key and after the value of a line
    is insignificant: the block gives the same data and diagnostics with or
    without it; whitespace between [': '] and the value is part of the value
    the key is set to; for the amount, [float] skips the blanks (space, tab,
    line feed, vertical tab, form feed, carriage return) before the number. *)
Theorem line_whitespace (st : gmap (list N) (list N) * list diagnostic)
    (before : list (list N)) (line : list N) (after : list (list N))
    (w1 w2 : list N) :
  blank w1 -> blank w2 ->
  fold_left parse_line (before ++ (w1 ++ line ++ w2) :: after) st
  = fold_left parse_line (before ++ line :: after) st
  /\ (forall key value,
        key ∈ required_keys -> value <> [] -> rstrip value = value ->
        parse_line st (key ++ KV_SEP ++ w1 ++ value)
        = (<[key := w1 ++ value]> (fst st), snd st))
  /\ (Forall (fun c => c_isspace c = true) w1 ->
      forall value, float_of_str (w1 ++ value) = float_of_str value).
Proof.
  intros H1 H2. split; [|split].
  - rewrite !fold_left_app. cbn [fold_left]. f_equal.
    unfold parse_line. by rewrite strip_blank_around.
  - intros key value Hk Hne Hs. destruct st as [data out].
    apply (parse_line_label_kept key w1 value data out); [|done|done].
    by apply label_required.
  - intros Hw value. by apply float_of_str_blanks.
Qed.

Lemma line_whitespace_witness :
  fold_left parse_line
    ([u "Дата: 2024-01-01"] ++ (u "  " ++ u "Описание: lunch" ++ u "   ") :: [])
    (∅, [])
  = fold_left parse_line ([u "Дата: 2024-01-01"] ++ u "Описание: lunch" :: []) (∅, [])
  /\ (forall key value,
        key ∈ required_keys -> value <> [] -> rstrip value = value ->
        parse_line (∅, []) (key ++ KV_SEP ++ u "  " ++ value)
        = (<[key := u "  " ++ value]> ∅, []))
  /\ (Forall (fun c => c_isspace c = true) (u "  ") ->
      forall value, float_of_str (u "  " ++ value) = float_of_str value).
Proof.
  apply (line_whitespace (∅, []) [u "Дата: 2024-01-01"] (u "Описание: lunch") []
           (u "  ") (u "   ")); unfold blank; by_evaluation.
Defined.

(** * The lines of the blocks of a text *)

Section EntryLines.

Implicit Types (s t x y e line w : str) (ls : list (list N)) (c : char).

Lemma split_newline_cons c s :
  split NEWLINE (c :: s) =
  if (c =? LF)%N then [] :: split NEWLINE s
  else match split NEWLINE s with
       | hd :: tl => (c :: hd) :: tl
       | [] => [[c]]
       end.
Proof.
  pose proof (cut_newline_cons c s) as Hc.
  destruct (c =? LF)%N.
  - by apply split_cut.
  - destruct (cut NEWLINE s) as [[b a]|] eqn:E.
    + rewrite (split_cut _ _ _ _ NEWLINE_nonempty Hc).
      by rewrite (split_cut _ _ _ _ NEWLINE_nonempty E).
    + by rewrite (split_uncut _ _ Hc), (split_uncut _ _ E).
Qed.

Lemma split_newline_nil : split NEWLINE [] = [[]].
Proof. done. Qed.

(** The lines of two texts put together: the last line of the first text
    and the first line of the second become one line. *)
Lemma split_newline_app x y :
  exists init lst hd tl,
    split NEWLINE x = init ++ [lst]
    /\ split NEWLINE y = hd :: tl
    /\ split NEWLINE (x ++ y) = init ++ (lst ++ hd) :: tl.
Proof.
  induction x as [|c x (init & lst & hd & tl & Hx & Hy & Hxy)].
  - destruct (split NEWLINE y) as [|hd tl] eqn:E; [by apply split_nonempty in E|].
    by exists [], [], hd, tl.
  - cbn [app]. rewrite !split_newline_cons, Hx, Hxy.
    destruct (c =? LF)%N.
    + by exists ([] :: init), lst, hd, tl.
    + destruct init as [|i init]; cbn [app].
      * by exists [], (c :: lst), hd, tl.
      * by exists ((c :: i) :: init), lst, hd, tl.
Qed.

Lemma split_newline_blank w : blank w -> Forall blank (split NEWLINE w).
Proof.
  induction 1 as [|c w Hc Hw IH]; [by repeat constructor|].
  rewrite split_newline_cons. destruct (c =? LF)%N.
  - constructor; [constructor|done].
  - destruct (split NEWLINE w) as [|hd tl]; [by repeat constructor|].
    inversion IH; subst. constructor; [by constructor|done].
Qed.

(** Every line of every block is a line of the text, or such a line
    without its final ['---']. *)
Lemma entry_lines t e line :
  e ∈ split ENTRY_SEP t -> line ∈ split NEWLINE e ->
  from_lines (split NEWLINE t) line.
Proof.
  remember (length t) as n eqn:En. revert t En e.
  induction n as [n IH] using lt_wf_ind. intros t -> e He Hline.
  destruct (cut ENTRY_SEP t) as [[b a]|] eqn:Hc.
  - pose proof (cut_Some _ _ _ _ Hc) as Et.
    pose proof (cut_length _ _ _ _ ENTRY_SEP_nonempty Hc) as Hl.
    rewrite (split_cut _ _ _ _ ENTRY_SEP_nonempty Hc) in He.
    assert (t = (b ++ DASHES) ++ LF :: a) as Et'.
    { rewrite Et. by rewrite <- app_assoc. }
    destruct (split_newline_app b DASHES) as (init & lst & hd & tl & Hb & Hd & Hbd).
    rewrite (split_newline_last DASHES) in Hd by by_evaluation.
    injection Hd as <- <-.
    destruct (split_newline_app (b ++ DASHES) (LF :: a))
      as (init' & lst' & hd' & tl' & Hbd' & Ha & Ht).
    rewrite Hbd in Hbd'. apply app_inj_tail in Hbd' as [<- <-].
    rewrite split_newline_cons in Ha. cbn in Ha. injection Ha as <- <-.
    rewrite <- Et', app_nil_r in Ht.
    apply elem_of_cons in He as [->|He].
    + rewrite Hb in Hline. rewrite Ht.
      apply elem_of_app in Hline as [Hline|Hline].
      * left. apply elem_of_app. by left.
      * apply list_elem_of_singleton in Hline as ->.
        right. apply elem_of_app. right. by left.
    + destruct (IH (length a) Hl a eq_refl e He Hline) as [H|H].
      * left. rewrite Ht. apply elem_of_app. right. by right.
      * right. rewrite Ht. apply elem_of_app. right. by right.
  - rewrite (split_uncut _ _ Hc) in He.
    apply list_elem_of_singleton in He as ->. by left.
Qed.

(** Every line of the stripped block has the [strip] of a line of the block. *)
Lemma stripped_lines e line :
  line ∈ split NEWLINE (strip e) ->
  exists line', line' ∈ split NEWLINE e /\ strip line' = strip line.
Proof.
  intros Hline.
  destruct (strip_split e) as (w1 & w2 & H1 & H2 & Ee).
  destruct (split_newline_app (strip e) w2) as (init & lst & hd & tl & Hx & Hw & Hxw).
  assert (exists l2, l2 ∈ split NEWLINE (strip e ++ w2) /\ strip l2 = strip line)
    as (l2 & Hl2 & Es2).
  { rewrite Hx in Hline. rewrite Hxw.
    apply elem_of_app in Hline as [Hline|Hline].
    - exists line. split; [|done]. apply elem_of_app. by left.
    - apply list_elem_of_singleton in Hline as ->.
      exists (lst ++ hd). split; [apply elem_of_app; right; by left|].
      pose proof (split_newline_blank w2 H2) as Hb. rewrite Hw in Hb.
      apply Forall_inv in Hb.
      rewrite <- (app_nil_l (lst ++ hd)).
      by apply strip_blank_around; [constructor|]. }
  destruct (split_newline_app w1 (strip e ++ w2))
    as (init' & lst' & hd' & tl' & Hw1 & Hy & Hw1y).
  rewrite Ee, Hw1y. rewrite Hy in Hl2.
  apply elem_of_cons in Hl2 as [->|Hl2].
  - exists (lst' ++ hd'). split; [apply elem_of_app; right; by left|].
    rewrite <- Es2, <- (app_nil_r (lst' ++ hd')), <- app_assoc.
    apply strip_blank_around; [|constructor].
    pose proof (split_newline_blank w1 H1) as Hb. rewrite Hw1 in Hb.
    apply Forall_app in Hb as [_ Hb]. by apply Forall_inv in Hb.
  - exists l2. split; [|done]. apply elem_of_app. right. by right.
Qed.

(** *** Lines that do not set a key *)

Lemma keeps_strip key line line' :
  strip line' = strip line -> keeps key line -> keeps key line'.
Proof. intros E H st. specialize (H st). unfold parse_line in *. by rewrite E. Qed.

Lemma keeps_dashes key : keeps key DASHES.
Proof. by intros st. Qed.

Lemma keeps_nil key : keeps key [].
Proof. by intros st. Qed.

(** The text that [strip] keeps of a line starting with a key. *)
Lemma strip_field_line k f :
  label k -> exists w, blank w /\ field_line k f = strip (field_line k f) ++ w.
Proof.
  intros (_ & (c & k' & -> & Hc & _) & _). unfold strip, field_line.
  rewrite <- app_comm_cons, lstrip_cons by done. apply rstrip_split.
Qed.

(** A line starting with a key sets this key or none. *)
Lemma cut_field_line_key k f key v :
  label k -> cut KV_SEP (strip (field_line k f)) = Some (key, v) -> key = k.
Proof.
  intros Hk Hc. destruct (strip_field_line k f Hk) as (w & _ & E).
  apply (cut_app _ _ w) in Hc. rewrite <- E in Hc.
  destruct Hk as (Hk & _). unfold field_line in Hc. rewrite Hk in Hc.
  by injection Hc as <- _.
Qed.

Lemma parse_line_key (st : gmap (list N) (list N) * list diagnostic) line key :
  (forall k v, cut KV_SEP (strip line) = Some (k, v) -> k <> key) -> 
  fst (parse_line st line) !! key = fst st !! key.
Proof.
  intros H. unfold parse_line.
  destruct (bool_decide (strip line = DASHES) || bool_decide (strip line = []));
    [done|].
  cbn [split_max]. destruct (cut KV_SEP (strip line)) as [[k v]|] eqn:E; [|done].
  cbn [fst]. apply lookup_insert_ne. by apply (H k v).
Qed.

Lemma keeps_field_line key k f : label k -> k <> key -> keeps key (field_line k f).
Proof.
  intros Hk Hne st. apply parse_line_key. intros k' v Hc.
  by rewrite (cut_field_line_key _ _ _ _ Hk Hc).
Qed.

(** The line of an empty value loses its separator and sets nothing. *)
Lemma cut_empty_field k : label k -> cut KV_SEP (strip (field_line k [])) = None.
Proof.
  intros Hk. destruct (cut KV_SEP (strip (field_line k []))) as [[key v]|] eqn:Hc;
    [exfalso|done].
  destruct (strip_field_line k [] Hk) as (w & Hw & E).
  pose proof (cut_app _ _ w _ _ Hc) as Hc'. rewrite <- E in Hc'.
  destruct Hk as (Hk & _). unfold field_line in Hc'. rewrite Hk in Hc'.
  injection Hc' as Hkey Hv. subst key. symmetry in Hv.
  apply app_eq_nil in Hv as [-> ->].
  rewrite app_nil_r in E. unfold field_line in E.
  assert (strip (k ++ KV_SEP ++ []) = (k ++ [58%N]) ++ [32%N]) as E'.
  { rewrite <- E, <- app_assoc. by rewrite app_nil_r. }
  by apply strip_last in E'.
Qed.

Lemma keeps_empty_field key k : label k -> keeps key (field_line k []).
Proof.
  intros Hk st. apply parse_line_key. intros k' v Hc.
  by rewrite cut_empty_field in Hc.
Qed.

End EntryLines.

(** * Records with an empty text field *)

Section Dropped.

Implicit Types (s t e line : str) (r : FinanceRecord) (rs : list FinanceRecord).

Lemma parse_records_blocks content :
  parse_records content
  = inr (block_records (strip content), block_diags (strip content)).
Proof. unfold parse_records. by rewrite parse_entries_eq. Qed.

(** The blocks of a terminated text and of what follows it are parsed
    independently. *)
Lemma blocks_app t1 t2 :
  terminated t1 ->
  block_records (t1 ++ t2) = block_records t1 ++ block_records t2
  /\ block_diags (t1 ++ t2) = block_diags t1 ++ block_diags t2.
Proof.
  intros H. destruct (split_terminated t1 H) as (es & Hes & Happ).
  unfold block_records, block_diags. rewrite Happ, Hes, !flat_map_app.
  cbn [flat_map]. rewrite entry_result_empty. cbn [fst snd app].
  by rewrite !app_nil_r.
Qed.

Lemma block_terminated r : terminated (content r ++ ENTRY_SEP).
Proof. right. by exists (content r). Qed.

Lemma blocks_clean r tail :
  clean_record r -> tail = ENTRY_SEP \/ tail = DASHES ->
  block_records (content r ++ tail) = [r] /\ block_diags (content r ++ tail) = [].
Proof.
  intros Hr Htail. destruct (clean_record_unbroken r Hr) as (Hd & Hc & Ht).
  unfold block_records, block_diags. destruct Htail as [->| ->].
  - rewrite (split_cut _ _ (content r) [] ENTRY_SEP_nonempty).
    2:{ rewrite <- (app_nil_r ENTRY_SEP), cut_content, cut_here by done.
        by rewrite app_nil_r. }
    cbn [flat_map split split_max length]. rewrite entry_result_empty.
    pose proof (entry_result_clean r [] Hr (or_introl eq_refl)) as E.
    rewrite app_nil_r in E. by rewrite E.
  - rewrite split_last_block by done. cbn [flat_map].
    by rewrite (entry_result_clean r DASHES Hr (or_intror eq_refl)).
Qed.

Lemma blocks_serialize_clean rs :
  Forall clean_record rs ->
  block_records (serialize rs) = rs /\ block_diags (serialize rs) = [].
Proof.
  induction 1 as [|r rs Hr _ [IH1 IH2]]; [done|].
  rewrite serialize_cons, app_assoc.
  destruct (blocks_app (content r ++ ENTRY_SEP) (serialize rs) (block_terminated r))
    as [-> ->].
  destruct (blocks_clean r ENTRY_SEP Hr (or_introl eq_refl)) as [-> ->].
  by rewrite IH1, IH2.
Qed.

(** *** The last block of a file *)

Lemma strip_blank w : blank w -> strip w = [].
Proof. intros H. unfold strip. by rewrite lstrip_blank. Qed.

Lemma parse_line_strip_eq (st : gmap (list N) (list N) * list diagnostic) line line' :
  strip line' = strip line -> parse_line st line' = parse_line st line.
Proof. intros E. unfold parse_line. by rewrite E. Qed.

Lemma parse_line_blank (st : gmap (list N) (list N) * list diagnostic) line :
  blank line -> parse_line st line = st.
Proof. intros H. unfold parse_line. by rewrite strip_blank. Qed.

Lemma parse_lines_blank (st : gmap (list N) (list N) * list diagnostic) ls :
  Forall blank ls -> fold_left parse_line ls st = st.
Proof.
  induction 1 as [|l ls Hl _ IH]; [done|]. cbn [fold_left].
  by rewrite parse_line_blank.
Qed.

(** Whitespace around a block changes neither its data nor its
    diagnostics. *)
Lemma parse_lines_blank_around (st : gmap (list N) (list N) * list diagnostic) w1 e w2 :
  blank w1 -> blank w2 ->
  fold_left parse_line (split NEWLINE (w1 ++ e ++ w2)) st
  = fold_left parse_line (split NEWLINE e) st.
Proof.
  intros H1 H2.
  destruct (split_newline_app e w2) as (init & lst & hd & tl & He & Hw & Hew).
  pose proof (split_newline_blank w2 H2) as Hb2. rewrite Hw in Hb2.
  apply Forall_cons in Hb2 as [Hhd Htl].
  destruct (split_newline_app w1 (e ++ w2)) as (init' & lst' & hd' & tl' & Hw1 & Hy & Hall).
  pose proof (split_newline_blank w1 H1) as Hb1. rewrite Hw1 in Hb1.
  apply Forall_app in Hb1 as [Hinit' Hlst']. apply Forall_inv in Hlst'.
  rewrite Hall, fold_left_app, (parse_lines_blank _ init') by done.
  cbn [fold_left].
  rewrite (parse_line_strip_eq _ hd' (lst' ++ hd')).
  2:{ rewrite <- (app_nil_r (lst' ++ hd')), <- app_assoc.
      apply strip_blank_around; [done|constructor]. }
  change (fold_left parse_line tl' (parse_line st hd'))
    with (fold_left parse_line (hd' :: tl') st).
  rewrite <- Hy, Hew, He, !fold_left_app. cbn [fold_left].
  rewrite (parse_line_strip_eq _ lst (lst ++ hd)).
  2:{ rewrite <- (app_nil_l (lst ++ hd)). by apply strip_blank_around; [constructor|]. }
  by rewrite parse_lines_blank.
Qed.

Lemma parse_lines_strip (st : gmap (list N) (list N) * list diagnostic) e :
  fold_left parse_line (split NEWLINE (strip e)) st
  = fold_left parse_line (split NEWLINE e) st.
Proof.
  destruct (strip_split e) as (w1 & w2 & H1 & H2 & E).
  rewrite E at 2. by rewrite parse_lines_blank_around.
Qed.

(** The records of a block, from the data of its lines. *)
Lemma entry_records_data e :
  fst (entry_result e)
  = match make_record (fst (fold_left parse_line (split NEWLINE e) (∅, []))) with
    | inr r => [r]
    | inl _ => []
    end.
Proof.
  unfold entry_result, parse_entry. rewrite parse_lines_strip.
  destruct (bool_decide (strip e = [])) eqn:Eb.
  - apply bool_decide_eq_true in Eb.
    destruct (strip_split e) as (w1 & w2 & H1 & H2 & E).
    rewrite Eb in E. cbn [app] in E.
    rewrite parse_lines_blank; [done|].
    apply split_newline_blank. rewrite E. by apply blank_app.
  - destruct (fold_left parse_line _ _) as [data out]. cbn [fst snd].
    destruct (make_record data) as [x|r] eqn:Hx; [|done].
    by destruct (make_record_exn _ _ Hx) as [(k & -> & _)|(t & -> & _)].
Qed.

Lemma split_newline_snoc_line y l :
  LF ∉ l -> split NEWLINE (y ++ LF :: l) = split NEWLINE y ++ [l].
Proof.
  intros Hl.
  destruct (split_newline_app y (LF :: l)) as (init & lst & hd & tl & Hy & Hl' & ->).
  rewrite split_newline_cons in Hl'. cbn in Hl'.
  rewrite (split_newline_last l Hl) in Hl'. injection Hl' as <- <-.
  by rewrite Hy, app_nil_r, <- app_assoc.
Qed.

(** The dashes that [strip] leaves at the end of the file add no record to
    the last block. *)
Lemma entry_records_dashes y :
  y = [] \/ (exists y', y = y' ++ [LF]) ->
  fst (entry_result (y ++ DASHES)) = fst (entry_result y).
Proof.
  intros [->|[y' ->]]; [done|].
  rewrite !entry_records_data, <- app_assoc. cbn [app].
  rewrite (split_newline_snoc_line y' DASHES) by by_evaluation.
  rewrite (split_newline_snoc_line y' []) by by_evaluation.
  by rewrite !fold_left_app.
Qed.

Lemma dashes_after b a y :
  y = [] \/ (exists y', y = y' ++ [LF]) ->
  b ++ ENTRY_SEP ++ a = y ++ DASHES ->
  exists a', a = a' ++ DASHES /\ (a' = [] \/ exists y', a' = y' ++ [LF]).
Proof.
  intros Hy E.
  assert (DASHES `suffix_of` (b ++ ENTRY_SEP ++ a)) as H1 by (by exists y).
  assert (a `suffix_of` (b ++ ENTRY_SEP ++ a)) as H2.
  { exists (b ++ ENTRY_SEP). by rewrite <- app_assoc. }
  destruct (suffix_weak_total _ _ _ H1 H2) as [[a' ->]|[k Hk]].
  - exists a'. split; [done|].
    rewrite !app_assoc in E. apply app_inv_tail in E.
    destruct a' as [|c a' _] using rev_ind; [by left|]. right.
    destruct Hy as [->|[y' ->]].
    + rewrite !app_assoc in E. by destruct ((b ++ ENTRY_SEP) ++ a').
    + rewrite !app_assoc in E. apply app_inj_tail in E as [_ ->]. by exists a'.
  - destruct k as [|k1 k]; [exists []; split; [by cbn [app] in Hk|by left]|].
    exfalso. apply (f_equal reverse) in E. rewrite !reverse_app in E.
    unfold DASHES, ENTRY_SEP in Hk, E.
    destruct k as [|k2 [|k3 [|k4 k]]]; simplify_eq/=.
Qed.

Lemma blocks_last y :
  y = [] \/ (exists y', y = y' ++ [LF]) ->
  block_records (y ++ DASHES) = block_records (y ++ ENTRY_SEP).
Proof.
  remember (length y) as n eqn:En. revert y En.
  induction n as [n IH] using lt_wf_ind. intros y -> Hy.
  assert (y ++ ENTRY_SEP = (y ++ DASHES) ++ [LF]) as Esep by (by rewrite <- app_assoc).
  unfold block_records.
  destruct (cut ENTRY_SEP (y ++ DASHES)) as [[b a]|] eqn:Hc.
  - pose proof (cut_Some _ _ _ _ Hc) as E. symmetry in E.
    destruct (dashes_after b a y Hy E) as (a' & -> & Ha').
    rewrite (split_cut _ _ _ _ ENTRY_SEP_nonempty Hc).
    rewrite Esep.
    rewrite (split_cut _ ((y ++ DASHES) ++ [LF]) b ((a' ++ DASHES) ++ [LF])
               ENTRY_SEP_nonempty) by by apply cut_app.
    cbn [flat_map]. f_equal.
    rewrite <- app_assoc. apply (IH (length a')); [|done|done].
    apply (f_equal length) in E. rewrite !length_app in E.
    unfold ENTRY_SEP, DASHES in E. cbn [length] in E. lia.
  - rewrite (split_uncut _ _ Hc).
    rewrite (split_cut _ _ y [] ENTRY_SEP_nonempty).
    + cbn [flat_map split split_max length]. rewrite entry_result_empty.
      cbn [fst app]. f_equal. by apply entry_records_dashes.
    + destruct (cut_occurs ENTRY_SEP y []) as [[b a] Hc'].
      rewrite app_nil_r in Hc'. rewrite Hc'.
      pose proof (cut_Some _ _ _ _ Hc') as E.
      destruct a as [|c a _] using rev_ind.
      * rewrite app_nil_r in E. apply app_inv_tail in E as ->. done.
      * exfalso. rewrite Esep, !app_assoc in E. apply app_inj_tail in E as [E _].
        destruct (cut_occurs ENTRY_SEP b a) as [x Hx].
        rewrite <- app_assoc in E. rewrite <- E, Hc in Hx. done.
Qed.

(** [strip] on the file does not change the records parsed from it. *)
Lemma blocks_strip_serialize rs :
  block_records (strip (serialize rs)) = block_records (serialize rs).
Proof.
  destruct rs as [|r rs _] using rev_ind; [done|].
  rewrite strip_serialize_snoc, serialize_app, serialize_cons.
  unfold serialize at 3. cbn [fold_left]. rewrite app_nil_r.
  destruct (blocks_app _ (content r ++ DASHES) (serialize_terminated rs)) as [-> _].
  destruct (blocks_app _ (content r ++ ENTRY_SEP) (serialize_terminated rs)) as [-> _].
  f_equal. apply blocks_last. right. rewrite content_body. by eexists.
Qed.

(** The records parsed from a saved list are those of its parts. *)
Lemma blocks_serialize_app rs1 rs2 :
  block_records (serialize (rs1 ++ rs2))
  = block_records (serialize rs1) ++ block_records (serialize rs2).
Proof.
  rewrite serialize_app. by apply blocks_app, serialize_terminated.
Qed.

Lemma serialize_middle before r after :
  serialize (before ++ r :: after)
  = serialize before ++ (content r ++ ENTRY_SEP) ++ serialize after.
Proof. rewrite serialize_app, serialize_cons. by rewrite <- !app_assoc. Qed.

(** *** The block of a hollow record *)

Lemma keeps_from_field key k f line :
  label k -> k <> key \/ f = [] ->
  line = field_line k f \/ line ++ DASHES = field_line k f ->
  keeps key line.
Proof.
  intros Hk Hf [->|E].
  - destruct Hf as [Hne| ->]; [by apply keeps_field_line|by apply keeps_empty_field].
  - destruct (decide (DASHES `suffix_of` f)) as [[f' ->]|Hn].
    + unfold field_line in E. rewrite !app_assoc in E.
      apply app_inv_tail in E as ->. rewrite <- app_assoc.
      destruct Hf as [Hne|Hf]; [by apply keeps_field_line|by destruct f'].
    + exfalso. apply (field_line_no_dashes k f Hn). rewrite <- E. by exists line.
Qed.

Lemma split_newline_block r tail :
  LF ∉ date r -> LF ∉ category r -> LF ∉ description r ->
  split NEWLINE (content r ++ tail)
  = [field_line KEY_DATE (date r); field_line KEY_CATEGORY (category r);
     field_line KEY_AMOUNT (float_repr (amount r));
     field_line KEY_DESCRIPTION (description r)] ++ split NEWLINE tail.
Proof.
  intros Hd Hc Ht. rewrite content_body, <- app_assoc. cbn [app].
  rewrite split_body by done.
  rewrite split_newline_line by (apply field_line_no_LF; [apply label_description|done]).
  done.
Qed.

Lemma hollow_lines r tail :
  hollow r -> tail = ENTRY_SEP \/ tail = DASHES ->
  exists key, key ∈ required_keys
    /\ forall line, from_lines (split NEWLINE (content r ++ tail)) line -> keeps key line.
Proof.
  intros (He & Hd & Hc & Ht) Htail.
  assert (exists key, key ∈ required_keys
            /\ (KEY_DATE <> key \/ date r = [])
            /\ (KEY_CATEGORY <> key \/ category r = [])
            /\ KEY_AMOUNT <> key
            /\ (KEY_DESCRIPTION <> key \/ description r = []))
    as (key & Hkey & H1 & H2 & H3 & H4).
  { destruct He as [E|[E|E]].
    - exists KEY_DATE. split; [by_evaluation|].
      repeat split; try (by right); try (left; by_evaluation); by_evaluation.
    - exists KEY_CATEGORY. split; [by_evaluation|].
      repeat split; try (by right); try (left; by_evaluation); by_evaluation.
    - exists KEY_DESCRIPTION. split; [by_evaluation|].
      repeat split; try (by right); try (left; by_evaluation); by_evaluation. }
  exists key. split; [done|]. intros line Hline.
  unfold from_lines in Hline. rewrite split_newline_block in Hline by done.
  assert (forall l, l ∈ split NEWLINE tail -> l = DASHES \/ l = []) as Htl.
  { intros l Hl. destruct Htail as [->| ->].
    - change (split NEWLINE ENTRY_SEP) with [DASHES; []] in Hl.
      apply elem_of_cons in Hl as [->|Hl]; [by left|].
      apply list_elem_of_singleton in Hl as ->. by right.
    - change (split NEWLINE DASHES) with [DASHES] in Hl.
      apply list_elem_of_singleton in Hl as ->. by left. }
  assert (forall l, l = line \/ l = line ++ DASHES ->
            l ∈ [field_line KEY_DATE (date r); field_line KEY_CATEGORY (category r);
                 field_line KEY_AMOUNT (float_repr (amount r));
                 field_line KEY_DESCRIPTION (description r)] ++ split NEWLINE tail ->
            keeps key line) as Hall.
  { intros l Hl Hin.
    assert (line = l \/ line ++ DASHES = l) as Hl' by (destruct Hl; auto).
    apply elem_of_app in Hin as [Hin|Hin].
    - apply elem_of_cons in Hin as [->|Hin];
        [exact (keeps_from_field _ _ _ _ label_date H1 Hl')|].
      apply elem_of_cons in Hin as [->|Hin];
        [exact (keeps_from_field _ _ _ _ label_category H2 Hl')|].
      apply elem_of_cons in Hin as [->|Hin];
        [exact (keeps_from_field _ _ _ _ label_amount (or_introl H3) Hl')|].
      apply elem_of_cons in Hin as [->|Hin];
        [exact (keeps_from_field _ _ _ _ label_description H4 Hl')|].
      by apply elem_of_nil in Hin.
    - apply Htl in Hin as [->| ->]; destruct Hl' as [->|E].
      + apply keeps_dashes.
      + apply (app_inv_tail DASHES line []) in E as ->. apply keeps_nil.
      + apply keeps_nil.
      + by destruct line. }
  destruct Hline as [Hin|Hin].
  - by apply (Hall line); [left|].
  - by apply (Hall (line ++ DASHES)); [right|].
Qed.

(** A block none of whose lines sets a required key makes no record. *)
Lemma entry_no_record key e :
  key ∈ required_keys ->
  (forall line, line ∈ split NEWLINE (strip e) -> keeps key line) ->
  fst (entry_result e) = [].
Proof.
  intros Hkey Hlines. unfold entry_result, parse_entry.
  destruct (bool_decide (strip e = [])); [done|].
  assert (forall ls st, (forall line, line ∈ ls -> keeps key line) ->
            fst (fold_left parse_line ls st) !! key = fst st !! key) as Hfold.
  { induction ls as [|l ls IH]; intros st H; [done|]. cbn [fold_left].
    rewrite IH by (intros; apply H; by right). apply H. by left. }
  specialize (Hfold _ (∅, []) Hlines).
  destruct (fold_left parse_line _ _) as [data out]. cbn [fst snd] in *.
  destruct (make_record_fails data) as [x Hx].
  { left. exists key. split; [done|]. by rewrite Hfold. }
  rewrite Hx. by destruct (make_record_exn _ _ Hx) as [(k & -> & _)|(t & -> & _)].
Qed.

Lemma hollow_no_record r tail :
  hollow r -> tail = ENTRY_SEP \/ tail = DASHES ->
  block_records (content r ++ tail) = [].
Proof.
  intros Hr Htail. destruct (hollow_lines r tail Hr Htail) as (key & Hkey & Hk).
  unfold block_records.
  assert (forall es, (forall e, e ∈ es -> e ∈ split ENTRY_SEP (content r ++ tail)) ->
            flat_map (fun e => fst (entry_result e)) es = []) as H.
  { induction es as [|e es IH]; intros Hes; [done|]. cbn [flat_map].
    rewrite IH by (intros; apply Hes; by right). rewrite app_nil_r.
    apply (entry_no_record key); [done|]. intros line Hline.
    destruct (stripped_lines e line Hline) as (line' & Hline' & Es).
    apply (keeps_strip key line' line); [done|].
    apply Hk. apply (entry_lines _ e); [|done]. apply Hes. by left. }
  by apply H.
Qed.

(** *** The diagnostic of the first block *)

Lemma strip_cons_nonempty c s : isspace c = false -> strip (c :: s) <> [].
Proof.
  intros Hc. unfold strip. rewrite lstrip_cons by done.
  destruct (rstrip_split (c :: s)) as (w & Hw & E). intros En.
  rewrite En in E. cbn [app] in E. subst w.
  apply Forall_inv in Hw. congruence.
Qed.

Lemma split_entry_first m :
  exists b es, split ENTRY_SEP (1044%N :: m) = (1044%N :: b) :: es.
Proof.
  destruct (cut ENTRY_SEP (1044%N :: m)) as [[b a]|] eqn:Hc.
  - rewrite (split_cut _ _ _ _ ENTRY_SEP_nonempty Hc).
    rewrite cut_unfold in Hc. cbn [strip_prefix ENTRY_SEP] in Hc. cbv iota in Hc.
    change (45 =? 1044)%N with false in Hc. cbv iota in Hc.
    destruct (cut ENTRY_SEP m) as [[b' a']|]; [|done].
    injection Hc as <- <-. by eexists _, _.
  - rewrite (split_uncut _ _ Hc). by eexists _, _.
Qed.

Lemma entry_result_report e :
  strip e <> [] -> fst (entry_result e) = [] ->
  exists d, d ∈ snd (entry_result e) /\ gives_up d.
Proof.
  unfold entry_result, parse_entry. intros Hne.
  rewrite bool_decide_eq_false_2 by done.
  destruct (fold_left parse_line _ _) as [data out]. cbn [fst snd].
  destruct (make_record data) as [x|r] eqn:Hx.
  - intros _. destruct (make_record_exn _ _ Hx) as [(k & -> & _)|(t & -> & _)];
      cbn [snd]; eexists; (split; [apply elem_of_app; right; by left|]).
    + left. by eexists.
    + right. by eexists _, _.
  - cbn [fst]. done.
Qed.

Lemma hollow_report r tail :
  hollow r -> tail = ENTRY_SEP \/ tail = DASHES ->
  exists d, d ∈ block_diags (content r ++ tail) /\ gives_up d.
Proof.
  intros Hr Htail. pose proof (hollow_no_record r tail Hr Htail) as Hn.
  unfold block_records, block_diags in *.
  destruct (content_head r) as [m Em]. rewrite Em in *. cbn [app] in *.
  destruct (split_entry_first (m ++ tail)) as (b & es & Es). rewrite Es in *.
  cbn [flat_map] in *. apply app_eq_nil in Hn as [Hn _].
  destruct (entry_result_report (1044%N :: b)) as (d & Hd & Hg); [|done|].
  - by apply strip_cons_nonempty.
  - exists d. split; [|done]. apply elem_of_app. by left.
Qed.

End Dropped.

(** C10, as stated, fails: the block of a record with an empty date is not
    discarded when another field brings the missing line along; a record is
    parsed from it (a different one). *)
Lemma empty_field_block_not_discarded :
  date smuggled_date = []
  /\ parse_records (serialize [smuggled_date])
     = inr ([ {| date := u "2024-01-01"; category := EXPENSE; amount := 40;
                 description := u "tea" |} ],
            [Unparsable (u "Дата:")]).
Proof. split; by vm_compute. Qed.

(** C10 (amended): a record with an empty date, category or description
    and no line break in these fields is lost when the file is parsed again:
    whatever the records around it, parsing what save writes gives the same
    records as parsing the file saved without it (the records around it
    themselves, when the format can carry them), and a diagnostic says that
    a block was given up; the line of an empty field, ['Key: '], is stripped
    to ['Key:'], reported as unparsable and sets no key. *)
Theorem empty_field_record_dropped (before : list FinanceRecord) (r : FinanceRecord)
    (after : list FinanceRecord) :
  date r = [] \/ category r = [] \/ description r = [] ->
  LF ∉ date r -> LF ∉ category r -> LF ∉ description r ->
  (exists rs printed printed',
     parse_records (serialize (before ++ r :: after)) = inr (rs, printed)
     /\ parse_records (serialize (before ++ after)) = inr (rs, printed')
     /\ (exists d, d ∈ printed /\ gives_up d)
     /\ (Forall clean_record before -> Forall clean_record after ->
         rs = before ++ after))
  /\ (forall key st, key ∈ required_keys ->
        parse_line st (key ++ KV_SEP ++ [])
        = (fst st, snd st ++ [Unparsable (key ++ u ":")])).
Proof.
  intros He Hd Hc Ht.
  assert (hollow r) as Hr by done.
  split.
  - rewrite !parse_records_blocks, !blocks_strip_serialize.
    eexists _, _, _. split; [|split; [reflexivity|split]].
    + do 2 f_equal. rewrite serialize_middle, blocks_serialize_app.
      destruct (blocks_app _ ((content r ++ ENTRY_SEP) ++ serialize after)
                  (serialize_terminated before)) as [-> _].
      destruct (blocks_app _ (serialize after) (block_terminated r)) as [-> _].
      by rewrite (hollow_no_record r ENTRY_SEP Hr (or_introl eq_refl)).
    + destruct after as [|al after0 _] using rev_ind.
      * rewrite strip_serialize_snoc.
        destruct (blocks_app _ (content r ++ DASHES) (serialize_terminated before))
          as [_ ->].
        destruct (hollow_report r DASHES Hr (or_intror eq_refl)) as (d & Hin & Hg).
        exists d. split; [|done]. apply elem_of_app. by right.
      * rewrite app_comm_cons, app_assoc, strip_serialize_snoc.
        destruct (blocks_app _ (content al ++ DASHES)
                    (serialize_terminated (before ++ r :: after0))) as [_ ->].
        rewrite serialize_middle.
        destruct (blocks_app _ ((content r ++ ENTRY_SEP) ++ serialize after0)
                    (serialize_terminated before)) as [_ ->].
        destruct (blocks_app _ (serialize after0) (block_terminated r)) as [_ ->].
        destruct (hollow_report r ENTRY_SEP Hr (or_introl eq_refl)) as (d & Hin & Hg).
        exists d. split; [|done].
        apply elem_of_app. left. apply elem_of_app. right. apply elem_of_app. by left.
    + intros Hb Ha. rewrite blocks_serialize_app.
      destruct (blocks_serialize_clean before Hb) as [-> _].
      by destruct (blocks_serialize_clean after Ha) as [-> _].
  - intros key st Hkey. unfold required_keys in Hkey.
    repeat (apply elem_of_cons in Hkey as [->|Hkey]; [done|]).
    by apply elem_of_nil in Hkey.
Qed.

Lemma empty_field_record_dropped_witness :
  exists rs printed printed',
    parse_records (serialize (example_reserved ++ no_description
                                :: example_reserved_dated)) = inr (rs, printed)
    /\ parse_records (serialize (example_reserved ++ example_reserved_dated))
       = inr (rs, printed')
    /\ (exists d, d ∈ printed /\ gives_up d)
    /\ (Forall clean_record example_reserved ->
        Forall clean_record example_reserved_dated ->
        rs = example_reserved ++ example_reserved_dated).
Proof.
  apply (proj1 (empty_field_record_dropped example_reserved no_description
                  example_reserved_dated
                  (or_intror (or_intror eq_refl))
                  ltac:(by_evaluation) ltac:(by_evaluation) ltac:(by_evaluation))).
Defined.

(** X1: the blocks of a saved list are parsed independently: the records
    parsed from what save writes for two lists put together are the records
    parsed from what it writes for the first, followed by those parsed from
    what it writes for the second, whatever the field values. *)
Theorem parse_serialize_app (rs1 rs2 : list FinanceRecord) :
  exists l1 l2 out1 out2 out,
    parse_records (serialize rs1) = inr (l1, out1)
    /\ parse_records (serialize rs2) = inr (l2, out2)
    /\ parse_records (serialize (rs1 ++ rs2)) = inr (l1 ++ l2, out).
Proof.
  rewrite !parse_records_blocks, !blocks_strip_serialize, blocks_serialize_app.
  by eexists _, _, _, _, _.
Qed.

(** * The file of the manager *)

Section Persistence.

Implicit Types (w : world) (q : request) (qs : list request).

Lemma serialize_no_CR rs :
  Forall portable_record rs -> CR ∉ serialize rs.
Proof.
  induction 1 as [|r rs (_ & Hd & Hc & Ht) _ IH]; [by apply not_elem_of_nil|].
  rewrite serialize_cons, app_assoc. intros [H|H]%elem_of_app; [|done].
  by apply (block_no_CR r Hd Hc Ht).
Qed.

Lemma portable_clean rs : Forall portable_record rs -> Forall clean_record rs.
Proof. intros H. eapply Forall_impl; [exact H|]. by intros r [Hr _]. Qed.

(** What save writes for clean records is read back as written, also after
    the strip of the load. *)
Lemma parse_strip_serialize rs :
  Forall clean_record rs -> parse_records (strip (serialize rs)) = inr (rs, []).
Proof.
  intros H. unfold parse_records. rewrite strip_idemp, parse_entries_eq.
  cbn [fst snd app].
  destruct rs as [|r rs _] using rev_ind; [done|].
  apply Forall_app in H as [Hrs Hr]. apply Forall_inv in Hr.
  destruct (clean_record_unbroken r Hr) as (Hd & Hc & Ht).
  rewrite strip_serialize_snoc.
  destruct (split_terminated _ (serialize_terminated rs)) as (es & Hes & ->).
  rewrite split_serialize_clean in Hes by done.
  apply app_inj_tail in Hes as [<- _].
  rewrite split_last_block by done.
  rewrite !flat_map_app. cbn [flat_map].
  destruct (entries_clean rs Hrs) as [-> ->].
  by rewrite (entry_result_clean r DASHES Hr (or_intror eq_refl)), !app_nil_r.
Qed.

Lemma load_saved path rs files :
  Forall portable_record rs ->
  files !! path = Some (serialize rs) ->
  load_records path files = inr (rs, []).
Proof.
  intros H Hf. unfold load_records. rewrite Hf.
  rewrite universal_newlines_id by by apply serialize_no_CR.
  by apply parse_strip_serialize, portable_clean.
Qed.

Lemma perform_filepath q w : filepath (self (snd (perform q w))) = filepath (self w).
Proof.
  destruct q as [r|i r|i]; cbn [perform];
    unfold add_record, edit_record, delete_record; try done;
    by destruct (_ && _).
Qed.

Lemma perform_stdout q w : stdout (snd (perform q w)) = stdout w.
Proof.
  destruct q as [r|i r|i]; cbn [perform];
    unfold add_record, edit_record, delete_record; try done;
    by destruct (_ && _).
Qed.

Lemma perform_other_files q w path :
  path <> filepath (self w) -> fs (snd (perform q w)) !! path = fs w !! path.
Proof.
  intros Hp.
  destruct q as [r|i r|i]; cbn [perform];
    unfold add_record, edit_record, delete_record, saved, save_records;
    try destruct (_ && _); cbn [snd fs filepath]; try done;
    by rewrite lookup_insert_ne.
Qed.

Lemma perform_synced q w : snd (perform q w) = w \/ synced (snd (perform q w)).
Proof.
  destruct q as [r|i r|i]; cbn [perform];
    unfold add_record, edit_record, delete_record, saved, save_records, synced;
    try destruct (_ && _); cbn [snd fs self filepath records]; auto;
    right; apply lookup_insert_eq.
Qed.

Lemma session_cons q qs w : session (q :: qs) w = session qs (snd (perform q w)).
Proof. done. Qed.

Lemma session_changes qs w : session qs w = w \/ synced (session qs w).
Proof.
  revert w. induction qs as [|q qs IH]; intros w; [by left|].
  rewrite session_cons.
  destruct (IH (snd (perform q w))) as [->|H]; [apply perform_synced|by right].
Qed.

Lemma session_filepath qs w : filepath (self (session qs w)) = filepath (self w).
Proof.
  revert w. induction qs as [|q qs IH]; intros w; [done|].
  by rewrite session_cons, IH, perform_filepath.
Qed.

End Persistence.

(** X2: what save writes is what a new manager loads: for records that the
    file format carries (clean, and without carriage return), a manager
    constructed on the saved file holds the same records in the same order,
    and the load prints nothing. *)
Theorem save_records_init (m : FinanceManager) (files : gmap (list N) (list N))
    (out : list diagnostic) :
  Forall portable_record (records m) ->
  init (filepath m) (save_records m files) out
  = inr {| self := m; fs := save_records m files; stdout := out |}.
Proof.
  intros H. unfold init.
  rewrite (load_saved _ (records m)); [|done|apply lookup_insert_eq].
  cbn [mbind result_bind fst snd]. rewrite app_nil_r. by destruct m.
Qed.

Lemma save_records_init_witness :
  init (u "wallet.txt")
    (save_records {| filepath := u "wallet.txt"; records := example_reserved_dated |} ∅) []
  = inr {| self := {| filepath := u "wallet.txt"; records := example_reserved_dated |};
           fs := save_records
                   {| filepath := u "wallet.txt"; records := example_reserved_dated |} ∅;
           stdout := [] |}.
Proof.
  apply (save_records_init
           {| filepath := u "wallet.txt"; records := example_reserved_dated |} ∅ []).
  repeat constructor; try by_evaluation; by vm_compute.
Defined.

(** X3: whatever calls of add, edit and delete are made, with whatever
    arguments, the manager writes to its own file only: its file path stays,
    nothing is printed, and every other file is as it was. *)
Theorem session_frame (qs : list request) (w : world) :
  filepath (self (session qs w)) = filepath (self w)
  /\ stdout (session qs w) = stdout w
  /\ forall path, path <> filepath (self w) ->
       fs (session qs w) !! path = fs w !! path.
Proof.
  revert w. induction qs as [|q qs IH]; intros w; [done|].
  rewrite session_cons.
  destruct (IH (snd (perform q w))) as (H1 & H2 & H3).
  rewrite H1, H2, perform_filepath, perform_stdout. repeat split.
  intros path Hp. rewrite H3 by by rewrite perform_filepath.
  by apply perform_other_files.
Qed.

(** X4: after any calls of add, edit and delete, either nothing at all has
    changed (every call was an edit or a delete out of range), or the file
    of the manager holds exactly what save writes for the records in
    memory. *)
Theorem session_synced (qs : list request) (w : world) :
  session qs w = w
  \/ fs (session qs w) !! filepath (self w)
     = Some (serialize (records (self (session qs w)))).
Proof.
  destruct (session_changes qs w) as [H|H]; [by left|right].
  by rewrite <- (session_filepath qs w).
Qed.

(** X5: a session that changed something can be taken up again: if the
    records in memory at its end are ones the file format carries, a new
    manager on the same path loads exactly these records, and prints
    nothing. *)
Theorem session_reload (qs : list request) (w : world) (out : list diagnostic) :
  session qs w <> w ->
  Forall portable_record (records (self (session qs w))) ->
  init (filepath (self w)) (fs (session qs w)) out
  = inr {| self := self (session qs w); fs := fs (session qs w); stdout := out |}.
Proof.
  intros Hne H. destruct (session_changes qs w) as [Hw|Hs]; [done|].
  unfold init. rewrite <- (session_filepath qs w).
  rewrite (load_saved _ _ _ H Hs).
  cbn [mbind result_bind fst snd]. rewrite app_nil_r.
  by destruct (self (session qs w)).
Qed.

Lemma session_reload_witness :
  init (u "wallet.txt")
    (fs (session [Delete 5; Add (List.nth 2 example_reserved_dated no_description);
                  Edit 0 (List.nth 1 example_reserved_dated no_description); Delete 1]
           busy_world)) []
  = inr {| self := {| filepath := u "wallet.txt";
                      records := [List.nth 1 example_reserved_dated no_description;
                                  List.nth 2 example_reserved_dated no_description] |};
           fs := fs (session [Delete 5;
                              Add (List.nth 2 example_reserved_dated no_description);
                              Edit 0 (List.nth 1 example_reserved_dated no_description);
                              Delete 1] busy_world);
           stdout := [] |}.
Proof.
  apply (session_reload
           [Delete 5; Add (List.nth 2 example_reserved_dated no_description);
            Edit 0 (List.nth 1 example_reserved_dated no_description); Delete 1]
           busy_world []).
  - intros H. apply (f_equal (fun w => length (map_to_list (fs w)))) in H.
    vm_compute in H. discriminate H.
  - repeat constructor; try by_evaluation; by vm_compute.
Defined.

(** X6: deleting the record that was just added, at the position past the
    old ones, undoes the addition: the records are the old ones again and
    the file holds what save writes for them. *)
Theorem add_then_delete (r : FinanceRecord) (w : world) :
  delete_record (Z.of_nat (length (records (self w)))) (snd (add_record r w))
  = (inr tt,
     {| self := {| filepath := filepath (self w); records := records (self w) |};
        fs := <[filepath (self w) := serialize (records (self w))]> (fs w);
        stdout := stdout w |}).
Proof.
  unfold add_record, delete_record, saved, save_records.
  cbn [snd self records filepath fs stdout].
  rewrite length_app. cbn [length].
  replace (_ && _) with true
    by (symmetry; apply andb_true_iff; split; [apply Z.leb_le|apply Z.ltb_lt]; lia).
  rewrite Nat2Z.id, insert_insert_eq.
  by rewrite (delete_middle (records (self w)) [] r), app_nil_r.
Qed.

(** * What the parser gives and what it accepts *)

Section Parser.

Implicit Types (kvs : list (list N * list N)) (r : FinanceRecord).

Lemma split_newline_no_LF s line : line ∈ split NEWLINE s -> LF ∉ line.
Proof.
  revert line. induction s as [|c s IH]; intros line.
  - rewrite split_newline_nil. intros ->%list_elem_of_singleton. apply not_elem_of_nil.
  - rewrite split_newline_cons. destruct (N.eqb_spec c LF) as [->|Hc].
    + intros [->|H]%elem_of_cons; [apply not_elem_of_nil|by apply IH].
    + destruct (split NEWLINE s) as [|hd tl] eqn:E.
      * intros ->%list_elem_of_singleton.
        by intros [E'|?%not_elem_of_nil]%elem_of_cons.
      * intros [->|H]%elem_of_cons.
        -- intros [E'|H]%elem_of_cons; [done|].
           revert H. apply IH. by left.
        -- apply IH. by right.
Qed.

Lemma strip_no_LF s : LF ∉ s -> LF ∉ strip s.
Proof.
  intros H Hs. apply H. destruct (strip_split s) as (w1 & w2 & _ & _ & E).
  rewrite E. rewrite !elem_of_app. auto.
Qed.

(** The value that a line gives is readable. *)
Lemma cut_value_readable line k v :
  LF ∉ line -> cut KV_SEP (strip line) = Some (k, v) -> readable v.
Proof.
  intros HL Hc. apply cut_Some in Hc.
  assert (exists t c, v = t ++ [c] /\ isspace c = false) as (t & c & -> & Hsp).
  { destruct v as [|c t _] using rev_ind.
    - exfalso. rewrite app_nil_r in Hc.
      assert (strip line = (k ++ [58%N]) ++ [32%N]) as E
        by (rewrite Hc; unfold KV_SEP; by rewrite <- app_assoc).
      by apply strip_last in E.
    - exists t, c. split; [done|].
      rewrite !app_assoc in Hc. by apply strip_last in Hc. }
  split; [by destruct t|]. split; [by apply rstrip_snoc|].
  intros H. apply (strip_no_LF _ HL). rewrite Hc, !elem_of_app.
  apply elem_of_app in H as [H|H]; auto.
Qed.

Lemma parse_line_readable (st : gmap (list N) (list N) * list diagnostic) line :
  LF ∉ line ->
  map_Forall (fun _ v => readable v) (fst st) ->
  map_Forall (fun _ v => readable v) (fst (parse_line st line)).
Proof.
  intros HL H. unfold parse_line.
  destruct (bool_decide (strip line = DASHES) || bool_decide (strip line = []));
    [done|].
  cbn [split_max]. destruct (cut KV_SEP (strip line)) as [[k v]|] eqn:E; [|done].
  cbn [fst]. apply map_Forall_insert_2; [|done].
  by apply (cut_value_readable line k).
Qed.

Lemma parse_lines_readable (st : gmap (list N) (list N) * list diagnostic) ls :
  Forall (fun l => LF ∉ l) ls ->
  map_Forall (fun _ v => readable v) (fst st) ->
  map_Forall (fun _ v => readable v) (fst (fold_left parse_line ls st)).
Proof.
  intros H. revert st. induction H as [|l ls Hl _ IH]; intros st Hst; [done|].
  cbn [fold_left]. by apply IH, parse_line_readable.
Qed.

Lemma entry_readable e r :
  r ∈ fst (entry_result e) ->
  readable (date r) /\ readable (category r) /\ readable (description r)
  /\ exists text, readable text /\ float_of_str text = Some (amount r).
Proof.
  rewrite entry_records_data.
  pose proof (parse_lines_readable (∅, []) (split NEWLINE e)) as H.
  destruct (make_record _) as [x|r'] eqn:Hr; [by intros ?%not_elem_of_nil|].
  intros ->%list_elem_of_singleton.
  apply make_record_Some in Hr as (Hd & Hc & (text & Ha & Hf) & Ht).
  assert (map_Forall (fun _ v => readable v)
            (fst (fold_left parse_line (split NEWLINE e) (∅, [])))) as HF.
  { apply H; [|apply map_Forall_empty].
    apply Forall_forall. intros l. apply split_newline_no_LF. }
  split; [exact (HF _ _ Hd)|]. split; [exact (HF _ _ Hc)|].
  split; [exact (HF _ _ Ht)|]. exists text. split; [exact (HF _ _ Ha)|done].
Qed.

Lemma universal_newlines_blank s : blank s -> blank (universal_newlines s).
Proof.
  remember (length s) as n eqn:En. revert s En.
  induction n as [n IH] using lt_wf_ind. intros [|c s] En H; [done|].
  apply Forall_cons in H as [Hc H]. cbn [universal_newlines].
  cbn [length] in En.
  destruct (c =? CR)%N.
  - apply Forall_cons. split; [done|].
    destruct s as [|c' s]; [done|]. apply Forall_cons in H as [Hc' H].
    cbn [length] in En.
    destruct (c' =? LF)%N.
    + apply (IH (length s)); [lia|done|done].
    + apply (IH (S (length s))); [lia|done|by apply Forall_cons].
  - apply Forall_cons. split; [done|]. apply (IH (length s)); [lia|done|done].
Qed.

(** *** Blocks written by hand *)

Lemma lines_of_cons k v kvs :
  lines_of ((k, v) :: kvs) = field_line k v ++ LF :: lines_of kvs.
Proof. unfold lines_of. cbn [flat_map fst snd]. by rewrite <- app_assoc. Qed.

Lemma cut_lines_dashes kvs :
  Forall plain kvs -> cut ENTRY_SEP (lines_of kvs ++ DASHES) = None.
Proof.
  induction 1 as [|[k v] kvs [Hk Hv] _ IH]; [apply cut_dashes|].
  rewrite lines_of_cons, <- app_assoc. cbn [app]. cbn [fst snd] in Hk, Hv.
  rewrite (cut_field_line _ _ _ Hk (clean_unbroken _ Hv)). by rewrite IH.
Qed.

Lemma split_lines_dashes kvs :
  Forall plain kvs ->
  split NEWLINE (lines_of kvs ++ DASHES)
  = map (fun kv => field_line (fst kv) (snd kv)) kvs ++ [DASHES].
Proof.
  induction 1 as [|[k v] kvs [Hk Hv] _ IH]; [done|].
  rewrite lines_of_cons, <- app_assoc. cbn [app map fst snd]. cbn [fst snd] in Hk, Hv.
  rewrite split_newline_line, IH; [done|].
  apply field_line_no_LF; [done|]. by destruct Hv as (_ & _ & ? & _).
Qed.

Lemma parse_plain_lines kvs data out :
  Forall plain kvs ->
  fold_left parse_line (map (fun kv => field_line (fst kv) (snd kv)) kvs) (data, out)
  = (fold_left (fun data kv => <[fst kv := snd kv]> data) kvs data, out).
Proof.
  intros H. revert data. induction H as [|[k v] kvs [Hk Hv] _ IH]; intros data; [done|].
  cbn [map fold_left fst snd]. cbn [fst snd] in Hk, Hv.
  destruct Hv as (Hv1 & Hv2 & _).
  by rewrite parse_line_label, IH.
Qed.

Lemma strip_lines kvs :
  kvs <> [] -> Forall plain kvs ->
  strip (lines_of kvs ++ ENTRY_SEP) = lines_of kvs ++ DASHES.
Proof.
  intros Hne H. destruct kvs as [|[k v] kvs]; [done|].
  apply Forall_inv in H as [(_ & (c & k' & Hk & Hc & _) & _) _]. cbn [fst] in Hk.
  assert (lines_of ((k, v) :: kvs) ++ ENTRY_SEP
          = [] ++ (lines_of ((k, v) :: kvs) ++ DASHES) ++ [LF]) as ->.
  { cbn [app]. by rewrite <- !app_assoc. }
  rewrite strip_blank_around; [|constructor|by repeat constructor].
  assert (exists s, lines_of ((k, v) :: kvs) ++ DASHES = c :: s ++ [45%N]) as [s ->].
  { exists (k' ++ KV_SEP ++ v ++ LF :: lines_of kvs ++ [45; 45]%N).
    rewrite lines_of_cons, Hk. unfold field_line, DASHES.
    by repeat (rewrite <- app_assoc; cbn [app]). }
  by apply strip_edges.
Qed.

(** A block written by hand gives the record of the dict of its lines. *)
Lemma parse_lines_of kvs :
  kvs <> [] -> Forall plain kvs ->
  parse_records (lines_of kvs ++ ENTRY_SEP) = inr (record_of (dict_of kvs)).
Proof.
  intros Hne H. unfold parse_records.
  rewrite strip_lines, (split_uncut _ _ (cut_lines_dashes _ H)) by done.
  cbn [parse_entries mbind result_bind]. unfold parse_entry.
  rewrite <- (strip_lines kvs Hne H), strip_idemp, strip_lines by done.
  rewrite bool_decide_eq_false_2.
  2:{ destruct kvs as [|[k v] kvs]; [done|]. rewrite lines_of_cons.
      apply Forall_inv in H as [(_ & (c & k' & Hk & _) & _) _]. cbn [fst] in Hk.
      by rewrite Hk. }
  rewrite split_lines_dashes, fold_left_app, parse_plain_lines by done.
  cbn [fold_left snd]. rewrite parse_line_dashes.
  unfold record_of, dict_of.
  destruct (make_record _) as [x|r] eqn:Hx; [|done].
  by destruct (make_record_exn _ _ Hx) as [(key & -> & _)|(text & -> & _)].
Qed.

Lemma dict_of_snoc kvs k v : dict_of (kvs ++ [(k, v)]) = <[k := v]> (dict_of kvs).
Proof. unfold dict_of. by rewrite fold_left_app. Qed.

(** A key that appears once has the value of its line. *)
Lemma dict_of_lookup kvs k v :
  NoDup (map fst kvs) -> (k, v) ∈ kvs -> dict_of kvs !! k = Some v.
Proof.
  induction kvs as [|[k' v'] kvs IH] using rev_ind; [by intros _ ?%not_elem_of_nil|].
  rewrite map_app, dict_of_snoc. cbn [map fst].
  intros (Hnd & Hk & _)%NoDup_app. intros [H|H%list_elem_of_singleton]%elem_of_app.
  - rewrite lookup_insert_ne; [by apply IH|].
    intros ->. apply (Hk k); [|by left].
    apply list_elem_of_fmap. by exists (k, v).
  - injection H as -> ->. apply lookup_insert_eq.
Qed.


Lemma entry_result_strip e : entry_result (strip e) = entry_result e.
Proof. unfold entry_result, parse_entry. by rewrite strip_idemp. Qed.

Lemma cut_entry_sep_line_last l : LF ∉ l -> cut ENTRY_SEP l = None.
Proof.
  intros H. destruct (cut ENTRY_SEP l) as [[b a]|] eqn:E; [|done].
  apply cut_Some in E. exfalso. apply H. rewrite E. unfold ENTRY_SEP.
  rewrite !elem_of_app. right. left. by_evaluation.
Qed.

Lemma cut_body r :
  unbroken (date r) -> unbroken (category r) -> unbroken (description r) ->
  cut ENTRY_SEP (body r) = None.
Proof.
  intros Hd Hc Ht.
  pose proof (clean_unbroken _ (float_repr_clean (amount r))) as Ha.
  unfold body. repeat (rewrite <- app_assoc; cbn [app]).
  rewrite (cut_field_line _ _ _ label_date Hd).
  rewrite (cut_field_line _ _ _ label_category Hc).
  rewrite (cut_field_line _ _ _ label_amount Ha).
  rewrite cut_entry_sep_line_last; [done|].
  apply field_line_no_LF; [apply label_description|by destruct Ht].
Qed.

Lemma strip_open_block t r w :
  t = [] \/ (exists c t', t = c :: t' /\ isspace c = false) ->
  description r <> [] -> rstrip (description r) = description r -> blank w ->
  strip (t ++ body r ++ w) = t ++ body r.
Proof.
  intros Ht Hne Hr Hw.
  assert (t ++ body r ++ w = [] ++ (t ++ body r) ++ w) as ->
    by (cbn [app]; by rewrite <- app_assoc).
  rewrite strip_blank_around; [|constructor|done].
  destruct (clean_edges _ Hne Hr) as (d & c' & Hd & Hc').
  destruct (body_ends r) as (pre & E & _). rewrite E, Hd.
  destruct Ht as [->|(c & t' & -> & Hc)].
  - cbn [app]. rewrite app_assoc. by apply strip_edges.
  - cbn [app]. rewrite (app_comm_cons _ _ 1044%N), !app_assoc.
    by apply strip_edges.
Qed.

End Parser.

(** X7: whatever the content, parsing returns, and every record it returns
    has text fields that are not empty, have no whitespace at their end and
    no line break; its amount is what [float] makes of such a text. *)
Theorem parse_records_readable (content : list N) :
  exists rs out,
    parse_records content = inr (rs, out)
    /\ Forall (fun r =>
         readable (date r) /\ readable (category r) /\ readable (description r)
         /\ exists text, readable text /\ float_of_str text = Some (amount r)) rs.
Proof.
  rewrite parse_records_blocks. eexists _, _. split; [done|].
  unfold block_records. apply Forall_forall. intros r Hr.
  apply list_elem_of_In, in_flat_map in Hr as (e & _ & Hr).
  by apply (entry_readable e), list_elem_of_In.
Qed.

(** X8: a file that exists but holds whitespace only (or nothing) is loaded
    as no record at all, and nothing is printed. *)
Theorem init_blank_file (path : list N) (files : gmap (list N) (list N))
    (text : list N) (out : list diagnostic) :
  files !! path = Some text -> blank text ->
  init path files out
  = inr {| self := {| filepath := path; records := [] |}; fs := files; stdout := out |}.
Proof.
  intros Hf Hb. unfold init, load_records. rewrite Hf.
  rewrite (strip_blank (universal_newlines text)) by by apply universal_newlines_blank.
  cbn. by rewrite app_nil_r.
Qed.

Lemma init_blank_file_witness :
  init (u "wallet.txt") {[ u "wallet.txt" := [32; 13; 10; 9; 10]%N ]} []
  = inr {| self := {| filepath := u "wallet.txt"; records := [] |};
           fs := {[ u "wallet.txt" := [32; 13; 10; 9; 10]%N ]}; stdout := [] |}.
Proof.
  apply (init_blank_file (u "wallet.txt") {[ u "wallet.txt" := [32; 13; 10; 9; 10]%N ]}
           [32; 13; 10; 9; 10]%N []).
  - by vm_compute.
  - by repeat constructor.
Defined.

(** X9: a block may be written by hand: its lines may come in any order and
    lines with other keys are ignored.  If every line has a key of the
    format and a clean value, no key comes twice, and the four required keys
    are there with the fields of a record (the amount as any text that
    [float] reads as this amount), the block is parsed as this record and
    nothing is printed. *)
Theorem parse_block_by_hand (kvs : list (list N * list N)) (r : FinanceRecord)
    (amount_text : list N) :
  Forall plain kvs ->
  NoDup (map fst kvs) ->
  (KEY_DATE, date r) ∈ kvs ->
  (KEY_CATEGORY, category r) ∈ kvs ->
  (KEY_AMOUNT, amount_text) ∈ kvs ->
  float_of_str amount_text = Some (amount r) ->
  (KEY_DESCRIPTION, description r) ∈ kvs ->
  parse_records (lines_of kvs ++ ENTRY_SEP) = inr ([r], []).
Proof.
  intros H Hnd Hd Hc Ha Hf Ht.
  rewrite parse_lines_of; [|by intros ->; apply not_elem_of_nil in Hd|done].
  unfold record_of.
  replace (make_record (dict_of kvs)) with (inr r : result FinanceRecord); [done|].
  symmetry. apply make_record_Some.
  rewrite !(dict_of_lookup kvs _ _ Hnd) by done.
  split; [done|]. split; [done|]. split; [|done]. by exists amount_text.
Qed.

Lemma parse_block_by_hand_witness :
  parse_records (lines_of example_by_hand ++ ENTRY_SEP)
  = inr ([ {| date := u "2024-01-01"; category := INCOME; amount := 100;
              description := u "salary" |} ], []).
Proof.
  apply (parse_block_by_hand example_by_hand
           {| date := u "2024-01-01"; category := INCOME; amount := 100;
              description := u "salary" |} (u "100")).
  - repeat constructor; try by_evaluation; try done; by eexists _, _.
  - by_evaluation.
  - by_evaluation.
  - by_evaluation.
  - by_evaluation.
  - by vm_compute.
  - by_evaluation.
Defined.



(** X11: the delimiter after the last block is not needed: a file of saved
    clean records, followed by the four lines of one more clean record and
    nothing else than whitespace, is parsed as all these records, and
    nothing is printed. *)
Theorem parse_open_last_block (rs : list FinanceRecord) (r : FinanceRecord)
    (w : list N) :
  Forall clean_record rs -> clean_record r -> blank w ->
  parse_records (serialize rs ++ body r ++ w) = inr (rs ++ [r], []).
Proof.
  intros Hrs Hr Hw.
  destruct (clean_record_unbroken r Hr) as (Hd & Hc & Ht).
  pose proof Hr as (_ & _ & (Hne & Hrs' & _) & _).
  unfold parse_records.
  rewrite strip_open_block by (done || apply serialize_head).
  destruct (split_terminated _ (serialize_terminated rs)) as (es & Hes & ->).
  rewrite split_serialize_clean in Hes by done.
  apply app_inj_tail in Hes as [<- _].
  rewrite (split_uncut _ _ (cut_body r Hd Hc Ht)).
  rewrite parse_entries_eq, !flat_map_app. cbn [flat_map fst snd app].
  destruct (entries_clean rs Hrs) as [-> ->].
  rewrite <- (strip_content r Hne Hrs'), entry_result_strip.
  pose proof (entry_result_clean r [] Hr (or_introl eq_refl)) as E.
  rewrite app_nil_r in E. by rewrite E, !app_nil_r.
Qed.

Lemma parse_open_last_block_witness :
  parse_records
    (serialize (List.firstn 2 example_reserved_dated)
     ++ body (List.nth 2 example_reserved_dated no_description) ++ [LF])
  = inr (List.firstn 2 example_reserved_dated
         ++ [List.nth 2 example_reserved_dated no_description], []).
Proof.
  apply (parse_open_last_block (List.firstn 2 example_reserved_dated)
           (List.nth 2 example_reserved_dated no_description) [LF]).
  - repeat constructor; try by_evaluation; by vm_compute.
  - repeat constructor; try by_evaluation; by vm_compute.
  - by repeat constructor.
Defined.

(** * Queries and the records in memory *)

Lemma eqb_not_a_number (x a : float) :
  PrimFloat.eqb a a = false -> PrimFloat.eqb x a = false.
Proof.
  rewrite !FloatAxioms.eqb_spec. unfold SFeqb.
  destruct (Prim2SF a) as [s|s| |s m e]; cbn [SFcompare].
  - done.
  - by destruct s.
  - intros _. by destruct (Prim2SF x).
  - destruct s; rewrite Z.compare_refl; cbn [CompOpp];
      by rewrite ?Pos.compare_cont_refl, ?Pos.compare_refl.
Qed.

(** X23: a search for an amount that is not a number finds nothing,
    whatever the other filters and the records, also the records whose
    amount is this very value: [nan] is equal to no float. *)
Theorem search_records_nan (c d : option (list N)) (a : float) (m : FinanceManager) :
  PrimFloat.eqb a a = false -> search_records c d (Some a) m = [].
Proof.
  intros Ha. unfold search_records. rewrite search_loop. cbn [app].
  induction (records m) as [|r rs IH]; [done|]. cbn [List.filter].
  replace (matches c d (Some a) r) with false; [done|].
  unfold matches. rewrite (eqb_not_a_number _ _ Ha). by rewrite !andb_false_r.
Qed.

Lemma search_records_nan_witness :
  search_records None None (Some nan)
    {| filepath := []; records := [typed_record [] [] nan []] |} = [].
Proof.
  apply (search_records_nan None None nan
           {| filepath := []; records := [typed_record [] [] nan []] |}).
  by vm_compute.
Defined.

(** X24: a search after add sees the new record last, and only if it fits:
    the result is the result from before, followed by the added record when
    it matches the filters. *)
Theorem search_records_after_add (c d : option (list N)) (a : option float)
    (r : FinanceRecord) (w : world) :
  search_records c d a (self (snd (add_record r w)))
  = search_records c d a (self w) ++ (if matches c d a r then [r] else []).
Proof.
  unfold search_records, add_record. cbn [snd saved self records].
  rewrite !search_loop. cbn [app]. rewrite List.filter_app. cbn [List.filter].
  by destruct (matches c d a r).
Qed.

(** * The command line interface *)

Section Interface.

Implicit Types (t : terminal) (w : world) (o : output).

Lemma follows_refl t : follows t t.
Proof. repeat split; auto. Qed.

Lemma follows_trans t1 t2 t3 : follows t1 t2 -> follows t2 t3 -> follows t1 t3.
Proof.
  intros (A1 & A2 & A3 & A4 & A5 & A6) (B1 & B2 & B3 & B4 & B5 & B6).
  split; [congruence|]. split; [congruence|]. split.
  { intros path Hp. rewrite B3 by congruence. by apply A3. }
  split.
  { destruct B4 as [->|B4]; [done|by right]. }
  split; by etrans.
Qed.

Lemma follows_show o t : follows t (show o t).
Proof.
  repeat split; auto. cbn [shown show]. by apply prefix_app_r.
Qed.

Lemma tame_ret {A} ok (a : A) : tame ok (mret a).
Proof. intros t. split; [apply follows_refl|done]. Qed.

Lemma tame_bind {A B} ok (m : io A) (f : A -> io B) :
  tame ok m -> (forall a, tame ok (f a)) -> tame ok (m ≫= f).
Proof.
  intros Hm Hf t. specialize (Hm t).
  unfold mbind, io_bind. destruct (m t) as [[e|a] t']; [done|].
  destruct Hm as [Hm _]. cbn [fst snd] in Hm.
  destruct (Hf a t') as [H1 H2]. split; [by eapply follows_trans|done].
Qed.

Lemma tame_weaken {A} (ok ok' : raised -> Prop) (m : io A) :
  (forall e, ok e -> ok' e) -> tame ok m -> tame ok' m.
Proof.
  intros H Hm t. destruct (Hm t) as [H1 H2]. split; [done|].
  destruct (fst (m t)); auto.
Qed.

Lemma tame_input ok prompt : ok EOFError -> tame ok (input prompt).
Proof.
  intros H t. unfold input. destruct (stdin t) as [|line rest] eqn:E.
  - split; [apply follows_show|done].
  - split; [|done]. cbn [snd]. repeat split; auto; cbn [stdin shown].
    + rewrite E. by apply suffix_cons_r.
    + by apply prefix_app_r.
Qed.

Lemma tame_print ok line : tame ok (print line).
Proof. intros t. split; [apply follows_show|done]. Qed.

Lemma tame_float ok text :
  (forall x, ok (Exn (ValueError x))) -> tame ok (lift (float_ text)).
Proof.
  intros H t. unfold lift, float_.
  destruct (float_of_str text); (split; [apply follows_refl|cbn [fst]; auto]).
Qed.

Lemma tame_int ok text :
  (forall x, ok (Exn (ValueError x))) -> tame ok (lift (int_ text)).
Proof.
  intros H t. unfold lift, int_.
  destruct (int_of_str text); (split; [apply follows_refl|cbn [fst]; auto]).
Qed.

Lemma tame_the_manager ok : tame ok the_manager.
Proof. intros t. split; [apply follows_refl|done]. Qed.

Lemma perform_raises q w e :
  fst (perform q w) = inl e -> e = IndexError /\ exists index, q = Delete index.
Proof.
  destruct q as [r|i r|i]; cbn [perform];
    unfold add_record, edit_record, delete_record; try destruct (_ && _); try done.
  intros [= <-]. eauto.
Qed.

Lemma tame_call ok q :
  (forall index, q = Delete index -> ok (Exn IndexError)) -> tame ok (call (perform q)).
Proof.
  intros H t. unfold call.
  pose proof (perform_filepath q (manager t)) as H1.
  pose proof (perform_stdout q (manager t)) as H2.
  pose proof (perform_other_files q (manager t)) as H3.
  pose proof (perform_synced q (manager t)) as H4.
  pose proof (perform_raises q (manager t)) as H5.
  destruct (perform q (manager t)) as [r w']. cbn [fst snd] in *.
  split; [by repeat split|].
  destruct r as [e|[]]; [|done].
  destruct (H5 e eq_refl) as (-> & i & ->). by apply (H i).
Qed.

Lemma tame_try {A} (ok' ok : raised -> Prop) (body : io A) handler :
  tame ok' body ->
  (ok' EOFError -> ok EOFError) ->
  (forall e, ok' (Exn e) ->
     match handler e with
     | Some clause => tame ok clause
     | None => ok (Exn e)
     end) ->
  tame ok (try body handler).
Proof.
  intros Hb He Hh t. unfold try. destruct (Hb t) as [H1 H2].
  destruct (body t) as [[[e|]|a] t']; cbn [fst snd] in *; [|auto|done].
  specialize (Hh e H2). destruct (handler e) as [clause|]; [|done].
  destruct (Hh t') as [H3 H4]. split; [by eapply follows_trans|done].
Qed.

Lemma print_records_eq rs t :
  print_records rs t
  = (inr tt, {| manager := manager t; stdin := stdin t;
                shown := shown t ++ map Printed (flat_map record_lines rs) |}).
Proof.
  revert t. induction rs as [|r rs IH]; intros t.
  - cbn. rewrite app_nil_r. by destruct t.
  - cbn [print_records]. unfold print_record, mbind, io_bind, print, show.
    cbn [fst snd]. rewrite IH. cbn [manager stdin shown flat_map record_lines map app].
    unfold field_line. by repeat (rewrite <- app_assoc; cbn [app]).
Qed.

Lemma print_all_eq rs otherwise t :
  print_all rs otherwise t
  = (inr tt, {| manager := manager t; stdin := stdin t;
                shown := shown t ++ listing rs otherwise |}).
Proof.
  destruct rs as [|r rs]; [done|]. unfold print_all. by rewrite print_records_eq.
Qed.

Lemma tame_print_all ok rs otherwise : tame ok (print_all rs otherwise).
Proof.
  intros t. rewrite print_all_eq. split; [|done]. cbn [snd].
  repeat split; auto. cbn [shown]. by apply prefix_app_r.
Qed.

Lemma view_all_records_eq t :
  FinanceCLI.view_all_records t
  = (inr tt, {| manager := manager t; stdin := stdin t;
                shown := shown t ++ listing (records (self (manager t))) MSG_NO_RECORDS |}).
Proof.
  unfold FinanceCLI.view_all_records, mbind, io_bind, the_manager.
  by rewrite print_all_eq.
Qed.

Lemma escapes_EOF : escapes EOFError.
Proof. by left. Qed.

Lemma escapes_ValueError x : escapes (Exn (ValueError x)).
Proof. right. by exists x. Qed.

Lemma tame_view_all_records ok : tame ok FinanceCLI.view_all_records.
Proof.
  apply tame_bind; [apply tame_the_manager|]. intros m. apply tame_print_all.
Qed.

Lemma tame_add_record : tame escapes FinanceCLI.add_record.
Proof.
  unfold FinanceCLI.add_record.
  apply tame_bind; [apply tame_input, escapes_EOF|]. intros d.
  apply tame_bind; [apply tame_input, escapes_EOF|]. intros c.
  apply tame_bind.
  { apply tame_bind; [apply tame_input, escapes_EOF|]. intros a.
    apply tame_float, escapes_ValueError. }
  intros a.
  apply tame_bind; [apply tame_input, escapes_EOF|]. intros text.
  apply tame_bind; [|intros; apply tame_print].
  by apply (tame_call escapes (Add _)).
Qed.

Lemma tame_edit_record : tame escapes FinanceCLI.edit_record.
Proof.
  unfold FinanceCLI.edit_record.
  apply tame_bind; [apply tame_view_all_records|]. intros _.
  apply tame_bind.
  { apply tame_bind; [apply tame_input, escapes_EOF|]. intros a.
    apply tame_bind; [apply tame_int, escapes_ValueError|]. intros n.
    apply tame_ret. }
  intros index.
  apply tame_bind; [apply tame_input, escapes_EOF|]. intros d.
  apply tame_bind; [apply tame_input, escapes_EOF|]. intros c.
  apply tame_bind.
  { apply tame_bind; [apply tame_input, escapes_EOF|]. intros a.
    apply tame_float, escapes_ValueError. }
  intros a.
  apply tame_bind; [apply tame_input, escapes_EOF|]. intros text.
  apply tame_bind; [|intros; apply tame_print].
  by apply (tame_call escapes (Edit _ _)).
Qed.

Lemma tame_delete_record : tame escapes FinanceCLI.delete_record.
Proof.
  unfold FinanceCLI.delete_record.
  apply tame_bind; [apply tame_view_all_records|]. intros _.
  apply (tame_try escapes_or_index).
  - apply tame_bind.
    { apply tame_bind; [apply tame_input; left; apply escapes_EOF|]. intros a.
      apply tame_bind; [apply tame_int; intros x; left; apply escapes_ValueError|].
      intros n. apply tame_ret. }
    intros index.
    apply tame_bind; [|intros; apply tame_print].
    apply (tame_call escapes_or_index (Delete _)). intros _ _. by right.
  - intros _. apply escapes_EOF.
  - intros [key|text|] [[H|(x & H)]|H]; try done; apply tame_print.
Qed.

Lemma tame_search_records : tame escapes FinanceCLI.search_records.
Proof.
  unfold FinanceCLI.search_records.
  apply tame_bind; [apply tame_input, escapes_EOF|]. intros c.
  apply tame_bind; [apply tame_input, escapes_EOF|]. intros d.
  apply tame_bind; [apply tame_input, escapes_EOF|]. intros a.
  apply tame_bind.
  { destruct a; [apply tame_ret|].
    apply tame_bind; [apply tame_float, escapes_ValueError|]. intros x. apply tame_ret. }
  intros x.
  apply tame_bind; [apply tame_the_manager|]. intros m. apply tame_print_all.
Qed.

Lemma tame_display_finances ok : tame ok FinanceCLI.display_finances.
Proof.
  unfold FinanceCLI.display_finances.
  apply tame_bind; [apply tame_the_manager|]. intros m.
  repeat (apply tame_bind; [apply tame_print|intros _]). apply tame_print.
Qed.

Lemma tame_iteration : tame escapes FinanceCLI.iteration.
Proof.
  unfold FinanceCLI.iteration.
  apply tame_bind; [apply tame_input, escapes_EOF|]. intros line. cbv zeta.
  repeat (destruct (bool_decide _);
          [apply tame_bind; [|intros; apply tame_ret];
           first [apply tame_add_record | apply tame_edit_record
                 | apply tame_delete_record | apply tame_search_records
                 | apply tame_view_all_records | apply tame_display_finances
                 | apply tame_print]|]).
  apply tame_bind; [apply tame_print|intros; apply tame_ret].
Qed.

(** An iteration that does not raise has read a line. *)
Lemma iteration_reads t f t' :
  FinanceCLI.iteration t = (inr f, t') -> length (stdin t') < length (stdin t).
Proof.
  unfold FinanceCLI.iteration, mbind at 1, io_bind at 1, input.
  destruct (stdin t) as [|line rest] eqn:E; [done|].
  match goal with |- ?m ?t1 = _ -> _ =>
    assert (tame escapes m) as Hm; [|destruct (Hm t1) as [(_ & _ & _ & _ & Hs & _) _]]
  end.
  { cbv zeta.
    repeat (destruct (bool_decide _);
            [apply tame_bind; [|intros; apply tame_ret];
             first [apply tame_add_record | apply tame_edit_record
                   | apply tame_delete_record | apply tame_search_records
                   | apply tame_view_all_records | apply tame_display_finances
                   | apply tame_print]|]).
    apply tame_bind; [apply tame_print|intros; apply tame_ret]. }
  intros H. rewrite H in Hs. cbn [snd stdin] in Hs.
  apply suffix_length in Hs. cbn [length]. lia.
Qed.

Lemma while_true_ends fuel t :
  length (stdin t) < fuel ->
  exists r t',
    while_true fuel FinanceCLI.iteration t = Some (r, t')
    /\ follows t t'
    /\ match r with inl e => escapes e | inr _ => True end.
Proof.
  revert t. induction fuel as [|fuel IH]; intros t Hf; [lia|].
  cbn [while_true].
  destruct (tame_iteration t) as [H1 H2].
  destruct (FinanceCLI.iteration t) as [[e|[|]] t1] eqn:E; cbn [fst snd] in *.
  - by eexists _, _.
  - apply iteration_reads in E.
    destruct (IH t1) as (r & t' & -> & H3 & H4); [lia|].
    eexists _, _. split; [done|]. split; [by eapply follows_trans|done].
  - by eexists _, _.
Qed.

Lemma while_true_fuel fuel fuel' t :
  length (stdin t) < fuel -> length (stdin t) < fuel' ->
  while_true fuel FinanceCLI.iteration t = while_true fuel' FinanceCLI.iteration t.
Proof.
  revert fuel' t. induction fuel as [|fuel IH]; intros [|fuel'] t H H'; try lia.
  cbn [while_true].
  destruct (FinanceCLI.iteration t) as [[e|[|]] t1] eqn:E; try done.
  apply iteration_reads in E. apply IH; lia.
Qed.

(** What add does with four typed lines. *)
Lemma add_record_reads t d c a text rest x :
  stdin t = d :: c :: a :: text :: rest ->
  float_of_str a = Some x ->
  FinanceCLI.add_record t
  = (inr tt,
     {| manager := snd (add_record (typed_record d c x text) (manager t));
        stdin := rest;
        shown := (shown t ++ [Asked ASK_DATE; Asked ASK_CATEGORY; Asked ASK_AMOUNT])
                 ++ [Asked ASK_DESCRIPTION; Printed MSG_ADDED] |}).
Proof.
  intros Ht Ha. unfold FinanceCLI.add_record.
  unfold mbind, io_bind, input, lift, float_, mret, io_ret, call, print, show.
  cbn [stdin manager shown]. rewrite Ht. cbn [stdin manager shown]. rewrite Ha.
  cbn [stdin manager shown fst snd add_record].
  unfold typed_record. by repeat (rewrite <- app_assoc; cbn [app]).
Qed.

Lemma reads_only_ret {A} (a : A) : reads_only (mret a).
Proof. done. Qed.

Lemma reads_only_bind {A B} (m : io A) (f : A -> io B) :
  reads_only m -> (forall a, reads_only (f a)) -> reads_only (m ≫= f).
Proof.
  intros Hm Hf t. specialize (Hm t). unfold mbind, io_bind.
  destruct (m t) as [[e|a] t']; [done|]. cbn [snd] in Hm. by rewrite Hf.
Qed.

Lemma reads_only_input prompt : reads_only (input prompt).
Proof. intros t. unfold input. by destruct (stdin t). Qed.

Lemma reads_only_print line : reads_only (print line).
Proof. done. Qed.

Lemma reads_only_lift {A} (r : result A) : reads_only (lift r).
Proof. intros t. unfold lift. by destruct r. Qed.

Lemma reads_only_the_manager : reads_only the_manager.
Proof. done. Qed.

Lemma reads_only_print_all rs otherwise : reads_only (print_all rs otherwise).
Proof. intros t. by rewrite print_all_eq. Qed.

(** The lines of a listing, each with its line break, are the saved file. *)
Lemma record_lines_serialize rs :
  flat_map (fun l => l ++ [LF]) (flat_map record_lines rs) = serialize rs.
Proof.
  induction rs as [|r rs IH]; [done|].
  rewrite serialize_cons, <- IH. cbn [flat_map record_lines app].
  unfold content, ENTRY_SEP, DASHES.
  by repeat (rewrite <- app_assoc; cbn [app]).
Qed.

Lemma search_records_all m : search_records None None None m = records m.
Proof. unfold search_records. rewrite search_loop. by apply filter_all. Qed.

Lemma bind_inr {A B} (m : io A) (f : A -> io B) t a t' :
  m t = (inr a, t') -> (m ≫= f) t = f a t'.
Proof. intros H. unfold mbind, io_bind. by rewrite H. Qed.

Lemma input_cons prompt t line rest :
  stdin t = line :: rest ->
  input prompt t
  = (inr line, {| manager := manager t; stdin := rest;
                  shown := shown t ++ [Asked prompt] |}).
Proof. intros H. unfold input. by rewrite H. Qed.

(** The loop, one iteration at a time. *)
Lemma run_unfold t :
  FinanceCLI.run t
  = match FinanceCLI.iteration t with
    | (inl e, t') => Some (inl e, t')
    | (inr Break, t') => Some (inr tt, t')
    | (inr Continue, t') => FinanceCLI.run t'
    end.
Proof.
  unfold FinanceCLI.run.
  change (while_true (S (length (stdin t))) FinanceCLI.iteration t)
    with (match FinanceCLI.iteration t with
          | (inl e, t') => Some (inl e, t')
          | (inr Break, t') => Some (inr tt, t')
          | (inr Continue, t') => while_true (length (stdin t)) FinanceCLI.iteration t'
          end).
  destruct (FinanceCLI.iteration t) as [[e|[|]] t'] eqn:E; try done.
  apply iteration_reads in E. apply while_true_fuel; lia.
Qed.

Lemma iteration_other t line rest :
  stdin t = line :: rest -> strip line ∉ choices ->
  FinanceCLI.iteration t
  = (inr Continue, {| manager := manager t; stdin := rest;
                      shown := shown t ++ [Asked MENU; Printed MSG_BAD_CHOICE] |}).
Proof.
  intros Ht Hc. unfold FinanceCLI.iteration.
  rewrite (bind_inr _ _ _ _ _ (input_cons MENU t line rest Ht)).
  cbv beta zeta. unfold choices in Hc.
  repeat (rewrite bool_decide_eq_false_2;
          [|intros E; apply Hc; rewrite E; by_evaluation]).
  unfold mbind, io_bind, print, mret, io_ret, show. cbn [manager stdin shown].
  rewrite <- app_assoc. by cbn [app].
Qed.

Lemma iteration_exit t line rest :
  stdin t = line :: rest -> strip line = u "7" ->
  FinanceCLI.iteration t
  = (inr Break, {| manager := manager t; stdin := rest;
                   shown := shown t ++ [Asked MENU; Printed MSG_EXIT] |}).
Proof.
  intros Ht Hc. unfold FinanceCLI.iteration.
  rewrite (bind_inr _ _ _ _ _ (input_cons MENU t line rest Ht)).
  cbv beta zeta. rewrite Hc.
  repeat (rewrite bool_decide_eq_false_2; [|by_evaluation]).
  rewrite bool_decide_eq_true_2 by done.
  unfold mbind, io_bind, print, mret, io_ret, show. cbn [manager stdin shown].
  rewrite <- app_assoc. by cbn [app].
Qed.

End Interface.

(** X12: on a finite input the loop of [run] always ends, after at most one
    iteration more than there are lines, however large the bound: it returns
    (the choice 7), or the input ends ([EOFError]), or a conversion of a
    typed amount or number fails ([ValueError]).  No other exception leaves
    it, [IndexError] in particular. *)
Theorem run_ends (t : terminal) :
  exists r t',
    FinanceCLI.run t = Some (r, t')
    /\ (r = inr tt \/ r = inl EOFError \/ exists text, r = inl (Exn (ValueError text)))
    /\ forall fuel, length (stdin t) < fuel ->
         while_true fuel FinanceCLI.iteration t = Some (r, t').
Proof.
  unfold FinanceCLI.run.
  destruct (while_true_ends (S (length (stdin t))) t) as (r & t' & E & _ & Hr); [lia|].
  exists r, t'. split; [done|]. split.
  - destruct r as [e|[]]; [|by left]. right.
    destruct Hr as [->|[text ->]]; [by left|right; by exists text].
  - intros fuel Hf. rewrite <- E. apply while_true_fuel; lia.
Qed.

(** X13: whatever is typed, [run] keeps to the file of the manager: the file
    path and the printed diagnostics of the manager stay, every other file
    is as it was, and the file of the manager is either untouched, with the
    manager unchanged, or holds what save writes for the records in memory;
    input is only consumed and what was shown stays shown. *)
Theorem run_frame (t : terminal) (r : raised + unit) (t' : terminal) :
  FinanceCLI.run t = Some (r, t') ->
  filepath (self (manager t')) = filepath (self (manager t))
  /\ stdout (manager t') = stdout (manager t)
  /\ (forall path, path <> filepath (self (manager t)) ->
        fs (manager t') !! path = fs (manager t) !! path)
  /\ (manager t' = manager t
      \/ fs (manager t') !! filepath (self (manager t))
         = Some (serialize (records (self (manager t')))))
  /\ stdin t' `suffix_of` stdin t
  /\ shown t `prefix_of` shown t'.
Proof.
  unfold FinanceCLI.run. intros E.
  destruct (while_true_ends (S (length (stdin t))) t)
    as (r0 & t0 & E0 & (H1 & H2 & H3 & H4 & H5 & H6) & _); [lia|].
  rewrite E in E0. injection E0 as <- <-.
  repeat (split; [done|]). split; [|done].
  destruct H4 as [H4|H4]; [by left|right]. by rewrite <- H1.
Qed.

Lemma run_frame_witness :
  exists r t',
    FinanceCLI.run (example_terminal [u "3"; u "2"; u "1"; u "d"; u "c"; u "x"]) = Some (r, t')
    /\ filepath (self (manager t')) = u "wallet.txt"
    /\ stdin t' = [].
Proof.
  destruct (FinanceCLI.run (example_terminal [u "3"; u "2"; u "1"; u "d"; u "c"; u "x"]))
    as [[r t']|] eqn:E; [|by vm_compute in E].
  exists r, t'. split; [done|].
  destruct (run_frame _ r t' E) as (H1 & _ & _ & _ & _ & _).
  split; [exact H1|].
  vm_compute in E. by injection E as <- <-.
Defined.

(** X14: delete in the interface takes the number of a record, counted from
    1.  A number of an existing record deletes this record; any other number
    only shows that there is no such record; a text of ASCII characters that
    is no number only shows that the input is wrong.  In neither case an
    exception leaves the method, and in the last two nothing changes. *)
Theorem cli_delete_record_typed (t : terminal) (text : list N) (rest : list (list N)) :
  stdin t = text :: rest ->
  let before :=
    shown t ++ listing (records (self (manager t))) MSG_NO_RECORDS
    ++ [Asked ASK_DELETE_NUMBER] in
  (forall n, int_of_str text = Some n -> in_range (n - 1) (manager t) ->
     FinanceCLI.delete_record t
     = (inr tt, {| manager := snd (delete_record (n - 1) (manager t));
                   stdin := rest;
                   shown := before ++ [Printed MSG_DELETED] |})
     /\ records (self (snd (delete_record (n - 1) (manager t))))
        = delete (Z.to_nat (n - 1)) (records (self (manager t))))
  /\ (forall n, int_of_str text = Some n -> ~ in_range (n - 1) (manager t) ->
        FinanceCLI.delete_record t
        = (inr tt, {| manager := manager t; stdin := rest;
                      shown := before ++ [Printed MSG_NO_SUCH_NUMBER] |}))
  /\ (ascii_text text -> int_of_str text = None ->
        FinanceCLI.delete_record t
        = (inr tt, {| manager := manager t; stdin := rest;
                      shown := before ++ [Printed MSG_BAD_NUMBER] |})).
Proof.
  intros Ht before. subst before.
  assert (FinanceCLI.delete_record t
          = try (index ← (n ← lift (int_ text); mret (n - 1)%Z);
                 call (delete_record index);; print MSG_DELETED)
                (fun e =>
                   match e with
                   | IndexError => Some (print MSG_NO_SUCH_NUMBER)
                   | ValueError _ => Some (print MSG_BAD_NUMBER)
                   | KeyError _ => None
                   end)
                {| manager := manager t; stdin := rest;
                   shown := shown t ++ listing (records (self (manager t))) MSG_NO_RECORDS
                            ++ [Asked ASK_DELETE_NUMBER] |}) as ->.
  { unfold FinanceCLI.delete_record, mbind at 1, io_bind at 1.
    rewrite view_all_records_eq.
    unfold try, mbind, io_bind, input. cbn [stdin manager shown]. rewrite Ht.
    by rewrite <- !app_assoc. }
  unfold try, mbind, io_bind, lift, int_, mret, io_ret, call, print, show.
  split; [|split].
  - intros n -> Hn. unfold delete_record. cbn [manager stdin shown].
    by rewrite (in_range_test _ _ Hn).
  - intros n -> Hn. unfold delete_record. cbn [manager stdin shown].
    by rewrite (out_of_range_test _ _ Hn).
  - by intros _ ->.
Qed.

Lemma cli_delete_record_typed_witness :
  records (self (manager (snd (FinanceCLI.delete_record (example_terminal [u "2"; u "7"])))))
  = [List.nth 0 example_reserved_dated no_description;
     List.nth 2 example_reserved_dated no_description]
  /\ FinanceCLI.delete_record (example_terminal [u "0"; u "7"])
     = (inr tt,
        {| manager := example_world example_reserved_dated; stdin := [u "7"];
           shown := (listing example_reserved_dated MSG_NO_RECORDS
                     ++ [Asked ASK_DELETE_NUMBER]) ++ [Printed MSG_NO_SUCH_NUMBER] |})
  /\ FinanceCLI.delete_record (example_terminal [u "two"; u "7"])
     = (inr tt,
        {| manager := example_world example_reserved_dated; stdin := [u "7"];
           shown := (listing example_reserved_dated MSG_NO_RECORDS
                     ++ [Asked ASK_DELETE_NUMBER]) ++ [Printed MSG_BAD_NUMBER] |}).
Proof.
  split; [|split].
  - destruct (cli_delete_record_typed (example_terminal [u "2"; u "7"]) (u "2") [u "7"]
                eq_refl) as (H & _ & _).
    destruct (H 2%Z) as [-> _]; [by vm_compute|by vm_compute|]. by vm_compute.
  - destruct (cli_delete_record_typed (example_terminal [u "0"; u "7"]) (u "0") [u "7"]
                eq_refl) as (_ & H & _).
    apply (H 0%Z); [by vm_compute|]. unfold in_range. lia.
  - destruct (cli_delete_record_typed (example_terminal [u "two"; u "7"]) (u "two") [u "7"]
                eq_refl) as (_ & _ & H).
    apply H; [|by vm_compute]. repeat constructor.
Defined.

(** X15: edit in the interface always says that the record was updated:
    with a number and an amount that convert, the manager is asked to edit
    at the number minus one, with the typed lines as they are, and the
    message of success is shown; when this position is out of range nothing
    has changed all the same. *)
Theorem cli_edit_record_typed (t : terminal)
    (text date category amount_text description : list N) (rest : list (list N))
    (n : Z) (amount : float) :
  stdin t = text :: date :: category :: amount_text :: description :: rest ->
  int_of_str text = Some n ->
  float_of_str amount_text = Some amount ->
  FinanceCLI.edit_record t
  = (inr tt,
     {| manager := snd (edit_record (n - 1)
                          (typed_record date category amount description) (manager t));
        stdin := rest;
        shown := shown t ++ listing (records (self (manager t))) MSG_NO_RECORDS
                 ++ [Asked ASK_EDIT_NUMBER; Asked ASK_NEW_DATE; Asked ASK_NEW_CATEGORY;
                     Asked ASK_NEW_AMOUNT; Asked ASK_NEW_DESCRIPTION;
                     Printed MSG_UPDATED] |})
  /\ (~ in_range (n - 1) (manager t) ->
      snd (edit_record (n - 1) (typed_record date category amount description) (manager t))
      = manager t).
Proof.
  intros Ht Hn Ha. split.
  - unfold FinanceCLI.edit_record, mbind at 1, io_bind at 1.
    rewrite view_all_records_eq.
    unfold mbind, io_bind, input, lift, int_, float_, mret, io_ret, call, print, show.
    cbn [stdin manager shown]. rewrite Ht, Hn. cbn [stdin manager shown]. rewrite Ha.
    cbn [stdin manager shown].
    destruct (edit_record _ _ _) as [[e|[]] w'] eqn:E.
    + exfalso. revert E. unfold edit_record. by destruct (_ && _).
    + cbn [snd manager stdin shown]. unfold typed_record.
      by repeat (rewrite <- app_assoc; cbn [app]).
  - intros Hr. unfold edit_record. by rewrite (out_of_range_test _ _ Hr).
Qed.

Lemma cli_edit_record_typed_witness :
  snd (FinanceCLI.edit_record
         (example_terminal [u "0"; u "2024-02-02"; INCOME; u "1e3"; u "bonus"; u "7"]))
  = {| manager := example_world example_reserved_dated;
       stdin := [u "7"];
       shown := listing example_reserved_dated MSG_NO_RECORDS
                ++ [Asked ASK_EDIT_NUMBER; Asked ASK_NEW_DATE; Asked ASK_NEW_CATEGORY;
                    Asked ASK_NEW_AMOUNT; Asked ASK_NEW_DESCRIPTION;
                    Printed MSG_UPDATED] |}.
Proof.
  destruct (cli_edit_record_typed
              (example_terminal [u "0"; u "2024-02-02"; INCOME; u "1e3"; u "bonus"; u "7"])
              (u "0") (u "2024-02-02") INCOME (u "1e3") (u "bonus") [u "7"] 0 1000
              eq_refl) as [-> H]; [by vm_compute|by vm_compute|].
  cbn [snd]. rewrite H; [done|].
  unfold in_range. cbn. lia.
Defined.

(** X16: add in the interface takes the typed lines as they are, without
    stripping or checking them: with an amount that converts, the record of
    the four lines is added by the manager and the message of success is
    shown; with an amount of ASCII characters that does not convert,
    [ValueError] leaves the method before the description is asked, and
    nothing has changed. *)
Theorem cli_add_record_typed (t : terminal) (date category amount_text : list N)
    (rest : list (list N)) :
  stdin t = date :: category :: amount_text :: rest ->
  let asked := shown t ++ [Asked ASK_DATE; Asked ASK_CATEGORY; Asked ASK_AMOUNT] in
  (forall amount description rest',
     float_of_str amount_text = Some amount -> rest = description :: rest' ->
     FinanceCLI.add_record t
     = (inr tt,
        {| manager := snd (add_record (typed_record date category amount description)
                             (manager t));
           stdin := rest';
           shown := asked ++ [Asked ASK_DESCRIPTION; Printed MSG_ADDED] |}))
  /\ (ascii_text amount_text -> float_of_str amount_text = None ->
      FinanceCLI.add_record t
      = (inl (Exn (ValueError amount_text)),
         {| manager := manager t; stdin := rest; shown := asked |})).
Proof.
  intros Ht asked. subst asked. split.
  - intros amount description rest' Ha ->. by apply (add_record_reads _ _ _ amount_text).
  - intros _ Ha. unfold FinanceCLI.add_record.
    unfold mbind, io_bind, input, lift, float_, mret, io_ret, call, print, show.
    cbn [stdin manager shown]. rewrite Ht. cbn [stdin manager shown]. rewrite Ha.
    by repeat (rewrite <- app_assoc; cbn [app]).
Qed.

Lemma cli_add_record_typed_witness :
  FinanceCLI.add_record (example_terminal [u "tomorrow"; u "?"; u " 12.50 "; u " "; u "7"])
  = (inr tt,
     {| manager := snd (add_record (typed_record (u "tomorrow") (u "?") 12.5 (u " "))
                          (example_world example_reserved_dated));
        stdin := [u "7"];
        shown := [Asked ASK_DATE; Asked ASK_CATEGORY; Asked ASK_AMOUNT]
                 ++ [Asked ASK_DESCRIPTION; Printed MSG_ADDED] |})
  /\ FinanceCLI.add_record (example_terminal [u "tomorrow"; u "?"; u "12,5"; u " "; u "7"])
     = (inl (Exn (ValueError (u "12,5"))),
        {| manager := example_world example_reserved_dated; stdin := [u " "; u "7"];
           shown := [Asked ASK_DATE; Asked ASK_CATEGORY; Asked ASK_AMOUNT] |}).
Proof.
  split.
  - destruct (cli_add_record_typed
                (example_terminal [u "tomorrow"; u "?"; u " 12.50 "; u " "; u "7"])
                (u "tomorrow") (u "?") (u " 12.50 ") [u " "; u "7"] eq_refl) as [H _].
    apply (H 12.5%float (u " ") [u "7"]); by vm_compute.
  - destruct (cli_add_record_typed
                (example_terminal [u "tomorrow"; u "?"; u "12,5"; u " "; u "7"])
                (u "tomorrow") (u "?") (u "12,5") [u " "; u "7"] eq_refl) as [_ H].
    apply H; [|by vm_compute]. repeat constructor.
Defined.

(** X17: a record typed with an empty description is accepted, added and
    saved, and the interface says so, but it is not there after a restart:
    on a ledger of records that the file format carries, a new manager on
    the same file loads the old records only, and the load prints a
    diagnostic saying that a block was given up. *)
Theorem cli_add_empty_description_lost (t : terminal)
    (date category amount_text : list N) (rest : list (list N)) (amount : float)
    (out : list diagnostic) :
  stdin t = date :: category :: amount_text :: [] :: rest ->
  float_of_str amount_text = Some amount ->
  Forall portable_record (records (self (manager t))) ->
  LF ∉ date -> CR ∉ date -> LF ∉ category -> CR ∉ category ->
  fst (FinanceCLI.add_record t) = inr tt
  /\ last (shown (snd (FinanceCLI.add_record t))) = Some (Printed MSG_ADDED)
  /\ records (self (manager (snd (FinanceCLI.add_record t))))
     = records (self (manager t)) ++ [typed_record date category amount []]
  /\ exists printed,
       init (filepath (self (manager t))) (fs (manager (snd (FinanceCLI.add_record t)))) out
       = inr {| self := {| filepath := filepath (self (manager t));
                           records := records (self (manager t)) |};
                fs := fs (manager (snd (FinanceCLI.add_record t)));
                stdout := out ++ printed |}
       /\ exists d, d ∈ printed /\ gives_up d.
Proof.
  intros Ht Ha Hrs Hd1 Hd2 Hc1 Hc2.
  rewrite (add_record_reads _ _ _ _ _ _ _ Ht Ha).
  cbn [fst snd shown manager add_record saved self records fs save_records filepath].
  split; [done|]. split; [by rewrite last_app|]. split; [done|].
  set (r := typed_record date category amount []).
  set (rs := records (self (manager t))) in *.
  assert (hollow r) as Hr.
  { split; [by right; right|]. repeat split; try done. apply not_elem_of_nil. }
  assert (load_records (filepath (self (manager t)))
            (save_records {| filepath := filepath (self (manager t));
                             records := rs ++ [r] |} (fs (manager t)))
          = inr (rs, block_diags (strip (serialize (rs ++ [r]))))) as Hload.
  { unfold load_records, save_records. cbn [filepath records].
    rewrite lookup_insert_eq, universal_newlines_id.
    2:{ rewrite serialize_app. intros [H|H]%elem_of_app.
        - by apply (serialize_no_CR rs).
        - revert H. rewrite serialize_cons. cbn [serialize fold_left].
          rewrite app_nil_r.
          apply (block_no_CR r); try done. apply not_elem_of_nil. }
    rewrite parse_records_blocks, strip_idemp. do 2 f_equal.
    rewrite blocks_strip_serialize, blocks_serialize_app.
    destruct (blocks_serialize_clean rs (portable_clean _ Hrs)) as [-> _].
    rewrite serialize_cons. cbn [serialize fold_left]. rewrite !app_nil_r.
    by rewrite (hollow_no_record r ENTRY_SEP Hr (or_introl eq_refl)), app_nil_r. }
  exists (block_diags (strip (serialize (rs ++ [r])))). split.
  - unfold init. by rewrite Hload.
  - rewrite strip_serialize_snoc.
    destruct (blocks_app _ (content r ++ DASHES) (serialize_terminated rs)) as [_ ->].
    destruct (hollow_report r DASHES Hr (or_intror eq_refl)) as (d & Hin & Hg).
    exists d. split; [|done]. apply elem_of_app. by right.
Qed.

Lemma cli_add_empty_description_lost_witness :
  exists printed,
    init (u "wallet.txt")
      (fs (manager (snd (FinanceCLI.add_record
                           (example_terminal [u "2024-03-01"; EXPENSE; u "5"; []; u "7"]))))) []
    = inr {| self := {| filepath := u "wallet.txt"; records := example_reserved_dated |};
             fs := fs (manager (snd (FinanceCLI.add_record
                     (example_terminal [u "2024-03-01"; EXPENSE; u "5"; []; u "7"]))));
             stdout := [] ++ printed |}
    /\ exists d, d ∈ printed /\ gives_up d.
Proof.
  apply (cli_add_empty_description_lost
           (example_terminal [u "2024-03-01"; EXPENSE; u "5"; []; u "7"])
           (u "2024-03-01") EXPENSE (u "5") [u "7"] 5 []).
  - done.
  - by vm_compute.
  - repeat constructor; try by_evaluation; by vm_compute.
  - by_evaluation.
  - by_evaluation.
  - by_evaluation.
  - by_evaluation.
Defined.

(** X18: search, view and balance only read: whatever is typed, the
    manager, its records and the files are afterwards as before; view and
    balance moreover read no input and never raise. *)
Theorem queries_read_only (t : terminal) :
  manager (snd (FinanceCLI.search_records t)) = manager t
  /\ (fst (FinanceCLI.view_all_records t) = inr tt
      /\ manager (snd (FinanceCLI.view_all_records t)) = manager t
      /\ stdin (snd (FinanceCLI.view_all_records t)) = stdin t)
  /\ (fst (FinanceCLI.display_finances t) = inr tt
      /\ manager (snd (FinanceCLI.display_finances t)) = manager t
      /\ stdin (snd (FinanceCLI.display_finances t)) = stdin t).
Proof.
  split; [|split].
  - revert t. unfold FinanceCLI.search_records.
    repeat (apply reads_only_bind; [apply reads_only_input|intros ?]).
    apply reads_only_bind.
    { destruct a1; [apply reads_only_ret|].
      apply reads_only_bind; [apply reads_only_lift|intros; apply reads_only_ret]. }
    intros x. apply reads_only_bind; [apply reads_only_the_manager|].
    intros m. apply reads_only_print_all.
  - by rewrite view_all_records_eq.
  - done.
Qed.

(** X19: what view lists is the saved file: for a ledger that is not empty,
    view prints lines, and nothing else, that make up, each with its line
    break, exactly the text that save writes for the records. *)
Theorem view_all_records_shows_file (t : terminal) :
  records (self (manager t)) <> [] ->
  exists ls,
    shown (snd (FinanceCLI.view_all_records t)) = shown t ++ map Printed ls
    /\ flat_map (fun l => l ++ [LF]) ls = serialize (records (self (manager t))).
Proof.
  intros Hne. rewrite view_all_records_eq. cbn [snd shown].
  exists (flat_map record_lines (records (self (manager t)))).
  split; [|apply record_lines_serialize].
  by destruct (records (self (manager t))).
Qed.

Lemma view_all_records_shows_file_witness :
  exists ls,
    shown (snd (FinanceCLI.view_all_records (example_terminal []))) = [] ++ map Printed ls
    /\ flat_map (fun l => l ++ [LF]) ls = serialize example_reserved_dated.
Proof.
  apply (view_all_records_shows_file (example_terminal [])). by vm_compute.
Defined.

(** X20: a search with the three questions left empty filters nothing: it
    lists every record, as view does, and says that no records were found
    only when the ledger is empty. *)
Theorem cli_search_no_filter (t : terminal) (rest : list (list N)) :
  stdin t = [] :: [] :: [] :: rest ->
  FinanceCLI.search_records t
  = (inr tt,
     {| manager := manager t; stdin := rest;
        shown := (shown t ++ [Asked ASK_FIND_CATEGORY; Asked ASK_FIND_DATE;
                              Asked ASK_FIND_AMOUNT])
                 ++ listing (records (self (manager t))) MSG_NOT_FOUND |}).
Proof.
  intros Ht. unfold FinanceCLI.search_records.
  unfold mbind, io_bind, input, mret, io_ret, the_manager.
  cbn [stdin manager shown]. rewrite Ht. cbn [stdin manager shown if_given].
  rewrite search_records_all, print_all_eq. cbn [stdin manager shown].
  by repeat (rewrite <- app_assoc; cbn [app]).
Qed.

Lemma cli_search_no_filter_witness :
  FinanceCLI.search_records (example_terminal [[]; []; []; u "7"])
  = (inr tt,
     {| manager := example_world example_reserved_dated; stdin := [u "7"];
        shown := ([] ++ [Asked ASK_FIND_CATEGORY; Asked ASK_FIND_DATE; Asked ASK_FIND_AMOUNT])
                 ++ listing example_reserved_dated MSG_NOT_FOUND |}).
Proof.
  apply (cli_search_no_filter (example_terminal [[]; []; []; u "7"]) [u "7"]). done.
Defined.

(** X21: the choice is compared after stripping it.  Any line that is then
    none of 1 to 7 only shows the message of a wrong choice, and the loop
    goes on with the next line as if it had started there; the choice 7
    shows the message of the exit and returns, leaving the rest of the input
    unread. *)
Theorem run_other_choice (t : terminal) (line : list N) (rest : list (list N)) :
  stdin t = line :: rest ->
  (strip line ∉ choices ->
   FinanceCLI.run t
   = FinanceCLI.run {| manager := manager t; stdin := rest;
                       shown := shown t ++ [Asked MENU; Printed MSG_BAD_CHOICE] |})
  /\ (strip line = u "7" ->
      FinanceCLI.run t
      = Some (inr tt, {| manager := manager t; stdin := rest;
                         shown := shown t ++ [Asked MENU; Printed MSG_EXIT] |})).
Proof.
  intros Ht. split.
  - intros Hc. by rewrite run_unfold, (iteration_other t line rest Ht Hc).
  - intros Hc. by rewrite run_unfold, (iteration_exit t line rest Ht Hc).
Qed.

Lemma run_other_choice_witness :
  FinanceCLI.run (example_terminal [u " 8 "; u "7 "; u "1"])
  = Some (inr tt,
          {| manager := example_world example_reserved_dated; stdin := [u "1"];
             shown := ([] ++ [Asked MENU; Printed MSG_BAD_CHOICE])
                      ++ [Asked MENU; Printed MSG_EXIT] |}).
Proof.
  destruct (run_other_choice (example_terminal [u " 8 "; u "7 "; u "1"]) (u " 8 ")
              [u "7 "; u "1"] eq_refl) as [H1 _].
  rewrite H1; [|by_evaluation].
  destruct (run_other_choice
              {| manager := example_world example_reserved_dated;
                 stdin := [u "7 "; u "1"];
                 shown := [] ++ [Asked MENU; Printed MSG_BAD_CHOICE] |} (u "7 ")
              [u "1"] eq_refl) as [_ H2].
  apply H2. by vm_compute.
Defined.

(** X22: balance shows the three values of [calculate_finances] as Python
    formats floats, income first, when the ledger has a record of income and
    one of expense; on a ledger with neither, the three values are the
    integer 0 and are shown as [0], not as [0.0]. *)
Theorem display_finances_shows (t : terminal) :
  let m := self (manager t) in
  let balance := fst (fst (calculate_finances m)) in
  let total_income := snd (fst (calculate_finances m)) in
  let total_expense := snd (calculate_finances m) in
  (amounts_of INCOME (records m) <> [] /\ amounts_of EXPENSE (records m) <> [] ->
   shown (snd (FinanceCLI.display_finances t))
   = shown t ++ [Printed (TOTAL_INCOME ++ float_repr total_income);
                 Printed (TOTAL_EXPENSE ++ float_repr total_expense);
                 Printed (BALANCE ++ float_repr balance)])
  /\ (amounts_of INCOME (records m) = [] /\ amounts_of EXPENSE (records m) = [] ->
      shown (snd (FinanceCLI.display_finances t))
      = shown t ++ [Printed (TOTAL_INCOME ++ u "0"); Printed (TOTAL_EXPENSE ++ u "0");
                    Printed (BALANCE ++ u "0")]).
Proof.
  cbv zeta. unfold calculate_finances, FinanceCLI.display_finances.
  unfold mbind, io_bind, the_manager, print, show. cbn [fst snd shown manager].
  split.
  - intros [Hi He].
    destruct (amounts_of INCOME _) as [|i incomes]; [done|].
    destruct (amounts_of EXPENSE _) as [|e expenses]; [done|].
    cbn [total_text balance_text]. by repeat (rewrite <- app_assoc; cbn [app]).
  - intros [-> ->]. cbn [total_text balance_text].
    by repeat (rewrite <- app_assoc; cbn [app]).
Qed.

(** X25: a record typed with fields that the file format carries is there
    after a restart: on a ledger of such records, after add in the interface
    a new manager on the same file loads the old records followed by the
    record of the typed lines, with the amount as [float] read it, and the
    load prints nothing. *)
Theorem cli_add_then_restart (t : terminal)
    (date category amount_text description : list N) (rest : list (list N))
    (amount : float) (out : list diagnostic) :
  stdin t = date :: category :: amount_text :: description :: rest ->
  float_of_str amount_text = Some amount ->
  Forall portable_record (records (self (manager t))) ->
  portable_record (typed_record date category amount description) ->
  init (filepath (self (manager t))) (fs (manager (snd (FinanceCLI.add_record t)))) out
  = inr {| self := {| filepath := filepath (self (manager t));
                      records := records (self (manager t))
                                 ++ [typed_record date category amount description] |};
           fs := fs (manager (snd (FinanceCLI.add_record t)));
           stdout := out |}.
Proof.
  intros Ht Ha Hrs Hr.
  rewrite (add_record_reads _ _ _ _ _ _ _ Ht Ha).
  cbn [snd manager add_record saved fs save_records filepath records].
  unfold init.
  rewrite (load_saved _ (records (self (manager t))
                         ++ [typed_record date category amount description])).
  - cbn [mbind result_bind fst snd]. by rewrite app_nil_r.
  - apply Forall_app. split; [done|by apply Forall_singleton].
  - apply lookup_insert_eq.
Qed.

Lemma cli_add_then_restart_witness :
  init (u "wallet.txt")
    (fs (manager (snd (FinanceCLI.add_record
                         (example_terminal
                            [u "2024-03-01"; EXPENSE; u " 1e1 "; u "tea: green"; u "7"]))))) []
  = inr {| self := {| filepath := u "wallet.txt";
                      records := example_reserved_dated
                                 ++ [typed_record (u "2024-03-01") EXPENSE 10
                                       (u "tea: green")] |};
           fs := fs (manager (snd (FinanceCLI.add_record
                   (example_terminal
                      [u "2024-03-01"; EXPENSE; u " 1e1 "; u "tea: green"; u "7"]))));
           stdout := [] |}.
Proof.
  apply (cli_add_then_restart
           (example_terminal [u "2024-03-01"; EXPENSE; u " 1e1 "; u "tea: green"; u "7"])
           (u "2024-03-01") EXPENSE (u " 1e1 ") (u "tea: green") [u "7"] 10 []).
  - done.
  - by vm_compute.
  - repeat constructor; try by_evaluation; by vm_compute.
  - repeat constructor; try by_evaluation; by vm_compute.
Defined.
